(** * policybot syncer: a shallow embedding of [pkg/syncer] and its properties

    The embedding follows the Go source of the syncer: filter-flag parsing,
    the per-run user registry, incremental activity windowing, the ZenHub and
    pull-request passes and the maintainer resolver (CODEOWNERS / OWNERS).

    External collaborators (the GitHub and ZenHub clients, the store, the
    cache, raw HTTP) are not part of the syncer; their answers are taken as
    functions ("oracles") and their calls are recorded in traces. *)

From Stdlib Require Import ZArith Ascii String List Lia Bool.
From stdpp Require Import base option list gmap strings fin_maps.

Local Open Scope Z_scope.

(* ===================================================================== *)
(** * Part I. Definitions                                                 *)
(* ===================================================================== *)

(** ** Go's [strings] package, on byte strings

    A Go string is a sequence of bytes; [string] (a list of 8-bit [ascii])
    models it directly. *)

(** [strings.Split(s, sep)] for a one-byte separator, which is what every
    call site of the syncer uses ([","], ["\n"], ["/"]). The result always
    has one more element than there are separators; [Split "" sep = [""]]. *)
Fixpoint Split (s : string) (sep : ascii) : list string :=
  match s with
  | EmptyString => [EmptyString]
  | String c s' =>
      if Ascii.eqb c sep then EmptyString :: Split s' sep
      else match Split s' sep with
           | [] => [String c EmptyString]
           | w :: ws => String c w :: ws
           end
  end.

(** [strings.Join(elems, sep)]. *)
Fixpoint Join (elems : list string) (sep : string) : string :=
  match elems with
  | [] => EmptyString
  | [e] => e
  | e :: rest => String.append e (String.append sep (Join rest sep))
  end.

(** [strings.HasPrefix(s, prefix)]. *)
Fixpoint HasPrefix (s prefix : string) : bool :=
  match prefix, s with
  | EmptyString, _ => true
  | String p prefix', String c s' => Ascii.eqb c p && HasPrefix s' prefix'
  | String _ _, EmptyString => false
  end.

Fixpoint drop_bytes (n : nat) (s : string) : string :=
  match n, s with
  | O, _ => s
  | S n', String _ s' => drop_bytes n' s'
  | S _, EmptyString => EmptyString
  end.

Fixpoint take_bytes (n : nat) (s : string) : string :=
  match n, s with
  | O, _ => EmptyString
  | S n', String c s' => String c (take_bytes n' s')
  | S _, EmptyString => EmptyString
  end.

(** [strings.TrimPrefix(s, prefix)]: [s] without the leading [prefix], or
    [s] itself when it does not start with it. *)
Definition TrimPrefix (s prefix : string) : string :=
  if HasPrefix s prefix then drop_bytes (String.length prefix) s else s.

(** [strings.HasSuffix(s, suffix)]. *)
Definition HasSuffix (s suffix : string) : bool :=
  (String.length suffix <=? String.length s)%nat
  && String.eqb (drop_bytes (String.length s - String.length suffix) s) suffix.

(** [strings.TrimSuffix(s, suffix)]. *)
Definition TrimSuffix (s suffix : string) : string :=
  if HasSuffix s suffix
  then take_bytes (String.length s - String.length suffix) s
  else s.

(** Membership of a byte in an ASCII cutset. *)
Fixpoint in_cutset (c : ascii) (cutset : string) : bool :=
  match cutset with
  | EmptyString => false
  | String d cutset' => Ascii.eqb c d || in_cutset c cutset'
  end.

(** [strings.TrimLeft] for an ASCII cutset: Go takes the byte-wise path
    ([makeASCIISet]) whenever every byte of the cutset is below 0x80. *)
Fixpoint TrimLeft (s cutset : string) : string :=
  match s with
  | EmptyString => EmptyString
  | String c s' => if in_cutset c cutset then TrimLeft s' cutset else s
  end.

Fixpoint TrimRight (s cutset : string) : string :=
  match s with
  | EmptyString => EmptyString
  | String c s' =>
      match TrimRight s' cutset with
      | EmptyString => if in_cutset c cutset then EmptyString
                       else String c EmptyString
      | r => String c r
      end
  end.

(** [strings.Trim(s, cutset)] for an ASCII cutset. *)
Definition Trim (s cutset : string) : string :=
  TrimRight (TrimLeft s cutset) cutset.

(** ** Errors

    A Go [error] is either the ZenHub sentinel [zh.ErrNotFound] (compared by
    identity in the source), an error built by [fmt.Errorf] (kept as its
    format string and arguments), or an error handed back by a
    collaborator. *)
Inductive error : Type :=
| ErrNotFound : error
| Errorf (format : string) (args : list fmtarg) : error
| Upstream (what : string) : error
with fmtarg : Type :=
| AStr (s : string) : fmtarg
| AInt (n : Z) : fmtarg
| AErr (e : error) : fmtarg.

(** What a function that may hit a run-time panic does. *)
Inductive outcome (A : Type) : Type :=
| Returns (a : A)
| Panics (why : string).
Arguments Returns {A} a.
Arguments Panics {A} why.

(** ** Filter flags *)

Definition FilterFlags := Z.

Definition Issues : FilterFlags := Z.shiftl 1 0.
Definition Prs : FilterFlags := Z.shiftl 1 1.
Definition Maintainers : FilterFlags := Z.shiftl 1 2.
Definition Members : FilterFlags := Z.shiftl 1 3.
Definition Labels : FilterFlags := Z.shiftl 1 4.
Definition ZenHub : FilterFlags := Z.shiftl 1 5.
Definition RepoComments : FilterFlags := Z.shiftl 1 6.
Definition Events : FilterFlags := Z.shiftl 1 7.

(** The [switch f] of [ConvFilterFlags]: the flag of a token, [None] for the
    [default] branch. *)
Definition filter_case (f : string) : option FilterFlags :=
  if String.eqb f "issues" then Some Issues
  else if String.eqb f "prs" then Some Prs
  else if String.eqb f "maintainers" then Some Maintainers
  else if String.eqb f "members" then Some Members
  else if String.eqb f "labels" then Some Labels
  else if String.eqb f "zenhub" then Some ZenHub
  else if String.eqb f "repocomments" then Some RepoComments
  else if String.eqb f "events" then Some Events
  else None.

(** The [for _, f := range strings.Split(filter, ",")] loop, with the
    accumulator [result]. *)
Fixpoint conv_loop (fs : list string) (result : FilterFlags)
  : FilterFlags * option error :=
  match fs with
  | [] => (result, None)
  | f :: fs' =>
      match filter_case f with
      | Some flag => conv_loop fs' (Z.lor result flag)
      | None => (0, Some (Errorf "unknown filter flag %s" [AStr f]))
      end
  end.

Definition comma : ascii := ","%char.

Definition ConvFilterFlags (filter : string) : FilterFlags * option error :=
  if String.eqb filter "" then
    (Z.lor (Z.lor (Z.lor (Z.lor (Z.lor (Z.lor (Z.lor Issues Prs) Maintainers)
       Members) Labels) ZenHub) RepoComments) Events, None)
  else conv_loop (Split filter comma) 0.


(** ** UTF-8 decoding and [strings.Fields]

    [strings.Fields] splits around runs of white space as defined by
    [unicode.IsSpace]; on non-ASCII input Go decodes runes, an invalid byte
    counting as U+FFFD of width 1. *)

Definition byte_val (c : ascii) : Z := Z.of_nat (nat_of_ascii c).

Definition RuneError : Z := 65533.

Definition is_cont (lo hi : Z) (c : ascii) : bool :=
  (lo <=? byte_val c) && (byte_val c <=? hi).

(** [utf8.DecodeRuneInString]: the rune at the head of [s] and its width in
    bytes (width 0 only for the empty string). *)
Definition DecodeRuneInString (s : string) : Z * nat :=
  match s with
  | EmptyString => (RuneError, 0%nat)
  | String c0 rest =>
      let s0 := byte_val c0 in
      if s0 <? 128 then (s0, 1%nat)
      else if (s0 <? 194) || (244 <? s0) then (RuneError, 1%nat)
      else
        let sz : nat :=
          if s0 <? 224 then 2%nat else if s0 <? 240 then 3%nat else 4%nat in
        let lo :=
          if s0 =? 224 then 160 else if s0 =? 240 then 144 else 128 in
        let hi :=
          if s0 =? 237 then 159 else if s0 =? 244 then 143 else 191 in
        match rest with
        | EmptyString => (RuneError, 1%nat)
        | String c1 rest1 =>
            if (String.length s <? sz)%nat then (RuneError, 1%nat)
            else if negb (is_cont lo hi c1) then (RuneError, 1%nat)
            else
              let s1 := byte_val c1 in
              match sz with
              | 2%nat =>
                  (Z.lor (Z.shiftl (Z.land s0 31) 6) (Z.land s1 63), 2%nat)
              | _ =>
                  match rest1 with
                  | EmptyString => (RuneError, 1%nat)
                  | String c2 rest2 =>
                      if negb (is_cont 128 191 c2) then (RuneError, 1%nat)
                      else
                        let s2 := byte_val c2 in
                        match sz with
                        | 3%nat =>
                            (Z.lor (Z.lor (Z.shiftl (Z.land s0 15) 12)
                                      (Z.shiftl (Z.land s1 63) 6))
                               (Z.land s2 63), 3%nat)
                        | _ =>
                            match rest2 with
                            | EmptyString => (RuneError, 1%nat)
                            | String c3 _ =>
                                if negb (is_cont 128 191 c3)
                                then (RuneError, 1%nat)
                                else
                                  let s3 := byte_val c3 in
                                  (Z.lor (Z.lor (Z.lor
                                     (Z.shiftl (Z.land s0 7) 18)
                                     (Z.shiftl (Z.land s1 63) 12))
                                     (Z.shiftl (Z.land s2 63) 6))
                                     (Z.land s3 63), 4%nat)
                            end
                        end
                  end
              end
        end
  end.

(** [unicode.IsSpace]. *)
Definition IsSpace (r : Z) : bool :=
  if r <=? 255 then
    (r =? 9) || (r =? 10) || (r =? 11) || (r =? 12) || (r =? 13)
    || (r =? 32) || (r =? 133) || (r =? 160)
  else
    (r =? 5760) || ((8192 <=? r) && (r <=? 8202)) || (r =? 8232)
    || (r =? 8233) || (r =? 8239) || (r =? 8287) || (r =? 12288).

Definition push_byte (cur : option string) (c : ascii) : option string :=
  match cur with
  | None => Some (String c EmptyString)
  | Some w => Some (String.append w (String c EmptyString))
  end.

Definition flush_field (cur : option string) : list string :=
  match cur with
  | None => []
  | Some w => [w]
  end.

(** The rune loop of [strings.FieldsFunc(s, unicode.IsSpace)]. [skip] counts
    the bytes still to pass that belong to the rune decoded last, [space]
    says whether that rune was white space, [cur] is the field being
    collected. *)
Fixpoint fields_loop (s : string) (skip : nat) (space : bool)
    (cur : option string) : list string :=
  match s with
  | EmptyString => flush_field cur
  | String c s' =>
      match skip with
      | S k =>
          if space then fields_loop s' k true cur
          else fields_loop s' k false (push_byte cur c)
      | O =>
          let '(r, width) := DecodeRuneInString s in
          if IsSpace r
          then flush_field cur ++ fields_loop s' (Nat.pred width) true None
          else fields_loop s' (Nat.pred width) false (push_byte cur c)
      end
  end.

(** [strings.Fields(s)]. *)
Definition Fields (s : string) : list string := fields_loop s 0 false None.


(** ** Time

    [time.Time] is a struct of a wall reading, an extended reading and a
    location pointer; Go's [==] on it is field-wise equality. *)
Record Time : Type := mkTime { wall : Z; ext : Z; loc : Z }.

Global Instance Time_eq_dec : EqDecision Time.
Proof. solve_decision. Defined.

(** [time.Time{}], the zero value. *)
Definition zeroTime : Time := mkTime 0 0 0.

(** ** Storage records (the fields the syncer reads or writes) *)

Module Org.
Record t : Type := mk { OrgLogin : string }.
End Org.

Module Repo.
Record t : Type := mk { OrgLogin : string; RepoName : string; RepoNumber : Z }.
End Repo.

Module User.
(** [Profile] stands for the profile fields the syncer never inspects. *)
Record t : Type := mk { UserLogin : string; Name : string; Profile : string }.
End User.

Module Maintainer.
Record t : Type :=
  mk { OrgLogin : string; UserLogin : string; Paths : list string }.
End Maintainer.

Module Issue.
Record t : Type :=
  mk { OrgLogin : string; RepoName : string; IssueNumber : Z }.
End Issue.

Module IssuePipeline.
Record t : Type :=
  mk { OrgLogin : string; RepoName : string; IssueNumber : Z;
       Pipeline : string }.
End IssuePipeline.

Module BotActivity.
Record t : Type :=
  mk { OrgLogin : string; RepoName : string;
       LastIssueSyncStart : Time;
       LastIssueCommentSyncStart : Time;
       LastPullRequestReviewCommentSyncStart : Time }.
End BotActivity.

(** Go ranges over a map in an unspecified order: a loop over a map is
    modelled over an enumeration of its entries, any permutation of them. *)
Definition range_order (A : Type) : Type := gmap string A -> list (string * A).

Definition valid_range {A : Type} (order : range_order A) : Prop :=
  forall m, order m ≡ₚ map_to_list m.

(** ** The per-run user registry ([ss.users]) *)

(** The GitHub user lookup [client.Users.Get] behind the throttled client,
    and [gh.ConvertUser]. *)
Record UsersAPI : Type := {
  GhUser : Type;
  Users_Get : string -> GhUser + error;
  ConvertUser : GhUser -> User.t
}.

(** [addUsers]: [ss.users[user.UserLogin] = user] for each argument in turn. *)
Definition addUsers (users : gmap string User.t) (us : list User.t)
  : gmap string User.t :=
  foldl (fun m user => <[User.UserLogin user := user]> m) users us.

(** What [pushUsers] does to the outside. *)
Inductive UsersEvent : Type :=
| EvUsersGet (login : string)
| EvWriteUsers (batch : list User.t).

(** The body of the [for _, user := range ss.users] loop of [pushUsers]: the
    value appended to [users]. *)
Definition backfill (api : UsersAPI) (user : User.t) : User.t :=
  if String.eqb (User.Name user) "" then
    match Users_Get api (User.UserLogin user) with
    | inl u => ConvertUser api u
    | inr _ => user
    end
  else user.

Definition backfill_calls (user : User.t) : list UsersEvent :=
  if String.eqb (User.Name user) "" then [EvUsersGet (User.UserLogin user)]
  else [].

(** [pushUsers]: the calls made, in order, and the error returned.
    [WriteUsers] is the store's answer to the batch. *)
Definition pushUsers (api : UsersAPI) (WriteUsers : list User.t -> option error)
    (order : range_order User.t) (ss_users : gmap string User.t)
  : list UsersEvent * option error :=
  let entries := order ss_users in
  let users := map (fun kv => backfill api (snd kv)) entries in
  let calls := flat_map (fun kv => backfill_calls (snd kv)) entries in
  (calls ++ [EvWriteUsers users], WriteUsers users).

(** ** Incremental activity windowing ([handleActivity]) *)

(** The three [getField] closures of [handleRepo], as field selectors. *)
Inductive ActivityField : Type :=
| FLastIssueSyncStart
| FLastIssueCommentSyncStart
| FLastPullRequestReviewCommentSyncStart.

(** [*getField(act)]. *)
Definition getField (f : ActivityField) (act : BotActivity.t) : Time :=
  match f with
  | FLastIssueSyncStart => BotActivity.LastIssueSyncStart act
  | FLastIssueCommentSyncStart => BotActivity.LastIssueCommentSyncStart act
  | FLastPullRequestReviewCommentSyncStart =>
      BotActivity.LastPullRequestReviewCommentSyncStart act
  end.

(** [*getField(act) = v]. *)
Definition setField (f : ActivityField) (v : Time) (act : BotActivity.t)
  : BotActivity.t :=
  match f with
  | FLastIssueSyncStart =>
      BotActivity.mk (BotActivity.OrgLogin act) (BotActivity.RepoName act) v
        (BotActivity.LastIssueCommentSyncStart act)
        (BotActivity.LastPullRequestReviewCommentSyncStart act)
  | FLastIssueCommentSyncStart =>
      BotActivity.mk (BotActivity.OrgLogin act) (BotActivity.RepoName act)
        (BotActivity.LastIssueSyncStart act) v
        (BotActivity.LastPullRequestReviewCommentSyncStart act)
  | FLastPullRequestReviewCommentSyncStart =>
      BotActivity.mk (BotActivity.OrgLogin act) (BotActivity.RepoName act)
        (BotActivity.LastIssueSyncStart act)
        (BotActivity.LastIssueCommentSyncStart act) v
  end.

(** The BotActivity table of the store, keyed by (org, repo). *)
Abbreviation ActivityTable := (gmap (string * string) BotActivity.t).

(** Modelled from the spec: the store's [ReadBotActivity] (read-by-key; the
    store itself is not part of the syncer). A failing read hands back no
    record and the error; otherwise the record, if there is one. *)
Definition ReadBotActivity (fault : option error) (tbl : ActivityTable)
    (org repo : string) : option BotActivity.t * option error :=
  match fault with
  | Some e => (None, Some e)
  | None => (tbl !! (org, repo), None)
  end.

(** Modelled from the spec: the store's [UpdateBotActivity], an atomic
    update-with-callback: the current record (a fresh zero record for the key
    when none exists) is handed to the callback and written back when the
    callback and the transaction succeed. *)
Definition UpdateBotActivity (fault : option error) (tbl : ActivityTable)
    (org repo : string) (cb : BotActivity.t -> BotActivity.t * option error)
  : ActivityTable * option error :=
  match fault with
  | Some e => (tbl, Some e)
  | None =>
      let cur :=
        default (BotActivity.mk org repo zeroTime zeroTime zeroTime)
                (tbl !! (org, repo)) in
      match cb cur with
      | (act, None) => (<[(org, repo) := act]> tbl, None)
      | (_, Some e) => (tbl, Some e)
      end
  end.

(** The closure handed to [UpdateBotActivity] by [handleActivity]:
    [if *getField(act) == priorStart { *getField(act) = start }; return nil]. *)
Definition advance (f : ActivityField) (priorStart start : Time)
    (act : BotActivity.t) : BotActivity.t * option error :=
  if decide (getField f act = priorStart)
  then (setField f start act, None)
  else (act, None).

Inductive ActivityEvent : Type :=
| EvReadBotActivity (org repo : string)
| EvCallback (since : Time)
| EvUpdateBotActivity (org repo : string)
| EvWarnActivity (format : string) (args : list fmtarg).

(** What the surroundings do during one pass: the clock reading of
    [time.Now().UTC()] and whether the two store calls fail. *)
Record ActivityPass : Type := {
  now : Time;
  readFault : option error;
  updateFault : option error
}.

(** [handleActivity]. The fetch+write callback [cb] runs against the table
    (whatever happens to the table while it runs, a concurrent writer
    included, is its effect); the result is the table, the calls made and the
    error returned. *)
Definition handleActivity (pass : ActivityPass) (repo : Repo.t)
    (cb : Repo.t -> Time -> ActivityTable -> ActivityTable * option error)
    (fld : ActivityField) (tbl : ActivityTable)
  : ActivityTable * list ActivityEvent * option error :=
  let org := Repo.OrgLogin repo in
  let name := Repo.RepoName repo in
  let start := now pass in
  let priorStart :=
    match fst (ReadBotActivity (readFault pass) tbl org name) with
    | Some activity => getField fld activity
    | None => zeroTime
    end in
  let pre := [EvReadBotActivity org name; EvCallback priorStart] in
  match cb repo priorStart tbl with
  | (tbl1, Some err) => (tbl1, pre, Some err)
  | (tbl1, None) =>
      match UpdateBotActivity (updateFault pass) tbl1 org name
              (advance fld priorStart start) with
      | (tbl2, Some err) =>
          (tbl2,
           pre ++ [EvUpdateBotActivity org name;
                   EvWarnActivity
                     "unable to update bot activity for repo %s/%s: %v"
                     [AStr org; AStr name; AErr err]],
           None)
      | (tbl2, None) => (tbl2, pre ++ [EvUpdateBotActivity org name], None)
      end
  end.

(** ** The ZenHub pass ([handleZenHub]) *)

(** The collaborators of the pass: the store's issue query (the issues it
    streams, or its error), the throttled ZenHub client's [GetIssueData]
    (the pipeline name of [issueData.Pipeline.Name], or an error) and the
    store's [WriteIssuePipelines]. *)
Record ZenHubEnv : Type := {
  QueryIssuesByRepo : string -> string -> list Issue.t + error;
  GetIssueData : Z -> Z -> string + error;
  WriteIssuePipelines : list IssuePipeline.t -> option error
}.

Inductive ZenHubEvent : Type :=
| EvGetIssueData (repoNumber issueNumber : Z)
| EvWriteIssuePipelines (batch : list IssuePipeline.t).

(** The [for _, issue := range issues] loop and the final write, with the
    slice [pipelines] collected so far. *)
Fixpoint zenhub_loop (env : ZenHubEnv) (repo : Repo.t) (issues : list Issue.t)
    (pipelines : list IssuePipeline.t) : list ZenHubEvent * option error :=
  match issues with
  | [] =>
      ([EvWriteIssuePipelines pipelines], WriteIssuePipelines env pipelines)
  | issue :: rest =>
      let call := EvGetIssueData (Repo.RepoNumber repo) (Issue.IssueNumber issue) in
      match GetIssueData env (Repo.RepoNumber repo) (Issue.IssueNumber issue) with
      | inr ErrNotFound => ([call], None)
      | inr err =>
          ([call],
           Some (Errorf
             "unable to get issue data from ZenHub for issue %d in repo %s/%s: %v"
             [AInt (Issue.IssueNumber issue); AStr (Repo.OrgLogin repo);
              AStr (Repo.RepoName repo); AErr err]))
      | inl pipeline =>
          let pipelines' :=
            pipelines ++
            [IssuePipeline.mk (Repo.OrgLogin repo) (Repo.RepoName repo)
               (Issue.IssueNumber issue) pipeline] in
          if Z.of_nat (length pipelines') mod 100 =? 0 then
            match WriteIssuePipelines env pipelines' with
            | Some err => ([call; EvWriteIssuePipelines pipelines'], Some err)
            | None =>
                let '(tr, res) := zenhub_loop env repo rest [] in
                (call :: EvWriteIssuePipelines pipelines' :: tr, res)
            end
          else
            let '(tr, res) := zenhub_loop env repo rest pipelines' in
            (call :: tr, res)
      end
  end.

(** [handleZenHub]: the calls made to ZenHub and to the pipeline table, and
    the error returned. *)
Definition handleZenHub (env : ZenHubEnv) (repo : Repo.t)
  : list ZenHubEvent * option error :=
  match QueryIssuesByRepo env (Repo.OrgLogin repo) (Repo.RepoName repo) with
  | inr err =>
      ([], Some (Errorf "unable to read issues from repo %s/%s: %v"
                   [AStr (Repo.OrgLogin repo); AStr (Repo.RepoName repo);
                    AErr err]))
  | inl issues => zenhub_loop env repo issues []
  end.

(** ** The pull-request pass ([handlePullRequests]) *)

(** The collaborators of the pass. The payload types of the GitHub client and
    the records of [storage] are those of other packages: they are taken with
    the accessors the syncer uses. A paged fetch hands over the pages it got
    and the error that ended it, if any. *)
Record PullRequestEnv : Type := {
  GhPullRequest : Type;
  GhReview : Type;
  PullRequest : Type;
  PullRequestReview : Type;
  GetNumber : GhPullRequest -> Z;
  GetUpdatedAt : GhPullRequest -> Time;
  PullRequestNumber : PullRequest -> Z;
  UpdatedAt : PullRequest -> Time;
  ConvertPullRequest :
    string -> string -> GhPullRequest -> list string -> PullRequest * list User.t;
  ConvertPullRequestReview :
    string -> string -> Z -> GhReview -> PullRequestReview * list User.t;
  cache_ReadPullRequest :
    string -> string -> Z -> option PullRequest * option error;
  fetchPullRequests : Repo.t -> list (list GhPullRequest) * option error;
  fetchReviews : Repo.t -> Z -> list (list GhReview) * option error;
  fetchFiles : Repo.t -> Z -> list (list string) * option error;
  WritePullRequests : list PullRequest -> option error;
  WritePullRequestReviews : list PullRequestReview -> option error
}.

Inductive PullRequestEvent (env : PullRequestEnv) : Type :=
| EvReadPullRequest (number : Z)
| EvFetchReviews (number : Z)
| EvFetchFiles (number : Z)
| EvWritePullRequests (batch : list (PullRequest env))
| EvWritePullRequestReviews (batch : list (PullRequestReview env)).
Arguments EvReadPullRequest {env} number.
Arguments EvFetchReviews {env} number.
Arguments EvFetchFiles {env} number.
Arguments EvWritePullRequests {env} batch.
Arguments EvWritePullRequestReviews {env} batch.

(** The local state of one invocation of the page callback, together with the
    registry. *)
Record PullRequestAcc (env : PullRequestEnv) : Type := mkAcc {
  storagePRs : list (PullRequest env);
  storagePRReviews : list (PullRequestReview env);
  acc_users : gmap string User.t;
  acc_trace : list (PullRequestEvent env)
}.
Arguments mkAcc {env}.
Arguments storagePRs {env}.
Arguments storagePRReviews {env}.
Arguments acc_users {env}.
Arguments acc_trace {env}.

(** The callback of [fetchReviews]: convert every review of a page, collect
    it and register its users. *)
Definition reviews_page (env : PullRequestEnv) (repo : Repo.t) (number : Z)
    (acc : list (PullRequestReview env) * gmap string User.t)
    (reviews : list (GhReview env))
  : list (PullRequestReview env) * gmap string User.t :=
  foldl (fun a review =>
           let '(t, users) :=
             ConvertPullRequestReview env (Repo.OrgLogin repo)
               (Repo.RepoName repo) number review in
           (fst a ++ [t], addUsers (snd a) users))
        acc reviews.

(** The body of [for _, pr := range prs]: [inl] is the state to go on with,
    [inr] the state and the error the callback returns at once. *)
Definition pull_request_step (env : PullRequestEnv) (repo : Repo.t)
    (acc : PullRequestAcc env) (pr : GhPullRequest env)
  : PullRequestAcc env + (PullRequestAcc env * error) :=
  let org := Repo.OrgLogin repo in
  let name := Repo.RepoName repo in
  let number := GetNumber env pr in
  let tr0 := acc_trace acc ++ [EvReadPullRequest number] in
  let up_to_date :=
    match fst (cache_ReadPullRequest env org name number) with
    | Some existing =>
        bool_decide (UpdatedAt env existing = GetUpdatedAt env pr)
    | None => false
    end in
  if up_to_date then
    inl (mkAcc (storagePRs acc) (storagePRReviews acc) (acc_users acc) tr0)
  else
    let '(review_pages, review_err) := fetchReviews env repo number in
    let '(reviews, users1) :=
      foldl (reviews_page env repo number)
            (storagePRReviews acc, acc_users acc) review_pages in
    let tr1 := tr0 ++ [EvFetchReviews number] in
    match review_err with
    | Some err => inr (mkAcc (storagePRs acc) reviews users1 tr1, err)
    | None =>
        let '(file_pages, file_err) := fetchFiles env repo number in
        let prFiles := concat file_pages in
        let tr2 := tr1 ++ [EvFetchFiles number] in
        match file_err with
        | Some err => inr (mkAcc (storagePRs acc) reviews users1 tr2, err)
        | None =>
            let '(t, users) := ConvertPullRequest env org name pr prFiles in
            inl (mkAcc (storagePRs acc ++ [t]) reviews
                       (addUsers users1 users) tr2)
        end
    end.

Fixpoint pull_request_loop (env : PullRequestEnv) (repo : Repo.t)
    (acc : PullRequestAcc env) (prs : list (GhPullRequest env))
  : PullRequestAcc env + (PullRequestAcc env * error) :=
  match prs with
  | [] => inl acc
  | pr :: rest =>
      match pull_request_step env repo acc pr with
      | inl acc' => pull_request_loop env repo acc' rest
      | inr stop => inr stop
      end
  end.

(** The callback handed to [fetchPullRequests], run on one page [prs] with
    the registry [users]: the registry, the calls made and the error. *)
Definition pull_requests_page (env : PullRequestEnv) (repo : Repo.t)
    (users : gmap string User.t) (prs : list (GhPullRequest env))
  : gmap string User.t * list (PullRequestEvent env) * option error :=
  match pull_request_loop env repo (mkAcc [] [] users []) prs with
  | inr (acc, err) => (acc_users acc, acc_trace acc, Some err)
  | inl acc =>
      let tr := acc_trace acc ++ [EvWritePullRequests (storagePRs acc)] in
      match WritePullRequests env (storagePRs acc) with
      | Some err => (acc_users acc, tr, Some err)
      | None =>
          (acc_users acc,
           tr ++ [EvWritePullRequestReviews (storagePRReviews acc)],
           WritePullRequestReviews env (storagePRReviews acc))
      end
  end.

(** Modelled from the spec: the paging of [fetchPullRequests] (a function of
    the package that is not among the sources at hand): the pages are handed
    one by one to the callback; the first error of the callback ends the
    fetch and is its result, otherwise the fetch's own error is. *)
Fixpoint pull_request_pages (env : PullRequestEnv) (repo : Repo.t)
    (users : gmap string User.t) (pages : list (list (GhPullRequest env)))
    (fetch_err : option error)
  : gmap string User.t * list (PullRequestEvent env) * option error :=
  match pages with
  | [] => (users, [], fetch_err)
  | prs :: rest =>
      match pull_requests_page env repo users prs with
      | (users', tr, Some err) => (users', tr, Some err)
      | (users', tr, None) =>
          let '(users'', tr', res) :=
            pull_request_pages env repo users' rest fetch_err in
          (users'', tr ++ tr', res)
      end
  end.

(** [handlePullRequests]. *)
Definition handlePullRequests (env : PullRequestEnv) (repo : Repo.t)
    (users : gmap string User.t)
  : gmap string User.t * list (PullRequestEvent env) * option error :=
  let '(pages, fetch_err) := fetchPullRequests env repo in
  pull_request_pages env repo users pages fetch_err.

(** Modelled from the spec: the store's [WritePullRequests] is a batch upsert
    on the key of each record (the store is not part of the syncer); within
    one repository the key is the pull-request number. *)
Definition upsertPullRequests (env : PullRequestEnv)
    (tbl : gmap Z (PullRequest env)) (batch : list (PullRequest env))
  : gmap Z (PullRequest env) :=
  foldl (fun m pr => <[PullRequestNumber env pr := pr]> m) tbl batch.

(** ** The maintainer resolver *)

(** [ownersFile], the parsed form of an OWNERS document. *)
Record ownersFile : Type := mkOwners {
  Approvers : list string;
  Reviewers : list string
}.

(** What [http.Get] followed by [ioutil.ReadAll] gives. *)
Inductive HttpResult : Type :=
| GetFailed (err : error)
| ReadFailed (err : error)
| Body (body : string).

(** The collaborators of the resolver: the user lookups (cache, GitHub), the
    repository contents, commit list and tree of the GitHub client, raw HTTP,
    the YAML parser and the store's wholesale maintainer write; and the two
    orders in which the Go runtime ranges over the maps [files] and
    [maintainers]. *)
Record MaintEnv : Type := {
  users_api : UsersAPI;
  cache_ReadUser : string -> option User.t * option error;
  RepositoryContent : Type;
  GetContents : Repo.t -> RepositoryContent + error;
  GetContent : RepositoryContent -> string + error;
  ListCommits : Repo.t -> list string + error;
  GetTree : Repo.t -> string -> list string + error;
  http_Get : string -> HttpResult;
  yaml_Unmarshal : string -> ownersFile + error;
  WriteAllMaintainers : list Maintainer.t -> option error;
  files_order : range_order ownersFile;
  maintainers_order : range_order Maintainer.t
}.

Inductive MaintEvent : Type :=
| EvCacheReadUser (login : string)
| EvGithubUsersGet (login : string)
| EvGetContents (repo : Repo.t)
| EvListCommits (repo : Repo.t)
| EvGetTree (repo : Repo.t) (sha : string)
| EvHttpGet (url : string)
| EvWarn (format : string) (args : list fmtarg)
| EvWriteAllMaintainers (batch : list Maintainer.t).

(** The mutable state the resolver works on: the registry [ss.users] and the
    map [maintainers] of the current organization. *)
Record MaintState : Type := mkMaint {
  ms_users : gmap string User.t;
  ms_maintainers : gmap string Maintainer.t
}.

(** A step of the resolver: from a state it either panics or returns a
    value, the next state and the calls it made, in order. *)
Definition Resolver (A : Type) : Type :=
  MaintState -> outcome (A * MaintState * list MaintEvent).

Definition resolver_ret {A : Type} (a : A) : Resolver A :=
  fun st => Returns (a, st, []).

Definition resolver_bind {A B : Type} (f : A -> Resolver B) (m : Resolver A)
  : Resolver B :=
  fun st =>
    match m st with
    | Panics why => Panics why
    | Returns (a, st1, evs1) =>
        match f a st1 with
        | Panics why => Panics why
        | Returns (b, st2, evs2) => Returns (b, st2, evs1 ++ evs2)
        end
    end.

Global Instance Resolver_ret : MRet Resolver := @resolver_ret.
Global Instance Resolver_bind : MBind Resolver := @resolver_bind.

Definition get_state : Resolver MaintState :=
  fun st => Returns (st, st, []).

Definition set_users (users : gmap string User.t) : Resolver unit :=
  fun st => Returns (tt, mkMaint users (ms_maintainers st), []).

Definition set_maintainers (maintainers : gmap string Maintainer.t)
  : Resolver unit :=
  fun st => Returns (tt, mkMaint (ms_users st) maintainers, []).

Definition emit (evs : list MaintEvent) : Resolver unit :=
  fun st => Returns (tt, st, evs).

Definition panic {A : Type} (why : string) : Resolver A :=
  fun _ => Panics why.

(** A [for _, x := range xs] loop. *)
Fixpoint for_range {X : Type} (xs : list X) (body : X -> Resolver unit)
  : Resolver unit :=
  match xs with
  | [] => mret tt
  | x :: rest => body x ;; for_range rest body
  end.

(** The tail of [getMaintainer]: find or create the record of [user] in
    [maintainers]; the result is the key under which the record returned by
    the source lives in the map. *)
Definition maintainer_record (org : Org.t) (user : User.t)
  : Resolver (string + error) :=
  st ← get_state;
  let key := User.UserLogin user in
  match ms_maintainers st !! key with
  | Some _ => mret (inl key)
  | None =>
      set_maintainers
        (<[key := Maintainer.mk (Org.OrgLogin org) key []]> (ms_maintainers st)) ;;
      mret (inl key)
  end.

(** The GitHub step of [getMaintainer], taken when neither the registry nor
    the cache knows the login. *)
Definition maintainer_from_github (env : MaintEnv) (org : Org.t)
    (login : string) : Resolver (string + error) :=
  emit [EvGithubUsersGet login] ;;
  match Users_Get (users_api env) login with
  | inr err =>
      mret (inr (Errorf "unable to read information from GitHub on user %s: %v"
                   [AStr login; AErr err]))
  | inl u =>
      let user := ConvertUser (users_api env) u in
      st ← get_state;
      set_users (<[User.UserLogin user := user]> (ms_users st)) ;;
      maintainer_record org user
  end.

(** [getMaintainer]. *)
Definition getMaintainer (env : MaintEnv) (org : Org.t) (login : string)
  : Resolver (string + error) :=
  st ← get_state;
  match ms_users st !! login with
  | Some user => maintainer_record org user
  | None =>
      emit [EvCacheReadUser login] ;;
      match cache_ReadUser env login with
      | (_, Some err) =>
          mret (inr (Errorf
                       "unable to read information from storage for user %s: %v"
                       [AStr login; AErr err]))
      | (Some user, None) => maintainer_record org user
      | (None, None) => maintainer_from_github env org login
      end
  end.

(** [maintainer.Paths = append(maintainer.Paths, p)] on the record that lives
    under [key]. *)
Definition append_path (key p : string) : Resolver unit :=
  st ← get_state;
  set_maintainers
    (alter (fun m => Maintainer.mk (Maintainer.OrgLogin m)
                       (Maintainer.UserLogin m) (Maintainer.Paths m ++ [p]))
           key (ms_maintainers st)).

(** Resolve [login] and give it [p], or warn and go on. *)
Definition grant_path (env : MaintEnv) (org : Org.t) (login p : string)
  : Resolver unit :=
  r ← getMaintainer env org login;
  match r with
  | inl key => append_path key p
  | inr err =>
      emit [EvWarn "Couldn't get info on potential maintainer %s: %v"
              [AStr login; AErr err]]
  end.

Definition newline : ascii := "010"%char.
Definition slash : ascii := "/"%char.

(** The cutset of [strings.Trim(line, " \t")]: space and tab. *)
Definition space_tab : string :=
  String " "%char (String "009"%char EmptyString).

(** The body of [for _, login := range logins] in [handleCODEOWNERS]. *)
Definition codeowners_login (env : MaintEnv) (org : Org.t) (repo : Repo.t)
    (fields0 : string) (login : string) : Resolver unit :=
  let login := TrimPrefix login "@" in
  let path := TrimPrefix fields0 "/" in
  let path := TrimSuffix path "/*" in
  let path := if String.eqb path "*" then "" else path in
  grant_path env org login (Repo.RepoName repo +:+ "/" +:+ path).

(** The body of [for _, line := range lines] in [handleCODEOWNERS].
    [fields[1:]] panics when [fields] is empty. *)
Definition codeowners_line (env : MaintEnv) (org : Org.t) (repo : Repo.t)
    (line : string) : Resolver unit :=
  let l := Trim line space_tab in
  if HasPrefix l "#" || String.eqb l "" then mret tt
  else
    match Fields l with
    | [] => panic "slice bounds out of range [1:0]"
    | fields0 :: logins =>
        for_range logins (codeowners_login env org repo fields0)
    end.

(** [handleCODEOWNERS]. *)
Definition handleCODEOWNERS (env : MaintEnv) (org : Org.t) (repo : Repo.t)
    (fc : RepositoryContent env) : Resolver (option error) :=
  match GetContent env fc with
  | inr err =>
      mret (Some (Errorf "unable to read CODEOWNERS body from repo %s/%s: %v"
                    [AStr (Repo.OrgLogin repo); AStr (Repo.RepoName repo);
                     AErr err]))
  | inl content =>
      for_range (Split content newline) (codeowners_line env org repo) ;;
      mret None
  end.

(** The URL [handleOWNERS] fetches for a tree entry. *)
Definition owners_url (repo : Repo.t) (path : string) : string :=
  "https://raw.githubusercontent.com/" +:+ Repo.OrgLogin repo +:+ "/"
  +:+ Repo.RepoName repo +:+ "/master/" +:+ path.

(** The test [handleOWNERS] makes on a tree entry: the last component of the
    path is OWNERS and the first is not vendor. *)
Definition is_owners_entry (path : string) : bool :=
  let components := Split path slash in
  String.eqb (List.last components "") "OWNERS"
  && negb (String.eqb (List.hd "" components) "vendor").

(** The tree walk of [handleOWNERS]: fetch and parse every entry that passes
    the test; [files] is the map built so far. The result is the map, the
    calls made and the error that ends [handleOWNERS], if any. *)
Fixpoint owners_fetch (env : MaintEnv) (repo : Repo.t) (entries : list string)
    (files : gmap string ownersFile)
  : gmap string ownersFile * list MaintEvent * option error :=
  match entries with
  | [] => (files, [], None)
  | path :: rest =>
      if is_owners_entry path then
        let url := owners_url repo path in
        match http_Get env url with
        | GetFailed err =>
            (files, [EvHttpGet url],
             Some (Errorf "unable to get %s: %v" [AStr url; AErr err]))
        | ReadFailed err =>
            (files, [EvHttpGet url],
             Some (Errorf "unable to read body for %s: %v"
                     [AStr url; AErr err]))
        | Body body =>
            match yaml_Unmarshal env body with
            | inr err =>
                (files, [EvHttpGet url],
                 Some (Errorf "unable to parse body for %s: %v"
                         [AStr url; AErr err]))
            | inl f =>
                let '(files', evs, res) :=
                  owners_fetch env repo rest (<[path := f]> files) in
                (files', EvHttpGet url :: evs, res)
            end
        end
      else owners_fetch env repo rest files
  end.

(** The body of [for path, file := range files] in [handleOWNERS]: every
    approver of the file gets the directory of the file. *)
Definition owners_file (env : MaintEnv) (org : Org.t) (repo : Repo.t)
    (entry : string * ownersFile) : Resolver unit :=
  for_range (Approvers (snd entry))
    (fun user =>
       grant_path env org user
         (Repo.RepoName repo +:+ "/" +:+ TrimSuffix (fst entry) "OWNERS")).

(** [handleOWNERS]. [rc[0]] panics when the commit list is empty. *)
Definition handleOWNERS (env : MaintEnv) (org : Org.t) (repo : Repo.t)
  : Resolver (option error) :=
  emit [EvListCommits repo] ;;
  match ListCommits env repo with
  | inr err =>
      mret (Some (Errorf "unable to get latest commit in repo %s/%s: %v"
                    [AStr (Repo.OrgLogin repo); AStr (Repo.RepoName repo);
                     AErr err]))
  | inl [] => panic "index out of range [0] with length 0"
  | inl (sha :: _) =>
      emit [EvGetTree repo sha] ;;
      match GetTree env repo sha with
      | inr err =>
          mret (Some (Errorf "unable to get tree in repo %s/%s: %v"
                        [AStr (Repo.OrgLogin repo); AStr (Repo.RepoName repo);
                         AErr err]))
      | inl entries =>
          let '(files, evs, res) := owners_fetch env repo entries ∅ in
          emit evs ;;
          match res with
          | Some err => mret (Some err)
          | None =>
              for_range (files_order env files) (owners_file env org repo) ;;
              mret None
          end
      end
  end.

(** The [if err == nil { ... } else { ... }] of [handleMaintainers]: the
    CODEOWNERS file when it can be read, the OWNERS files otherwise. *)
Definition establish_maintainers (env : MaintEnv) (org : Org.t)
    (repo : Repo.t) : Resolver (option error) :=
  emit [EvGetContents repo] ;;
  match GetContents env repo with
  | inl fc => handleCODEOWNERS env org repo fc
  | inr _ => handleOWNERS env org repo
  end.

(** The body of [for _, repo := range repos] in [handleMaintainers]. *)
Definition maintainers_repo (env : MaintEnv) (org : Org.t) (repo : Repo.t)
  : Resolver unit :=
  res ← establish_maintainers env org repo;
  match res with
  | None => mret tt
  | Some err =>
      emit [EvWarn "Unable to establish maintainers for repo %s/%s: %v"
              [AStr (Repo.OrgLogin repo); AStr (Repo.RepoName repo);
               AErr err]]
  end.

(** [handleMaintainers], run with the registry [users]: the registry
    afterwards, the calls made and the error returned. *)
Definition handleMaintainers (env : MaintEnv) (org : Org.t)
    (repos : list Repo.t) (users : gmap string User.t)
  : outcome (gmap string User.t * list MaintEvent * option error) :=
  match for_range repos (maintainers_repo env org) (mkMaint users ∅) with
  | Panics why => Panics why
  | Returns (_, st, evs) =>
      let storageMaintainers :=
        map snd (maintainers_order env (ms_maintainers st)) in
      Returns (ms_users st,
               evs ++ [EvWriteAllMaintainers storageMaintainers],
               WriteAllMaintainers env storageMaintainers)
  end.


(** ** Definitions for the statements

    Observations of states and traces, and the behaviour the specification
    asks for, in its words. *)

(** *** Filter flags *)

(** The tokens of a filter string and the flag constant of each, as the
    specification lists them. *)
Definition filter_tokens : list (string * FilterFlags) :=
  [("issues", Issues); ("prs", Prs); ("maintainers", Maintainers);
   ("members", Members); ("labels", Labels); ("zenhub", ZenHub);
   ("repocomments", RepoComments); ("events", Events)].

Definition is_filter_token (t : string) : bool :=
  existsb (fun kv => String.eqb t (fst kv)) filter_tokens.

(** The flag constant of a token, by the table. *)
Definition token_flag (t : string) : FilterFlags :=
  match find (fun kv => String.eqb t (fst kv)) filter_tokens with
  | Some kv => snd kv
  | None => 0
  end.

(** The bitwise OR of the flag constants of a list of tokens. *)
Definition or_of_flags (tokens : list string) : FilterFlags :=
  foldr (fun t acc => Z.lor (token_flag t) acc) 0 tokens.

(** *** The user registry *)

(** The record registered last for [login] in a sequence of registrations,
    if there is one. *)
Fixpoint last_registered (login : string) (us : list User.t) : option User.t :=
  match us with
  | [] => None
  | u :: rest =>
      match last_registered login rest with
      | Some v => Some v
      | None => if String.eqb (User.UserLogin u) login then Some u else None
      end
  end.

(** A user lookup is faithful when the profile it returns is the one of the
    login asked for. *)
Definition faithful_lookup (api : UsersAPI) : Prop :=
  forall login u,
    Users_Get api login = inl u ->
    User.UserLogin (ConvertUser api u) = login.

(** Every entry of the registry sits under its own login. *)
Definition keyed_by_login (users : gmap string User.t) : Prop :=
  forall k u, users !! k = Some u -> User.UserLogin u = k.

(** *** Activity windowing *)

(** The bookmark recorded in the table for a repository and a field: the
    zero time when there is no record. *)
Definition bookmark (fld : ActivityField) (tbl : ActivityTable) (repo : Repo.t)
  : Time :=
  from_option (getField fld) zeroTime
    (tbl !! (Repo.OrgLogin repo, Repo.RepoName repo)).

(** The lower bound the pass hands to its callback, in the words of the
    specification: the bookmark read, the zero time when the read fails. *)
Definition prior_read (pass : ActivityPass) (fld : ActivityField)
    (tbl : ActivityTable) (repo : Repo.t) : Time :=
  match readFault pass with
  | Some _ => zeroTime
  | None => bookmark fld tbl repo
  end.

(** *** The ZenHub pass *)

(** The issue numbers looked up at ZenHub, in the order of the calls. *)
Fixpoint lookups_of (tr : list ZenHubEvent) : list Z :=
  match tr with
  | [] => []
  | EvGetIssueData _ n :: rest => n :: lookups_of rest
  | EvWriteIssuePipelines _ :: rest => lookups_of rest
  end.

(** The error [handleZenHub] returns when the lookup of issue [n] fails with
    [err]: nil for the not-found sentinel, a wrapped error otherwise. *)
Definition lookup_failure (repo : Repo.t) (n : Z) (err : error) : option error :=
  match err with
  | ErrNotFound => None
  | _ =>
      Some (Errorf
        "unable to get issue data from ZenHub for issue %d in repo %s/%s: %v"
        [AInt n; AStr (Repo.OrgLogin repo); AStr (Repo.RepoName repo);
         AErr err])
  end.

(** *** The pull-request pass *)

(** The reviews of pull request [number] and the registry after the callback
    of [fetchReviews] has run over [pages], starting from no reviews. *)
Definition converted_reviews (env : PullRequestEnv) (repo : Repo.t)
    (number : Z) (users : gmap string User.t) (pages : list (list (GhReview env)))
  : list (PullRequestReview env) * gmap string User.t :=
  foldl (reviews_page env repo number) ([], users) pages.

(** *** The maintainer resolver *)

(** The path list of the maintainer [k] in a maintainer map, empty when
    there is no record. *)
Definition paths_of (maintainers : gmap string Maintainer.t) (k : string)
  : list string :=
  from_option Maintainer.Paths [] (maintainers !! k).

(** The resolution chain of section 4.6.1 finds, for [login], a user of that
    login: in the registry, else in the cache, else at GitHub. *)
Definition resolves (env : MaintEnv) (users : gmap string User.t)
    (login : string) : Prop :=
  match users !! login with
  | Some u => User.UserLogin u = login
  | None =>
      match cache_ReadUser env login with
      | (_, Some _) => False
      | (Some u, None) => User.UserLogin u = login
      | (None, None) =>
          match Users_Get (users_api env) login with
          | inl g => User.UserLogin (ConvertUser (users_api env) g) = login
          | inr _ => False
          end
      end
  end.

(** The paths a list of (login, path) grants gives to [k], in order. *)
Fixpoint granted (entries : list (string * string)) (k : string) : list string :=
  match entries with
  | [] => []
  | (login, p) :: rest =>
      if String.eqb login k then p :: granted rest k else granted rest k
  end.

(** The maintainer map with a record, of empty path list, created for [key]
    when it has none. *)
Definition ensure_record (org : Org.t) (key : string)
    (maintainers : gmap string Maintainer.t) : gmap string Maintainer.t :=
  match maintainers !! key with
  | Some _ => maintainers
  | None => <[key := Maintainer.mk (Org.OrgLogin org) key []]> maintainers
  end.

(** Path normalization: strip a leading [/] and a trailing [/*], a bare [*]
    is the root. *)
Definition spec_owner_path (pattern : string) : string :=
  let p := TrimSuffix (TrimPrefix pattern "/") "/*" in
  if String.eqb p "*" then "" else p.

(** A CODEOWNERS line is skipped when, trimmed of spaces and tabs, it is
    empty or starts with [#]. *)
Definition skipped_line (line : string) : bool :=
  let l := Trim line space_tab in
  String.eqb l "" || HasPrefix l "#".

(** The grants of one CODEOWNERS line: [<path-pattern> <login> ...] gives
    ["<repo>/<path>"] to every login, stripped of its leading [@]. *)
Definition spec_line_entries (repoName : string) (line : string)
  : list (string * string) :=
  if skipped_line line then []
  else
    match Fields (Trim line space_tab) with
    | [] => []
    | pattern :: logins =>
        map (fun login =>
               (TrimPrefix login "@",
                repoName +:+ "/" +:+ spec_owner_path pattern))
            logins
    end.

(** The grants of a CODEOWNERS document, line by line. *)
Definition spec_codeowners_entries (repoName : string) (content : string)
  : list (string * string) :=
  flat_map (spec_line_entries repoName) (Split content newline).

(** A line the parser can take: skipped, or with at least one field. *)
Definition line_ok (line : string) : Prop :=
  skipped_line line = true \/ Fields (Trim line space_tab) <> [].


(** State [st'] is state [st] after the grants [entries]: the registry is
    still keyed by login and resolves what it resolved, and every maintainer
    has its former paths followed by the granted ones. *)
Definition grants (env : MaintEnv) (st : MaintState)
    (entries : list (string * string)) (st' : MaintState) : Prop :=
  keyed_by_login (ms_users st')
  /\ (forall l, resolves env (ms_users st) l -> resolves env (ms_users st') l)
  /\ (forall k, paths_of (ms_maintainers st') k
                = paths_of (ms_maintainers st) k ++ granted entries k).

(** *** Calls and outcomes of the resolver *)

(** No event of the list is a maintainer write. *)
Definition no_write (evs : list MaintEvent) : Prop :=
  Forall (fun e => forall batch, e <> EvWriteAllMaintainers batch) evs.

(** No event of the list is a warning. *)
Definition no_warning (evs : list MaintEvent) : Prop :=
  Forall (fun e => forall f args, e <> EvWarn f args) evs.

(** The calls the resolution of a login can make: cache and GitHub lookups,
    and the warning when both fail. *)
Definition is_resolver_event (e : MaintEvent) : bool :=
  match e with
  | EvCacheReadUser _ | EvGithubUsersGet _ | EvWarn _ _ => true
  | _ => false
  end.

(** Every run of [m] that returns makes only calls that satisfy [P]. *)
Definition emits (P : MaintEvent -> Prop) {A : Type} (m : Resolver A) : Prop :=
  forall st a st' evs, m st = Returns (a, st', evs) -> Forall P evs.



(** The calls [handleOWNERS] can make for a repository: the commit list, the
    tree, the fetch of an entry that passes the test, and the calls of the
    resolution of a login. *)
Definition is_owners_event (repo : Repo.t) (e : MaintEvent) : Prop :=
  is_resolver_event e = true
  \/ e = EvListCommits repo
  \/ (exists sha, e = EvGetTree repo sha)
  \/ (exists path, is_owners_entry path = true
                   /\ e = EvHttpGet (owners_url repo path)).



(** The batches handed to [WriteAllMaintainers] in a list of calls. *)
Fixpoint written_batches (evs : list MaintEvent) : list (list Maintainer.t) :=
  match evs with
  | [] => []
  | EvWriteAllMaintainers batch :: rest => batch :: written_batches rest
  | _ :: rest => written_batches rest
  end.


(** ** Example instances *)

Definition demo_repo : Repo.t := Repo.mk "istio" "istio" 1.

Definition demo_org : Org.t := Org.mk "istio".
Definition demo_api_repo : Repo.t := Repo.mk "istio" "api" 2.

(** A GitHub user directory that knows ["alice"] only. *)
Definition demo_users_api : UsersAPI := {|
  GhUser := User.t;
  Users_Get := fun login =>
    if String.eqb login "alice" then inl (User.mk "alice" "Alice A." "acme")
    else inr (Upstream "404 Not Found");
  ConvertUser := fun u => u
|}.

Definition demo_table : ActivityTable :=
  {[ ("istio", "istio") :=
       BotActivity.mk "istio" "istio" (mkTime 50 0 0) zeroTime zeroTime ]}.

Definition demo_pass : ActivityPass :=
  {| now := mkTime 100 0 0; readFault := None; updateFault := None |}.

Definition demo_pass_update_fails : ActivityPass :=
  {| now := mkTime 100 0 0; readFault := None;
     updateFault := Some (Upstream "spanner: deadline exceeded") |}.

Definition demo_pass_read_fails : ActivityPass :=
  {| now := mkTime 100 0 0;
     readFault := Some (Upstream "spanner: unavailable");
     updateFault := None |}.

(** A fetch+write callback that succeeds and leaves the table alone. *)
Definition demo_cb (_ : Repo.t) (_ : Time) (tbl : ActivityTable)
  : ActivityTable * option error := (tbl, None).

(** A ZenHub that tracks every issue but number 2, over a store holding the
    issues 1, 2 and 3. *)
Definition demo_zenhub : ZenHubEnv := {|
  QueryIssuesByRepo := fun _ _ =>
    inl [Issue.mk "istio" "istio" 1; Issue.mk "istio" "istio" 2;
         Issue.mk "istio" "istio" 3];
  GetIssueData := fun _ n => if n =? 2 then inr ErrNotFound else inl "Backlog";
  WriteIssuePipelines := fun _ => None
|}.

(** A pull-request world: payloads are (number, updated_at), stored records
    (number, updated_at, files). PR 1 and PR 2 are cached as of time 50;
    upstream PR 2 has moved to time 60. *)
Definition demo_pr_env : PullRequestEnv := {|
  GhPullRequest := Z * Time;
  GhReview := string;
  PullRequest := Z * Time * list string;
  PullRequestReview := string;
  GetNumber := fst;
  GetUpdatedAt := snd;
  PullRequestNumber := fun pr => fst (fst pr);
  UpdatedAt := fun pr => snd (fst pr);
  ConvertPullRequest := fun _ _ pr files =>
    ((fst pr, snd pr, files), [User.mk "author" "" ""]);
  ConvertPullRequestReview := fun _ _ _ review =>
    (review, [User.mk "reviewer" "" ""]);
  cache_ReadPullRequest := fun _ _ n => (Some (n, mkTime 50 0 0, []), None);
  fetchPullRequests := fun _ => ([[(1, mkTime 50 0 0); (2, mkTime 60 0 0)]], None);
  fetchReviews := fun _ _ => ([["LGTM"]], None);
  fetchFiles := fun _ _ => ([["pkg/a.go"]], None);
  WritePullRequests := fun _ => None;
  WritePullRequestReviews := fun _ => None
|}.

(** An organization of three repositories: [istio/istio] has a CODEOWNERS
    file, [istio/api] has none and is resolved through its OWNERS files,
    [istio/empty] has neither and no commit either. GitHub knows ["alice"],
    the cache knows ["bob"], ["carol"] and ["dave"]. *)
Definition demo_codeowners : string :=
  Join ["# owners of the tree"; ""; "/a/b/* @alice @bob"; "* @carol"]
       (String newline "").

Definition demo_maint_env : MaintEnv := {|
  users_api := demo_users_api;
  cache_ReadUser := fun login =>
    if String.eqb login "bob" || String.eqb login "carol"
       || String.eqb login "dave"
    then (Some (User.mk login "" ""), None)
    else (None, None);
  RepositoryContent := string;
  GetContents := fun repo =>
    if String.eqb (Repo.RepoName repo) "istio" then inl demo_codeowners
    else inr (Upstream "404 Not Found");
  GetContent := fun fc => inl fc;
  ListCommits := fun repo =>
    if String.eqb (Repo.RepoName repo) "empty"
    then inr (Upstream "409 Git Repository is empty")
    else inl ["0a1b2c"];
  GetTree := fun _ _ => inl ["vendor/OWNERS"; "a/b/OWNERS"];
  http_Get := fun url => Body url;
  yaml_Unmarshal := fun _ => inl (mkOwners ["dave"] ["erin"]);
  WriteAllMaintainers := fun _ => None;
  files_order := map_to_list;
  maintainers_order := map_to_list
|}.

(** ** Further observations of the passes *)

(** The test [flags&mask != 0] of [Sync], [handleOrg] and [handleRepo]. *)
Definition has_flag (flags mask : FilterFlags) : bool :=
  negb (Z.land flags mask =? 0).

(** *** The ZenHub pass *)

(** The batches handed to [WriteIssuePipelines] in a list of calls. *)
Fixpoint written_pipelines (tr : list ZenHubEvent)
  : list (list IssuePipeline.t) :=
  match tr with
  | [] => []
  | EvWriteIssuePipelines batch :: rest => batch :: written_pipelines rest
  | EvGetIssueData _ _ :: rest => written_pipelines rest
  end.

(** The pipeline record of an issue: the repository, the issue number and
    the pipeline name ZenHub answers for it. *)
Definition pipeline_of (env : ZenHubEnv) (repo : Repo.t) (issue : Issue.t)
  : IssuePipeline.t :=
  IssuePipeline.mk (Repo.OrgLogin repo) (Repo.RepoName repo)
    (Issue.IssueNumber issue)
    match GetIssueData env (Repo.RepoNumber repo) (Issue.IssueNumber issue) with
    | inl pipeline => pipeline
    | inr _ => ""
    end.

(** ZenHub tracks the issue. *)
Definition tracked (env : ZenHubEnv) (repo : Repo.t) (issue : Issue.t) : Prop :=
  exists pipeline,
    GetIssueData env (Repo.RepoNumber repo) (Issue.IssueNumber issue)
    = inl pipeline.

(** *** The pull-request pass *)

(** The cached record of the pull request has its [updated_at]. *)
Definition up_to_date (env : PullRequestEnv) (repo : Repo.t)
    (pr : GhPullRequest env) : bool :=
  match fst (cache_ReadPullRequest env (Repo.OrgLogin repo)
               (Repo.RepoName repo) (GetNumber env pr)) with
  | Some existing => bool_decide (UpdatedAt env existing = GetUpdatedAt env pr)
  | None => false
  end.


(** The fetches of reviews and files for a pull request both succeed. *)
Definition fetchable (env : PullRequestEnv) (repo : Repo.t)
    (pr : GhPullRequest env) : Prop :=
  snd (fetchReviews env repo (GetNumber env pr)) = None
  /\ snd (fetchFiles env repo (GetNumber env pr)) = None.




Definition is_pull_request_write {env : PullRequestEnv}
    (e : PullRequestEvent env) : bool :=
  match e with
  | EvWritePullRequests _ | EvWritePullRequestReviews _ => true
  | _ => false
  end.

(** *** The user registry *)

(** The batches handed to [WriteUsers] in a list of calls. *)
Fixpoint written_users (tr : list UsersEvent) : list (list User.t) :=
  match tr with
  | [] => []
  | EvWriteUsers batch :: rest => batch :: written_users rest
  | EvUsersGet _ :: rest => written_users rest
  end.

(** The logins looked up at GitHub in a list of calls. *)
Fixpoint looked_up (tr : list UsersEvent) : list string :=
  match tr with
  | [] => []
  | EvUsersGet login :: rest => login :: looked_up rest
  | EvWriteUsers _ :: rest => looked_up rest
  end.

(** *** Further example instances *)

(** A ZenHub that tracks every issue, over a store of 250 issues. *)
Definition demo_zenhub_tracked : ZenHubEnv := {|
  QueryIssuesByRepo := fun _ _ =>
    inl (map (fun n => Issue.mk "istio" "istio" (Z.of_nat n)) (seq 1 250));
  GetIssueData := fun _ _ => inl "Backlog";
  WriteIssuePipelines := fun _ => None
|}.

(** A ZenHub that tracks the issues 1 to 149 and not issue 150. *)
Definition demo_zenhub_gap : ZenHubEnv := {|
  QueryIssuesByRepo := fun _ _ =>
    inl (map (fun n => Issue.mk "istio" "istio" (Z.of_nat n)) (seq 1 250));
  GetIssueData := fun _ n => if n =? 150 then inr ErrNotFound else inl "Backlog";
  WriteIssuePipelines := fun _ => None
|}.

(** The pull-request world of [demo_pr_env] with a file listing that fails. *)
Definition demo_pr_env_no_files : PullRequestEnv := {|
  GhPullRequest := Z * Time;
  GhReview := string;
  PullRequest := Z * Time * list string;
  PullRequestReview := string;
  GetNumber := fst;
  GetUpdatedAt := snd;
  PullRequestNumber := fun pr => fst (fst pr);
  UpdatedAt := fun pr => snd (fst pr);
  ConvertPullRequest := fun _ _ pr files =>
    ((fst pr, snd pr, files), [User.mk "author" "" ""]);
  ConvertPullRequestReview := fun _ _ _ review =>
    (review, [User.mk "hubot" "" ""]);
  cache_ReadPullRequest := fun _ _ n => (Some (n, mkTime 50 0 0, []), None);
  fetchPullRequests := fun _ => ([[(1, mkTime 50 0 0); (2, mkTime 60 0 0)]], None);
  fetchReviews := fun _ _ => ([["LGTM"]], None);
  fetchFiles := fun _ _ => ([], Some (Upstream "502 Bad Gateway"));
  WritePullRequests := fun _ => None;
  WritePullRequestReviews := fun _ => None
|}.


(** A GitHub user directory that, as GitHub does, takes a login in any
    letter case: asked for ["alice"] or for ["Alice"] it answers with the
    one profile, whose login is ["alice"]. *)
Definition demo_users_api_caseless : UsersAPI := {|
  GhUser := User.t;
  Users_Get := fun login =>
    if String.eqb login "alice" || String.eqb login "Alice"
    then inl (User.mk "alice" "Alice A." "acme")
    else inr (Upstream "404 Not Found");
  ConvertUser := fun u => u
|}.

(** Two stub observations of one account, under two spellings of its
    login. *)
Definition demo_stub_observations : list (list User.t) :=
  [[User.mk "alice" "" ""]; [User.mk "Alice" "" ""]].
(** *** Invariants of the maintainer resolver *)

(** Every run of [m] that starts in a state of [I] and returns ends in a
    state of [I]. *)
Definition preserves (I : MaintState -> Prop) {A : Type} (m : Resolver A)
  : Prop :=
  forall st a st' evs, I st -> m st = Returns (a, st', evs) -> I st'.

(** The path starts with the name of one of the repositories and a [/]. *)
Definition under_repo (names : list string) (p : string) : Prop :=
  exists name, In name names /\ HasPrefix p (name +:+ "/") = true.

(** A maintainer record as [handleMaintainers] keeps it for [org] under the
    key [k], over the repositories [names]. *)
Definition maintainer_ok (org : Org.t) (names : list string) (k : string)
    (m : Maintainer.t) : Prop :=
  Maintainer.UserLogin m = k
  /\ Maintainer.OrgLogin m = Org.OrgLogin org
  /\ Forall (under_repo names) (Maintainer.Paths m).

(** The state of a maintainer pass that started with the registry [users0]:
    every maintainer record is as above, and the registry has only grown. *)
Definition resolver_inv (env : MaintEnv) (org : Org.t) (names : list string)
    (users0 : gmap string User.t) (st : MaintState) : Prop :=
  (forall k m, ms_maintainers st !! k = Some m -> maintainer_ok org names k m)
  /\ (keyed_by_login users0 -> keyed_by_login (ms_users st))
  /\ (forall k, is_Some (users0 !! k) -> is_Some (ms_users st !! k))
  /\ (faithful_lookup (users_api env) -> users0 ⊆ ms_users st).


(** *** What the files of a repository grant *)


(** *** A CODEOWNERS file with CRLF line ends *)

Definition carriage_return : ascii := "013"%char.

(** The lines ["/a/b/* @alice"], a blank one and ["* @carol"], each ended by
    a carriage return and a line feed. *)
Definition demo_codeowners_crlf : string :=
  Join ["/a/b/* @alice"; ""; "* @carol"; ""]
       (String carriage_return (String newline "")).

Definition demo_docs_repo : Repo.t := Repo.mk "istio" "docs" 4.

(** The example organization with one repository more, [istio/docs], whose
    CODEOWNERS file is the one above. *)
Definition demo_maint_env_crlf : MaintEnv := {|
  users_api := demo_users_api;
  cache_ReadUser := cache_ReadUser demo_maint_env;
  RepositoryContent := string;
  GetContents := fun repo =>
    if String.eqb (Repo.RepoName repo) "docs" then inl demo_codeowners_crlf
    else GetContents demo_maint_env repo;
  GetContent := fun fc => inl fc;
  ListCommits := ListCommits demo_maint_env;
  GetTree := GetTree demo_maint_env;
  http_Get := http_Get demo_maint_env;
  yaml_Unmarshal := yaml_Unmarshal demo_maint_env;
  WriteAllMaintainers := fun _ => None;
  files_order := map_to_list;
  maintainers_order := map_to_list
|}.
(** ** The drivers: [Sync], [handleOrg] and [handleRepo]

    The three drivers decide which handler runs and in which order, and stop
    at the first error. A handler or store write they call is a recorded
    [Call]; what the call does to the state of the run (the registry, the
    store, the upstream services) and the error it returns are given by
    [exec], for any state type [W]. *)

(** The method values [handleRepo] hands to [handleActivity]. *)
Inductive ActivityCallback : Type :=
| CbHandleIssues
| CbHandleIssueComments
| CbHandlePullRequestReviewComments.

Inductive Call : Type :=
| CallWriteOrgs (orgs : list Org.t)
| CallWriteRepos (repos : list Repo.t)
| CallHandleLabels (repo : Repo.t)
| CallHandleActivity (repo : Repo.t) (cb : ActivityCallback)
    (getField : ActivityField)
| CallHandleZenHub (repo : Repo.t)
| CallHandlePullRequests (repo : Repo.t)
| CallHandleRepoComments (repo : Repo.t)
| CallHandleEvents (repo : Repo.t)
| CallHandleMembers (org : Org.t)
| CallHandleMaintainers (org : Org.t) (repos : list Repo.t)
| CallPushUsers.

(** A piece of a driver: from a state it panics, or returns the next state,
    the calls made and the error, if any. *)
Definition Step (W : Type) : Type :=
  W -> outcome (W * list Call * option error).

Section Dispatch.
Context {W : Type}.
Variable exec : Call -> W -> outcome (W * option error).

Definition call (c : Call) : Step W :=
  fun w =>
    match exec c w with
    | Panics why => Panics why
    | Returns (w', res) => Returns (w', [c], res)
    end.

(** Falling through to the next statement. *)
Definition proceed : Step W := fun w => Returns (w, [], None).

(** [if err := first; err != nil { return err }] followed by [rest]. *)
Definition and_then (first rest : Step W) : Step W :=
  fun w =>
    match first w with
    | Panics why => Panics why
    | Returns (w1, tr1, Some err) => Returns (w1, tr1, Some err)
    | Returns (w1, tr1, None) =>
        match rest w1 with
        | Panics why => Panics why
        | Returns (w2, tr2, res) => Returns (w2, tr1 ++ tr2, res)
        end
    end.

(** [if b { ... }]. *)
Definition when (b : bool) (s : Step W) : Step W := if b then s else proceed.

(** [for _, x := range xs { if err := body(x); err != nil { return err } }]. *)
Fixpoint for_each {X : Type} (xs : list X) (body : X -> Step W) : Step W :=
  match xs with
  | [] => proceed
  | x :: rest => and_then (body x) (for_each rest body)
  end.

(** [handleRepo]. *)
Definition handleRepo (flags : FilterFlags) (repo : Repo.t) : Step W :=
  and_then (when (has_flag flags Labels) (call (CallHandleLabels repo)))
  (and_then
     (when (has_flag flags Issues)
        (and_then
           (call (CallHandleActivity repo CbHandleIssues FLastIssueSyncStart))
           (call (CallHandleActivity repo CbHandleIssueComments
                    FLastIssueCommentSyncStart))))
  (and_then (when (has_flag flags ZenHub) (call (CallHandleZenHub repo)))
  (and_then
     (when (has_flag flags Prs)
        (and_then
           (call (CallHandlePullRequests repo))
           (call (CallHandleActivity repo CbHandlePullRequestReviewComments
                    FLastPullRequestReviewCommentSyncStart))))
  (and_then
     (when (has_flag flags RepoComments) (call (CallHandleRepoComments repo)))
  (and_then (when (has_flag flags Events) (call (CallHandleEvents repo)))
     proceed))))).

(** [handleOrg]. *)
Definition handleOrg (flags : FilterFlags) (org : Org.t) (repos : list Repo.t)
  : Step W :=
  and_then (for_each repos (handleRepo flags))
  (and_then (when (has_flag flags Members) (call (CallHandleMembers org)))
     proceed).

(** The repositories [Sync] collects in [orgRepos] for an organization. *)
Definition org_repos (repos : list Repo.t) (org : Org.t) : list Repo.t :=
  List.filter (fun repo => String.eqb (Repo.OrgLogin repo) (Org.OrgLogin org))
              repos.

(** [Members|Labels|Issues|Prs|ZenHub|RepoComments|Events]. *)
Definition org_mask : FilterFlags :=
  Z.lor (Z.lor (Z.lor (Z.lor (Z.lor (Z.lor Members Labels) Issues) Prs) ZenHub)
           RepoComments) Events.

(** The body of [for _, org := range orgs] in [Sync]. *)
Definition sync_org (flags : FilterFlags) (repos : list Repo.t) (org : Org.t)
  : Step W :=
  let orgRepos := org_repos repos org in
  and_then (when (has_flag flags org_mask) (handleOrg flags org orgRepos))
  (and_then
     (when (has_flag flags Maintainers)
        (call (CallHandleMaintainers org orgRepos)))
     proceed).

(** [Sync]. Modelled from the spec: [fetchOrgs] and [fetchRepos] (functions
    of the package that are not among the sources at hand) enumerate the
    configured organizations and repositories; [fetched] is what they hand to
    the two callbacks of [Sync], already converted: each organization with
    the repositories the nested [fetchRepos] delivered after it, and the
    error that ended the enumeration, if any. *)
Definition Sync (fetched : list (Org.t * list Repo.t) * option error)
    (flags : FilterFlags) : Step W :=
  match fetched with
  | (_, Some err) => fun w => Returns (w, [], Some err)
  | (got, None) =>
      let orgs := map fst got in
      let repos := concat (map snd got) in
      and_then (call (CallWriteOrgs orgs))
      (and_then (call (CallWriteRepos repos))
      (and_then (for_each orgs (sync_org flags repos))
      (and_then (call CallPushUsers) proceed)))
  end.

(** *** Observations of a driver *)

(** The calls of a list made one after the other from state [w], every call
    but the last returning nil: the state reached and the result of the last
    call (nil for no call). *)
Inductive ran : W -> list Call -> W -> option error -> Prop :=
| ran_nil (w : W) : ran w [] w None
| ran_last (w w' : W) (c : Call) (err : error) :
    exec c w = Returns (w', Some err) -> ran w [c] w' (Some err)
| ran_cons (w w1 w' : W) (c : Call) (tr : list Call) (res : option error) :
    exec c w = Returns (w1, None) -> ran w1 tr w' res ->
    ran w (c :: tr) w' res.

(** Making the calls of a list in order, up to the first that fails. *)
Definition run_calls (calls : list Call) : Step W := for_each calls call.

(** Two pieces of a driver that do the same from every state. *)
Definition same_step (s1 s2 : Step W) : Prop := forall w, s1 w = s2 w.

End Dispatch.

(** The calls [handleRepo] is to make for a repository under [flags]. *)
Definition repo_calls (flags : FilterFlags) (repo : Repo.t) : list Call :=
  (if has_flag flags Labels then [CallHandleLabels repo] else [])
  ++ (if has_flag flags Issues
      then [CallHandleActivity repo CbHandleIssues FLastIssueSyncStart;
            CallHandleActivity repo CbHandleIssueComments
              FLastIssueCommentSyncStart]
      else [])
  ++ (if has_flag flags ZenHub then [CallHandleZenHub repo] else [])
  ++ (if has_flag flags Prs
      then [CallHandlePullRequests repo;
            CallHandleActivity repo CbHandlePullRequestReviewComments
              FLastPullRequestReviewCommentSyncStart]
      else [])
  ++ (if has_flag flags RepoComments then [CallHandleRepoComments repo] else [])
  ++ (if has_flag flags Events then [CallHandleEvents repo] else []).

(** The calls [handleOrg] is to make: those of every repository in turn,
    then the members. *)
Definition org_calls (flags : FilterFlags) (org : Org.t) (repos : list Repo.t)
  : list Call :=
  flat_map (repo_calls flags) repos
  ++ (if has_flag flags Members then [CallHandleMembers org] else []).

(** The calls [Sync] is to make for an organization. *)
Definition sync_org_calls (flags : FilterFlags) (repos : list Repo.t)
    (org : Org.t) : list Call :=
  (if has_flag flags org_mask
   then org_calls flags org (org_repos repos org) else [])
  ++ (if has_flag flags Maintainers
      then [CallHandleMaintainers org (org_repos repos org)] else []).

(** The calls [Sync] is to make over what was fetched. *)
Definition sync_calls (flags : FilterFlags) (got : list (Org.t * list Repo.t))
  : list Call :=
  [CallWriteOrgs (map fst got); CallWriteRepos (concat (map snd got))]
  ++ flat_map (sync_org_calls flags (concat (map snd got))) (map fst got)
  ++ [CallPushUsers].

(** The filter token that stands for the entity kind of a call; the two
    store writes and the flush of the registry have none. *)
Definition call_token (c : Call) : option string :=
  match c with
  | CallWriteOrgs _ | CallWriteRepos _ | CallPushUsers => None
  | CallHandleLabels _ => Some "labels"
  | CallHandleActivity _ CbHandleIssues _ => Some "issues"
  | CallHandleActivity _ CbHandleIssueComments _ => Some "issues"
  | CallHandleActivity _ CbHandlePullRequestReviewComments _ => Some "prs"
  | CallHandleZenHub _ => Some "zenhub"
  | CallHandlePullRequests _ => Some "prs"
  | CallHandleRepoComments _ => Some "repocomments"
  | CallHandleEvents _ => Some "events"
  | CallHandleMembers _ => Some "members"
  | CallHandleMaintainers _ _ => Some "maintainers"
  end.

(** The repository a call is about, for the calls of [handleRepo]. *)
Definition call_repo (c : Call) : option Repo.t :=
  match c with
  | CallHandleLabels repo | CallHandleActivity repo _ _
  | CallHandleZenHub repo | CallHandlePullRequests repo
  | CallHandleRepoComments repo | CallHandleEvents repo => Some repo
  | _ => None
  end.

(** A run in which every call succeeds but the ZenHub pass of [istio/api];
    the state counts the calls. *)
Definition demo_exec (c : Call) (w : nat) : outcome (nat * option error) :=
  match c with
  | CallHandleZenHub repo =>
      if String.eqb (Repo.RepoName repo) "api"
      then Returns (S w, Some (Upstream "zenhub: 503"))
      else Returns (S w, None)
  | _ => Returns (S w, None)
  end.

(** A run in which every call succeeds. *)
Definition demo_exec_ok (c : Call) (w : nat) : outcome (nat * option error) :=
  Returns (S w, None).

Definition demo_fetched : list (Org.t * list Repo.t) * option error :=
  ([(demo_org, [demo_repo; demo_api_repo])], None).

From Stdlib Require DecimalString DecimalNat.

(** ** Paged fetches *)

(** Modelled from the spec: the paging of the fetch functions of the package
    ([fetchIssueComments], [fetchPullRequestReviewComments], ...: functions
    that are not among the sources at hand): the pages are handed one by one
    to the callback; the first error of the callback ends the fetch and is
    its result, otherwise the fetch's own error is. [st] is the state the
    callback works on, the result carries the calls made. *)
Fixpoint fetch_pages {P S E : Type}
    (cb : S -> P -> S * list E * option error)
    (st : S) (pages : list P) (fetch_err : option error)
  : S * list E * option error :=
  match pages with
  | [] => (st, [], fetch_err)
  | page :: rest =>
      match cb st page with
      | (st', tr, Some err) => (st', tr, Some err)
      | (st', tr, None) =>
          let '(st'', tr', res) := fetch_pages cb st' rest fetch_err in
          (st'', tr ++ tr', res)
      end
  end.

(** ** Organization members ([handleMembers]) *)

Module Member.
Record t : Type := mk { OrgLogin : string; UserLogin : string }.
End Member.

(** The collaborators of the pass: the GitHub users with [GetLogin] and
    [gh.ConvertUser], the member listing (the pages it got and the error that
    ended it, if any) and the store's wholesale member write. *)
Record MembersEnv : Type := {
  members_api : UsersAPI;
  GetLogin : GhUser members_api -> string;
  fetchMembers : Org.t -> list (list (GhUser members_api)) * option error;
  WriteAllMembers : list Member.t -> option error
}.

Inductive MembersEvent : Type :=
| EvWriteAllMembers (batch : list Member.t).

(** The callback of [fetchMembers] on one page, over the registry and the
    slice [storageMembers]; it always returns nil. *)
Definition members_page (env : MembersEnv) (org : Org.t)
    (acc : gmap string User.t * list Member.t)
    (members : list (GhUser (members_api env)))
  : gmap string User.t * list Member.t :=
  foldl (fun a member =>
           (addUsers (fst a) [ConvertUser (members_api env) member],
            snd a ++ [Member.mk (Org.OrgLogin org) (GetLogin env member)]))
        acc members.

(** [handleMembers], run with the registry [users]: the registry afterwards,
    the calls made and the error returned. *)
Definition handleMembers (env : MembersEnv) (org : Org.t)
    (users : gmap string User.t)
  : gmap string User.t * list MembersEvent * option error :=
  let '(pages, fetch_err) := fetchMembers env org in
  let '(users', storageMembers) :=
    foldl (members_page env org) (users, []) pages in
  match fetch_err with
  | Some err => (users', [], Some err)
  | None =>
      (users', [EvWriteAllMembers storageMembers],
       WriteAllMembers env storageMembers)
  end.

(** ** [strconv.Atoi] and the number at the end of a URL

    [handleIssueComments] and [handlePullRequestReviewComments] take the
    number of the issue or pull request of a comment from the URL the comment
    carries: [strconv.Atoi(url[strings.LastIndex(url, "/")+1:])], the error
    of [Atoi] being dropped. [Atoi] is the one of the Go standard library on
    a platform whose [int] has 64 bits. *)

(** [strconv.ErrSyntax] and [strconv.ErrRange]. *)
Inductive NumError : Type :=
| ErrSyntax
| ErrRange.

Definition maxUint64 : Z := 2 ^ 64 - 1.

(** [int64(u)] and [-n] on [int64]: the value modulo 2^64 in the signed
    range. *)
Definition wrap64 (x : Z) : Z := (x + 2 ^ 63) mod 2 ^ 64 - 2 ^ 63.

(** The digit loop of [strconv.ParseUint(s, 10, 64)], with the value [n] read
    so far. A byte that is no decimal digit is a syntax error (a letter is a
    digit of a larger base, refused as [d >= base]); [cutoff] is
    [maxUint64/10 + 1]. *)
Fixpoint parse_uint_loop (s : string) (n : Z) : Z * option NumError :=
  match s with
  | EmptyString => (n, None)
  | String c rest =>
      let b := byte_val c in
      if (48 <=? b) && (b <=? 57) then
        let d := b - 48 in
        if maxUint64 / 10 + 1 <=? n then (maxUint64, Some ErrRange)
        else
          let n10 := (n * 10) mod 2 ^ 64 in
          let n1 := (n10 + d) mod 2 ^ 64 in
          if (n1 <? n10) || (maxUint64 <? n1) then (maxUint64, Some ErrRange)
          else parse_uint_loop rest n1
      else (0, Some ErrSyntax)
  end.

(** [strconv.ParseUint(s, 10, 64)]. *)
Definition ParseUint (s : string) : Z * option NumError :=
  match s with
  | EmptyString => (0, Some ErrSyntax)
  | _ => parse_uint_loop s 0
  end.

(** [strconv.ParseInt(s, 10, 0)]. *)
Definition ParseInt (s : string) : Z * option NumError :=
  match s with
  | EmptyString => (0, Some ErrSyntax)
  | String c rest =>
      let neg := Ascii.eqb c "-" in
      let s' := if Ascii.eqb c "+" || neg then rest else s in
      match ParseUint s' with
      | (_, Some ErrSyntax) => (0, Some ErrSyntax)
      | (un, _) =>
          let cutoff := 2 ^ 63 in
          if negb neg && (cutoff <=? un) then (cutoff - 1, Some ErrRange)
          else if neg && (cutoff <? un) then (- cutoff, Some ErrRange)
          else
            let n := wrap64 un in
            (if neg then wrap64 (- n) else n, None)
      end
  end.

(** The digit loop of the fast path of [Atoi]: [ch -= '0'] on a byte, then
    [n = n*10 + int(ch)]; at most 18 digits are read, the value stays below
    10^18. *)
Fixpoint atoi_loop (s : string) (n : Z) : option Z :=
  match s with
  | EmptyString => Some n
  | String c rest =>
      let ch := (byte_val c - 48) mod 256 in
      if 9 <? ch then None else atoi_loop rest (n * 10 + ch)
  end.

(** [strconv.Atoi]: the value and the kind of the error, if any. *)
Definition Atoi (s : string) : Z * option NumError :=
  let sLen := Z.of_nat (String.length s) in
  if (0 <? sLen) && (sLen <? 19) then
    match s with
    | EmptyString => (0, Some ErrSyntax)
    | String c rest =>
        let signed := Ascii.eqb c "-" || Ascii.eqb c "+" in
        let digits := if signed then rest else s in
        if signed && (Z.of_nat (String.length digits) <? 1)
        then (0, Some ErrSyntax)
        else
          match atoi_loop digits 0 with
          | None => (0, Some ErrSyntax)
          | Some n => (if Ascii.eqb c "-" then - n else n, None)
          end
    end
  else ParseInt s.

(** [strings.LastIndex(s, sep)] for a separator of one byte, scanning from
    index [i] with the last index found so far. *)
Fixpoint LastIndex_from (s : string) (sep : ascii) (i found : Z) : Z :=
  match s with
  | EmptyString => found
  | String c rest =>
      LastIndex_from rest sep (i + 1) (if Ascii.eqb c sep then i else found)
  end.

Definition LastIndex (s : string) (sep : ascii) : Z :=
  LastIndex_from s sep 0 (-1).

(** [n, _ := strconv.Atoi(url[strings.LastIndex(url, "/")+1:])]. The index is
    at most the length of [url]: the slice expression does not panic. *)
Definition number_of_url (url : string) : Z :=
  fst (Atoi (drop_bytes (Z.to_nat (LastIndex url slash + 1)) url)).

(** ** Issue comments ([handleIssueComments]) *)

(** The collaborators of the pass: the comment payload with [GetIssueURL],
    [gh.ConvertIssueComment], the paged fetch of the comments since a time
    and the store's write. *)
Record IssueCommentsEnv : Type := {
  GhIssueComment : Type;
  IssueComment : Type;
  GetIssueURL : GhIssueComment -> string;
  ConvertIssueComment :
    string -> string -> Z -> GhIssueComment -> IssueComment * list User.t;
  fetchIssueComments :
    Repo.t -> Time -> list (list GhIssueComment) * option error;
  WriteIssueComments : list IssueComment -> option error
}.

Inductive IssueCommentsEvent (env : IssueCommentsEnv) : Type :=
| EvWriteIssueComments (batch : list (IssueComment env)).
Arguments EvWriteIssueComments {env} batch.

(** The body of [for _, comment := range comments]. *)
Definition issue_comment_step (env : IssueCommentsEnv) (repo : Repo.t)
    (acc : list (IssueComment env) * gmap string User.t)
    (comment : GhIssueComment env)
  : list (IssueComment env) * gmap string User.t :=
  let issueURL := GetIssueURL env comment in
  let issueNumber := number_of_url issueURL in
  let '(t, users) :=
    ConvertIssueComment env (Repo.OrgLogin repo) (Repo.RepoName repo)
      issueNumber comment in
  (fst acc ++ [t], addUsers (snd acc) users).

(** The callback of [fetchIssueComments] on one page. *)
Definition issue_comments_page (env : IssueCommentsEnv) (repo : Repo.t)
    (users : gmap string User.t) (comments : list (GhIssueComment env))
  : gmap string User.t * list (IssueCommentsEvent env) * option error :=
  let '(storageIssueComments, users') :=
    foldl (issue_comment_step env repo) ([], users) comments in
  (users', [EvWriteIssueComments storageIssueComments],
   WriteIssueComments env storageIssueComments).

(** [handleIssueComments], run with the registry [users]. *)
Definition handleIssueComments (env : IssueCommentsEnv) (repo : Repo.t)
    (startTime : Time) (users : gmap string User.t)
  : gmap string User.t * list (IssueCommentsEvent env) * option error :=
  let '(pages, fetch_err) := fetchIssueComments env repo startTime in
  fetch_pages (issue_comments_page env repo) users pages fetch_err.

(** ** Pull-request review comments ([handlePullRequestReviewComments]) *)

Record ReviewCommentsEnv : Type := {
  GhPullRequestComment : Type;
  PullRequestReviewComment : Type;
  GetPullRequestURL : GhPullRequestComment -> string;
  ConvertPullRequestReviewComment :
    string -> string -> Z -> GhPullRequestComment
    -> PullRequestReviewComment * list User.t;
  fetchPullRequestReviewComments :
    Repo.t -> Time -> list (list GhPullRequestComment) * option error;
  WritePullRequestReviewComments : list PullRequestReviewComment -> option error
}.

Inductive ReviewCommentsEvent (env : ReviewCommentsEnv) : Type :=
| EvWritePullRequestReviewComments (batch : list (PullRequestReviewComment env)).
Arguments EvWritePullRequestReviewComments {env} batch.

(** The body of [for _, comment := range comments]. *)
Definition review_comment_step (env : ReviewCommentsEnv) (repo : Repo.t)
    (acc : list (PullRequestReviewComment env) * gmap string User.t)
    (comment : GhPullRequestComment env)
  : list (PullRequestReviewComment env) * gmap string User.t :=
  let prURL := GetPullRequestURL env comment in
  let prNumber := number_of_url prURL in
  let '(t, users) :=
    ConvertPullRequestReviewComment env (Repo.OrgLogin repo)
      (Repo.RepoName repo) prNumber comment in
  (fst acc ++ [t], addUsers (snd acc) users).

(** The callback of [fetchPullRequestReviewComments] on one page. *)
Definition review_comments_page (env : ReviewCommentsEnv) (repo : Repo.t)
    (users : gmap string User.t) (comments : list (GhPullRequestComment env))
  : gmap string User.t * list (ReviewCommentsEvent env) * option error :=
  let '(storagePRComments, users') :=
    foldl (review_comment_step env repo) ([], users) comments in
  (users', [EvWritePullRequestReviewComments storagePRComments],
   WritePullRequestReviewComments env storagePRComments).

(** [handlePullRequestReviewComments], run with the registry [users]. *)
Definition handlePullRequestReviewComments (env : ReviewCommentsEnv)
    (repo : Repo.t) (start : Time) (users : gmap string User.t)
  : gmap string User.t * list (ReviewCommentsEvent env) * option error :=
  let '(pages, fetch_err) := fetchPullRequestReviewComments env repo start in
  fetch_pages (review_comments_page env repo) users pages fetch_err.

(** *** Observations *)

(** The decimal numeral of a natural number, as [strconv.Itoa] prints it. *)
Definition decimal (n : nat) : string :=
  DecimalString.NilEmpty.string_of_uint (Nat.to_uint n).

(** The member records written by a list of calls. *)
Definition written_members (tr : list MembersEvent) : list (list Member.t) :=
  map (fun e => match e with EvWriteAllMembers batch => batch end) tr.

(** *** Example instances *)

(** An organization of two members, listed on two pages. *)
Definition demo_members : MembersEnv := {|
  members_api := demo_users_api;
  GetLogin := User.UserLogin;
  fetchMembers := fun _ =>
    ([[User.mk "alice" "" ""]; [User.mk "bob" "Bob" ""]], None);
  WriteAllMembers := fun _ => None
|}.

(** The member listing fails after its first page. *)
Definition demo_members_cut : MembersEnv := {|
  members_api := demo_users_api;
  GetLogin := User.UserLogin;
  fetchMembers := fun _ =>
    ([[User.mk "alice" "" ""]], Some (Upstream "502 Bad Gateway"));
  WriteAllMembers := fun _ => None
|}.

(** Issue comments as (issue URL, body); the stored record is (issue
    number, body). *)
Definition demo_issue_comments : IssueCommentsEnv := {|
  GhIssueComment := string * string;
  IssueComment := Z * string;
  GetIssueURL := fst;
  ConvertIssueComment := fun _ _ n c => ((n, snd c), [User.mk "author" "" ""]);
  fetchIssueComments := fun _ _ =>
    ([[("https://api.github.com/repos/istio/istio/issues/1234", "LGTM");
       ("https://api.github.com/repos/istio/istio/issues/", "no number")]],
     None);
  WriteIssueComments := fun _ => None
|}.

(** *** Numerals *)

(** The byte occurs in the string. *)
Fixpoint contains_byte (s : string) (c : ascii) : bool :=
  match s with
  | EmptyString => false
  | String x rest => Ascii.eqb x c || contains_byte rest c
  end.

(** Every byte of the string is a decimal digit. *)
Fixpoint all_digits (s : string) : bool :=
  match s with
  | EmptyString => true
  | String c rest =>
      (48 <=? byte_val c) && (byte_val c <=? 57) && all_digits rest
  end.

(** A decimal numeral: an optional sign, then one digit or more. *)
Definition is_numeral (s : string) : bool :=
  match s with
  | EmptyString => false
  | String c rest =>
      let digits := if Ascii.eqb c "-" || Ascii.eqb c "+" then rest else s in
      negb (String.eqb digits "") && all_digits digits
  end.

(** Review comments as (pull-request URL, body); the stored record is (pull
    request number, body). *)
Definition demo_review_comments : ReviewCommentsEnv := {|
  GhPullRequestComment := string * string;
  PullRequestReviewComment := Z * string;
  GetPullRequestURL := fst;
  ConvertPullRequestReviewComment := fun _ _ n c =>
    ((n, snd c), [User.mk "hubot" "" ""]);
  fetchPullRequestReviewComments := fun _ _ =>
    ([[("https://api.github.com/repos/istio/istio/pulls/77", "nit")]], None);
  WritePullRequestReviewComments := fun _ => None
|}.

(** ** Repository events ([handleEvents]) *)

Module IssueEvent.
Record t : Type :=
  mk { OrgLogin : string; RepoName : string; IssueNumber : Z;
       CreatedAt : Time; Actor : string; Action : string }.
End IssueEvent.

Module IssueCommentEvent.
Record t : Type :=
  mk { OrgLogin : string; RepoName : string; IssueNumber : Z;
       IssueCommentID : Z; CreatedAt : Time; Actor : string;
       Action : string }.
End IssueCommentEvent.

(** [storage.PullRequestEvent]. *)
Module PullRequestEventRecord.
Record t : Type :=
  mk { OrgLogin : string; RepoName : string; PullRequestNumber : Z;
       CreatedAt : Time; Actor : string; Action : string }.
End PullRequestEventRecord.

Module PullRequestReviewCommentEvent.
Record t : Type :=
  mk { OrgLogin : string; RepoName : string; PullRequestNumber : Z;
       PullRequestReviewCommentID : Z; CreatedAt : Time; Actor : string;
       Action : string }.
End PullRequestReviewCommentEvent.

Module PullRequestReviewEvent.
Record t : Type :=
  mk { OrgLogin : string; RepoName : string; PullRequestNumber : Z;
       PullRequestReviewID : Z; CreatedAt : Time; Actor : string;
       Action : string }.
End PullRequestReviewEvent.

(** What [event.ParsePayload] hands back: a value of one of the payload
    types of the GitHub client, with what the syncer reads of it through the
    nil-safe getters, or a value of another dynamic type. [IE] is
    [github.IssueEvent], which is also what the issue timeline lists. *)
Inductive Payload (IE : Type) : Type :=
| IssueEventPayload (p : IE)
| IssueCommentEventPayload (issueNumber commentID : Z) (action : string)
| PullRequestEventPayload (pullRequestNumber : Z) (action : string)
| PullRequestReviewCommentEventPayload (pullRequestNumber commentID : Z)
    (action : string)
| PullRequestReviewEventPayload (pullRequestNumber reviewID : Z)
    (action : string)
| OtherPayload.
Arguments IssueEventPayload {IE} p.
Arguments IssueCommentEventPayload {IE} issueNumber commentID action.
Arguments PullRequestEventPayload {IE} pullRequestNumber action.
Arguments PullRequestReviewCommentEventPayload {IE} pullRequestNumber
  commentID action.
Arguments PullRequestReviewEventPayload {IE} pullRequestNumber reviewID action.
Arguments OtherPayload {IE}.

(** The collaborators of the pass: the events of the GitHub client with the
    field [Type] (a pointer, [None] for nil), the getters the syncer uses and
    [ParsePayload]; the two paged listings (the pages they got and the error
    that ended them, if any) and the five event writes of the store. *)
Record EventsEnv : Type := {
  GhEvent : Type;
  GhIssueEvent : Type;
  event_Type : GhEvent -> option string;
  event_CreatedAt : GhEvent -> Time;
  event_Actor : GhEvent -> string;
  ParsePayload : GhEvent -> Payload GhIssueEvent + error;
  issue_event_Number : GhIssueEvent -> Z;
  issue_event_CreatedAt : GhIssueEvent -> Time;
  issue_event_Actor : GhIssueEvent -> string;
  issue_event_Event : GhIssueEvent -> string;
  fetchRepoEvents : Repo.t -> list (list GhEvent) * option error;
  fetchIssueEvents : Repo.t -> list (list GhIssueEvent) * option error;
  WriteIssueEvents : list IssueEvent.t -> option error;
  WriteIssueCommentEvents : list IssueCommentEvent.t -> option error;
  WritePullRequestEvents : list PullRequestEventRecord.t -> option error;
  WritePullRequestReviewCommentEvents :
    list PullRequestReviewCommentEvent.t -> option error;
  WritePullRequestReviewEvents : list PullRequestReviewEvent.t -> option error
}.

Inductive EventsEvent : Type :=
| EvErrorf (format : string) (args : list fmtarg)
| EvWriteIssueEvents (batch : list IssueEvent.t)
| EvWriteIssueCommentEvents (batch : list IssueCommentEvent.t)
| EvWritePullRequestEvents (batch : list PullRequestEventRecord.t)
| EvWritePullRequestReviewCommentEvents
    (batch : list PullRequestReviewCommentEvent.t)
| EvWritePullRequestReviewEvents (batch : list PullRequestReviewEvent.t).

(** The five slices of one invocation of the page callback, and the error
    lines logged so far. *)
Record EventsAcc : Type := mkEvents {
  issueEvents : list IssueEvent.t;
  issueCommentEvents : list IssueCommentEvent.t;
  prEvents : list PullRequestEventRecord.t;
  prCommentEvents : list PullRequestReviewCommentEvent.t;
  prReviewEvents : list PullRequestReviewEvent.t;
  events_log : list EventsEvent
}.

(** [scope.Errorf(format, err); continue]. *)
Definition skip_event (acc : EventsAcc) (format : string) (err : error)
  : EventsAcc :=
  mkEvents (issueEvents acc) (issueCommentEvents acc) (prEvents acc)
    (prCommentEvents acc) (prReviewEvents acc)
    (events_log acc ++ [EvErrorf format [AErr err]]).

(** A type assertion of the payload on a value of another dynamic type. *)
Definition bad_assertion {A : Type} : outcome A :=
  Panics "interface conversion".

(** The body of [for _, event := range events]: the [switch *event.Type].
    Dereferencing a nil [Type] panics; so does the type assertion on a
    payload of another type than the one of the case. *)
Definition event_step (env : EventsEnv) (repo : Repo.t) (acc : EventsAcc)
    (event : GhEvent env) : outcome EventsAcc :=
  let org := Repo.OrgLogin repo in
  let name := Repo.RepoName repo in
  let at_ := event_CreatedAt env event in
  let actor := event_Actor env event in
  match event_Type env event with
  | None => Panics "invalid memory address or nil pointer dereference"
  | Some ty =>
      if String.eqb ty "IssueEvent" then
        match ParsePayload env event with
        | inr err =>
            Returns (skip_event acc
                       "unable to parse payload for issue event: %v" err)
        | inl (IssueEventPayload p) =>
            Returns
              (mkEvents
                 (issueEvents acc ++
                  [IssueEvent.mk org name (issue_event_Number env p) at_ actor
                     (issue_event_Event env p)])
                 (issueCommentEvents acc) (prEvents acc) (prCommentEvents acc)
                 (prReviewEvents acc) (events_log acc))
        | inl _ => bad_assertion
        end
      else if String.eqb ty "IssueCommentEvent" then
        match ParsePayload env event with
        | inr err =>
            Returns (skip_event acc
                       "unable to parse payload for issue comment event: %v"
                       err)
        | inl (IssueCommentEventPayload n id action) =>
            Returns
              (mkEvents (issueEvents acc)
                 (issueCommentEvents acc ++
                  [IssueCommentEvent.mk org name n id at_ actor action])
                 (prEvents acc) (prCommentEvents acc) (prReviewEvents acc)
                 (events_log acc))
        | inl _ => bad_assertion
        end
      else if String.eqb ty "PullRequestEvent" then
        match ParsePayload env event with
        | inr err =>
            Returns (skip_event acc
                       "unable to parse payload for pull request event: %v"
                       err)
        | inl (PullRequestEventPayload n action) =>
            Returns
              (mkEvents (issueEvents acc) (issueCommentEvents acc)
                 (prEvents acc ++
                  [PullRequestEventRecord.mk org name n at_ actor action])
                 (prCommentEvents acc) (prReviewEvents acc) (events_log acc))
        | inl _ => bad_assertion
        end
      else if String.eqb ty "PullRequestCommentEvent" then
        match ParsePayload env event with
        | inr err =>
            Returns (skip_event acc
              "unable to parse payload for pull request review comment event: %v"
              err)
        | inl (PullRequestReviewCommentEventPayload n id action) =>
            Returns
              (mkEvents (issueEvents acc) (issueCommentEvents acc)
                 (prEvents acc)
                 (prCommentEvents acc ++
                  [PullRequestReviewCommentEvent.mk org name n id at_ actor
                     action])
                 (prReviewEvents acc) (events_log acc))
        | inl _ => bad_assertion
        end
      else if String.eqb ty "PullRequestReviewEvent" then
        match ParsePayload env event with
        | inr err =>
            Returns (skip_event acc
              "unable to parse payload for pull request review event: %v" err)
        | inl (PullRequestReviewEventPayload n id action) =>
            Returns
              (mkEvents (issueEvents acc) (issueCommentEvents acc)
                 (prEvents acc) (prCommentEvents acc)
                 (prReviewEvents acc ++
                  [PullRequestReviewEvent.mk org name n id at_ actor action])
                 (events_log acc))
        | inl _ => bad_assertion
        end
      else Returns acc
  end.

Fixpoint events_loop (env : EventsEnv) (repo : Repo.t) (acc : EventsAcc)
    (events : list (GhEvent env)) : outcome EventsAcc :=
  match events with
  | [] => Returns acc
  | event :: rest =>
      match event_step env repo acc event with
      | Panics why => Panics why
      | Returns acc' => events_loop env repo acc' rest
      end
  end.

(** [if len(batch) > 0 { if err := write(batch); err != nil { return
    fmt.Errorf(format, err) } }], followed by [rest]. *)
Definition write_batch {X : Type} (batch : list X)
    (ev : list X -> EventsEvent) (write : list X -> option error)
    (format : string) (rest : list EventsEvent * option error)
  : list EventsEvent * option error :=
  match batch with
  | [] => rest
  | _ :: _ =>
      match write batch with
      | Some err => ([ev batch], Some (Errorf format [AErr err]))
      | None => (ev batch :: fst rest, snd rest)
      end
  end.

(** The five writes that end the page callback. *)
Definition events_writes (env : EventsEnv) (acc : EventsAcc)
  : list EventsEvent * option error :=
  write_batch (issueEvents acc) EvWriteIssueEvents (WriteIssueEvents env)
    "unable to write issue events to storage: %v"
  (write_batch (issueCommentEvents acc) EvWriteIssueCommentEvents
     (WriteIssueCommentEvents env)
     "unable to write issue comment events to storage: %v"
  (write_batch (prEvents acc) EvWritePullRequestEvents
     (WritePullRequestEvents env)
     "unable to write pull request events to storage: %v"
  (write_batch (prCommentEvents acc) EvWritePullRequestReviewCommentEvents
     (WritePullRequestReviewCommentEvents env)
     "unable to write pull request review comment events to storage: %v"
  (write_batch (prReviewEvents acc) EvWritePullRequestReviewEvents
     (WritePullRequestReviewEvents env)
     "unable to write pull request review events to storage: %v"
     ([], None))))).

(** The callback of [fetchRepoEvents] on one page: the lines logged and the
    writes made, and the error returned. *)
Definition events_page (env : EventsEnv) (repo : Repo.t)
    (events : list (GhEvent env)) : outcome (list EventsEvent * option error) :=
  match events_loop env repo (mkEvents [] [] [] [] [] []) events with
  | Panics why => Panics why
  | Returns acc =>
      let '(tr, res) := events_writes env acc in
      Returns (events_log acc ++ tr, res)
  end.

(** Modelled from the spec: the paging of [fetchRepoEvents] (a function of
    the package that is not among the sources at hand), as in [fetch_pages],
    for a callback that can panic. *)
Fixpoint repo_event_pages (env : EventsEnv) (repo : Repo.t)
    (pages : list (list (GhEvent env))) (fetch_err : option error)
  : outcome (list EventsEvent * option error) :=
  match pages with
  | [] => Returns ([], fetch_err)
  | events :: rest =>
      match events_page env repo events with
      | Panics why => Panics why
      | Returns (tr, Some err) => Returns (tr, Some err)
      | Returns (tr, None) =>
          match repo_event_pages env repo rest fetch_err with
          | Panics why => Panics why
          | Returns (tr', res) => Returns (tr ++ tr', res)
          end
      end
  end.

(** The record of an event of the issue timeline. *)
Definition issue_event_record (env : EventsEnv) (repo : Repo.t)
    (event : GhIssueEvent env) : IssueEvent.t :=
  IssueEvent.mk (Repo.OrgLogin repo) (Repo.RepoName repo)
    (issue_event_Number env event) (issue_event_CreatedAt env event)
    (issue_event_Actor env event) (issue_event_Event env event).

(** The callback of [fetchIssueEvents] on one page. *)
Definition issue_events_page (env : EventsEnv) (repo : Repo.t) (_ : unit)
    (events : list (GhIssueEvent env))
  : unit * list EventsEvent * option error :=
  let '(tr, res) :=
    write_batch (map (issue_event_record env repo) events) EvWriteIssueEvents
      (WriteIssueEvents env) "unable to write issue events to storage: %v"
      ([], None) in
  (tt, tr, res).

(** [handleEvents]: the lines logged and the writes made, in order, and the
    error returned. *)
Definition handleEvents (env : EventsEnv) (repo : Repo.t)
  : outcome (list EventsEvent * option error) :=
  let '(pages, fetch_err) := fetchRepoEvents env repo in
  match repo_event_pages env repo pages fetch_err with
  | Panics why => Panics why
  | Returns (tr, Some err) => Returns (tr, Some err)
  | Returns (tr, None) =>
      let '(issue_pages, issue_err) := fetchIssueEvents env repo in
      let '(_, tr', res) :=
        fetch_pages (issue_events_page env repo) tt issue_pages issue_err in
      Returns (tr ++ tr', res)
  end.

(** *** Observations *)

(** The type strings the [switch] of [handleEvents] has a case for. *)
Definition recognized (ty : string) : bool :=
  existsb (String.eqb ty)
    ["IssueEvent"; "IssueCommentEvent"; "PullRequestEvent";
     "PullRequestCommentEvent"; "PullRequestReviewEvent"].

(** An event whose type the [switch] has no case for. *)
Definition unrecognized (env : EventsEnv) (event : GhEvent env) : bool :=
  match event_Type env event with
  | Some ty => negb (recognized ty)
  | None => false
  end.

(** An event of a recognized type whose payload does not parse. *)
Definition unparsable (env : EventsEnv) (event : GhEvent env) : bool :=
  match event_Type env event, ParsePayload env event with
  | Some ty, inr _ => recognized ty
  | _, _ => false
  end.

(** The rank of the store a write goes to, in the order of the five writes
    of the callback, and the number of records written; an error line is no
    write. *)
Definition write_rank (e : EventsEvent) : option nat :=
  match e with
  | EvErrorf _ _ => None
  | EvWriteIssueEvents _ => Some 1%nat
  | EvWriteIssueCommentEvents _ => Some 2%nat
  | EvWritePullRequestEvents _ => Some 3%nat
  | EvWritePullRequestReviewCommentEvents _ => Some 4%nat
  | EvWritePullRequestReviewEvents _ => Some 5%nat
  end.

Definition write_size (e : EventsEvent) : option nat :=
  match e with
  | EvErrorf _ _ => None
  | EvWriteIssueEvents batch => Some (length batch)
  | EvWriteIssueCommentEvents batch => Some (length batch)
  | EvWritePullRequestEvents batch => Some (length batch)
  | EvWritePullRequestReviewCommentEvents batch => Some (length batch)
  | EvWritePullRequestReviewEvents batch => Some (length batch)
  end.

(** The issue-event batches written by a list of calls. *)
Fixpoint written_issue_events (tr : list EventsEvent)
  : list (list IssueEvent.t) :=
  match tr with
  | [] => []
  | EvWriteIssueEvents batch :: rest => batch :: written_issue_events rest
  | _ :: rest => written_issue_events rest
  end.

(** The writes of a list of calls, without the error lines. *)
Definition writes_of (tr : list EventsEvent) : list EventsEvent :=
  List.filter (fun e => match write_rank e with Some _ => true | None => false end)
              tr.

(** The answer of the store to a write of the trace, [None] for nil; an
    error line is no call of the store. *)
Definition write_answer (env : EventsEnv) (e : EventsEvent) : option error :=
  match e with
  | EvErrorf _ _ => None
  | EvWriteIssueEvents batch => WriteIssueEvents env batch
  | EvWriteIssueCommentEvents batch => WriteIssueCommentEvents env batch
  | EvWritePullRequestEvents batch => WritePullRequestEvents env batch
  | EvWritePullRequestReviewCommentEvents batch =>
      WritePullRequestReviewCommentEvents env batch
  | EvWritePullRequestReviewEvents batch =>
      WritePullRequestReviewEvents env batch
  end.

(** The message [handleEvents] wraps the error of a write in. *)
Definition write_format (e : EventsEvent) : string :=
  match e with
  | EvErrorf format _ => format
  | EvWriteIssueEvents _ => "unable to write issue events to storage: %v"
  | EvWriteIssueCommentEvents _ =>
      "unable to write issue comment events to storage: %v"
  | EvWritePullRequestEvents _ =>
      "unable to write pull request events to storage: %v"
  | EvWritePullRequestReviewCommentEvents _ =>
      "unable to write pull request review comment events to storage: %v"
  | EvWritePullRequestReviewEvents _ =>
      "unable to write pull request review events to storage: %v"
  end.

(** How a trace and a result hang together: with a nil result the store
    accepted every write of the trace; an error is the error the store gave
    to the last call of the trace, wrapped in the message of that write, and
    the store accepted every write before it. *)
Definition result_of_writes (answer : EventsEvent -> option error)
    (out : list EventsEvent * option error) : Prop :=
  match snd out with
  | None => Forall (fun e => answer e = None) (fst out)
  | Some err =>
      exists tr0 e cause,
        fst out = tr0 ++ [e]
        /\ Forall (fun e' => answer e' = None) tr0
        /\ answer e = Some cause
        /\ err = Errorf (write_format e) [AErr cause]
  end.

(** What a sequence of guarded writes leaves: writes to stores of the ranks
    [ranks], in that order and at most one per store, none of an empty
    slice, with the result of the writes. *)
Definition writes_shaped (answer : EventsEvent -> option error)
    (ranks : list nat) (out : list EventsEvent * option error) : Prop :=
  omap write_rank (fst out) `sublist_of` ranks
  /\ Forall (fun e => write_size e <> Some 0%nat /\ write_size e <> None)
            (fst out)
  /\ result_of_writes answer out.

(** The batches [handleEvents] writes for the pages of the issue timeline:
    the records of each page that is not empty. *)
Definition timeline_batches (env : EventsEnv) (repo : Repo.t)
    (pages : list (list (GhIssueEvent env))) : list (list IssueEvent.t) :=
  List.filter (fun batch => match batch with [] => false | _ :: _ => true end)
              (map (map (issue_event_record env repo)) pages).

(** *** Example instances *)

(** The payload parser of the examples. As [ParsePayload] of the GitHub
    client, it goes by the type string of the event: it knows the types
    GitHub sends, of which the [switch] of [handleEvents] names
    ["IssueCommentEvent"], ["PullRequestEvent"] and
    ["PullRequestReviewEvent"], and for any other type string it hands back
    the decoded document as a value of no payload type; a document that does
    not decode is an error. Events are (type, document), the document being
    (number, id, action). *)
Definition demo_ParsePayload (e : string * option (Z * Z * string))
  : Payload (Z * string) + error :=
  match snd e with
  | None => inr (Upstream "unexpected end of JSON input")
  | Some (n, id, action) =>
      inl (if String.eqb (fst e) "IssueCommentEvent"
           then IssueCommentEventPayload n id action
           else if String.eqb (fst e) "PullRequestEvent"
           then PullRequestEventPayload n action
           else if String.eqb (fst e) "PullRequestReviewCommentEvent"
           then PullRequestReviewCommentEventPayload n id action
           else if String.eqb (fst e) "PullRequestReviewEvent"
           then PullRequestReviewEventPayload n id action
           else OtherPayload)
  end.

(** A page of repository events: a comment on issue 12, a star, a pull
    request event whose document is cut short, the opening of pull request
    7 and a review of it. *)
Definition demo_event_page : list (string * option (Z * Z * string)) :=
  [("IssueCommentEvent", Some (12, 501, "created"));
   ("WatchEvent", Some (0, 0, "started"));
   ("PullRequestEvent", None);
   ("PullRequestEvent", Some (7, 0, "opened"));
   ("PullRequestReviewEvent", Some (7, 901, "submitted"))].

(** Issue events of the timeline are (issue number, event name); the
    timeline comes in three pages, the second of them empty. *)
Definition demo_events : EventsEnv := {|
  GhEvent := string * option (Z * Z * string);
  GhIssueEvent := Z * string;
  event_Type := fun e => Some (fst e);
  event_CreatedAt := fun _ => mkTime 7 0 0;
  event_Actor := fun _ => "alice";
  ParsePayload := demo_ParsePayload;
  issue_event_Number := fst;
  issue_event_CreatedAt := fun _ => mkTime 8 0 0;
  issue_event_Actor := fun _ => "bob";
  issue_event_Event := snd;
  fetchRepoEvents := fun _ => ([demo_event_page], None);
  fetchIssueEvents := fun _ =>
    ([[(12, "labeled"); (13, "closed")]; []; [(14, "reopened")]], None);
  WriteIssueEvents := fun _ => None;
  WriteIssueCommentEvents := fun _ => None;
  WritePullRequestEvents := fun _ => None;
  WritePullRequestReviewCommentEvents := fun _ => None;
  WritePullRequestReviewEvents := fun _ => None
|}.

(** The same, over a store that refuses pull request events. *)
Definition demo_events_refused : EventsEnv := {|
  GhEvent := string * option (Z * Z * string);
  GhIssueEvent := Z * string;
  event_Type := fun e => Some (fst e);
  event_CreatedAt := fun _ => mkTime 7 0 0;
  event_Actor := fun _ => "alice";
  ParsePayload := demo_ParsePayload;
  issue_event_Number := fst;
  issue_event_CreatedAt := fun _ => mkTime 8 0 0;
  issue_event_Actor := fun _ => "bob";
  issue_event_Event := snd;
  fetchRepoEvents := fun _ => ([demo_event_page], None);
  fetchIssueEvents := fun _ =>
    ([[(12, "labeled"); (13, "closed")]; []; [(14, "reopened")]], None);
  WriteIssueEvents := fun _ => None;
  WriteIssueCommentEvents := fun _ => None;
  WritePullRequestEvents := fun _ => Some (Upstream "spanner: unavailable");
  WritePullRequestReviewCommentEvents := fun _ => None;
  WritePullRequestReviewEvents := fun _ => None
|}.

(** *** What one event does *)

(** What the body of the loop does with an event, whatever the slices hold:
    it panics, leaves everything alone, logs an error line, or appends one
    record to one of the five slices. *)
Inductive EventEffect : Type :=
| EffPanic (why : string)
| EffNone
| EffSkip (format : string) (err : error)
| EffIssueEvent (r : IssueEvent.t)
| EffIssueCommentEvent (r : IssueCommentEvent.t)
| EffPullRequestEvent (r : PullRequestEventRecord.t)
| EffPullRequestReviewCommentEvent (r : PullRequestReviewCommentEvent.t)
| EffPullRequestReviewEvent (r : PullRequestReviewEvent.t).

Definition apply_effect (eff : EventEffect) (acc : EventsAcc)
  : outcome EventsAcc :=
  match eff with
  | EffPanic why => Panics why
  | EffNone => Returns acc
  | EffSkip format err => Returns (skip_event acc format err)
  | EffIssueEvent r =>
      Returns (mkEvents (issueEvents acc ++ [r]) (issueCommentEvents acc)
                 (prEvents acc) (prCommentEvents acc) (prReviewEvents acc)
                 (events_log acc))
  | EffIssueCommentEvent r =>
      Returns (mkEvents (issueEvents acc) (issueCommentEvents acc ++ [r])
                 (prEvents acc) (prCommentEvents acc) (prReviewEvents acc)
                 (events_log acc))
  | EffPullRequestEvent r =>
      Returns (mkEvents (issueEvents acc) (issueCommentEvents acc)
                 (prEvents acc ++ [r]) (prCommentEvents acc)
                 (prReviewEvents acc) (events_log acc))
  | EffPullRequestReviewCommentEvent r =>
      Returns (mkEvents (issueEvents acc) (issueCommentEvents acc)
                 (prEvents acc) (prCommentEvents acc ++ [r])
                 (prReviewEvents acc) (events_log acc))
  | EffPullRequestReviewEvent r =>
      Returns (mkEvents (issueEvents acc) (issueCommentEvents acc)
                 (prEvents acc) (prCommentEvents acc)
                 (prReviewEvents acc ++ [r]) (events_log acc))
  end.

(** The effect of an event, read off [event_step] on empty slices. *)
Definition event_effect (env : EventsEnv) (repo : Repo.t)
    (event : GhEvent env) : EventEffect :=
  match event_step env repo (mkEvents [] [] [] [] [] []) event with
  | Panics why => EffPanic why
  | Returns (mkEvents [r] [] [] [] [] []) => EffIssueEvent r
  | Returns (mkEvents [] [r] [] [] [] []) => EffIssueCommentEvent r
  | Returns (mkEvents [] [] [r] [] [] []) => EffPullRequestEvent r
  | Returns (mkEvents [] [] [] [r] [] []) => EffPullRequestReviewCommentEvent r
  | Returns (mkEvents [] [] [] [] [r] []) => EffPullRequestReviewEvent r
  | Returns (mkEvents [] [] [] [] [] [EvErrorf format [AErr err]]) =>
      EffSkip format err
  | Returns _ => EffNone
  end.

(* ===================================================================== *)
(** * Part II. Properties                                                 *)
(* ===================================================================== *)

(** ** Filter flags *)

Lemma filter_case_token (t : string) :
  is_filter_token t = true -> filter_case t = Some (token_flag t).
Proof.
  unfold is_filter_token, filter_case, token_flag, filter_tokens; simpl.
  repeat (destruct (String.eqb t _); [reflexivity |]).
  simpl; intros H; discriminate H.
Qed.

Lemma filter_case_unknown (t : string) :
  is_filter_token t = false -> filter_case t = None.
Proof.
  unfold is_filter_token, filter_case, filter_tokens; simpl.
  repeat (destruct (String.eqb t _); [intros H; discriminate H |]).
  reflexivity.
Qed.

Lemma is_filter_token_no_comma (t : string) :
  is_filter_token t = true -> Split t comma = [t].
Proof.
  unfold is_filter_token. intros H.
  apply existsb_exists in H as (kv & Hin & Heq).
  apply String.eqb_eq in Heq. subst t.
  unfold filter_tokens in Hin. simpl in Hin.
  repeat (destruct Hin as [<- | Hin]; [reflexivity |]).
  destruct Hin.
Qed.

Lemma is_filter_token_nonempty (t : string) :
  is_filter_token t = true -> t <> "".
Proof. intros H ->. discriminate H. Qed.

(** Splitting glues back what a separator-free head and a separator hide. *)
Lemma Split_append_sep (s1 s2 : string) (sep : ascii) :
  Split s1 sep = [s1] ->
  Split (s1 +:+ String sep s2) sep = s1 :: Split s2 sep.
Proof.
  induction s1 as [| c s1 IH]; intros H.
  - simpl. rewrite Ascii.eqb_refl. reflexivity.
  - simpl in H |- *. destruct (Ascii.eqb c sep); [discriminate |].
    destruct (Split s1 sep) as [| w ws] eqn:E.
    + destruct s1; simpl in E; [discriminate |].
      destruct (Ascii.eqb a sep); [discriminate |].
      destruct (Split s1 sep); discriminate.
    + injection H as -> ->. rewrite IH by reflexivity. reflexivity.
Qed.

Lemma Split_Join (tokens : list string) (sep : ascii) :
  tokens <> [] ->
  Forall (fun t => Split t sep = [t]) tokens ->
  Split (Join tokens (String sep "")) sep = tokens.
Proof.
  induction tokens as [| t rest IH]; [congruence |].
  intros _ Hall. inversion Hall as [| ? ? Ht Hrest]; subst.
  destruct rest as [| t' rest'].
  - simpl. exact Ht.
  - change (Join (t :: t' :: rest') (String sep ""))
      with (t +:+ String sep "" +:+ Join (t' :: rest') (String sep "")).
    change (String sep "" +:+ Join (t' :: rest') (String sep ""))
      with (String sep (Join (t' :: rest') (String sep ""))).
    rewrite Split_append_sep by exact Ht.
    rewrite IH; [reflexivity | congruence | exact Hrest].
Qed.

Lemma conv_loop_tokens (tokens : list string) (acc : FilterFlags) :
  forallb is_filter_token tokens = true ->
  conv_loop tokens acc = (Z.lor acc (or_of_flags tokens), None).
Proof.
  revert acc. induction tokens as [| t rest IH]; intros acc H; simpl.
  - rewrite Z.lor_0_r. reflexivity.
  - simpl in H. apply andb_prop in H as [Ht Hrest].
    rewrite (filter_case_token t Ht), (IH _ Hrest).
    rewrite Z.lor_assoc. reflexivity.
Qed.

Lemma conv_loop_unknown (tokens : list string) (acc : FilterFlags) :
  forallb is_filter_token tokens = false ->
  exists pre f post,
    tokens = pre ++ f :: post /\
    forallb is_filter_token pre = true /\
    is_filter_token f = false /\
    conv_loop tokens acc = (0, Some (Errorf "unknown filter flag %s" [AStr f])).
Proof.
  revert acc. induction tokens as [| t rest IH]; intros acc H; simpl in H.
  - discriminate.
  - destruct (is_filter_token t) eqn:Ht; simpl in H.
    + destruct (IH (Z.lor acc (token_flag t)) H)
        as (pre & f & post & -> & Hpre & Hf & Hres).
      exists (t :: pre), f, post. repeat split; [| exact Hf |].
      * simpl. rewrite Ht. exact Hpre.
      * simpl. rewrite (filter_case_token t Ht). exact Hres.
    + exists [], t, rest. repeat split; [exact Ht |].
      simpl. rewrite (filter_case_unknown t Ht). reflexivity.
Qed.

Lemma Join_tokens_nonempty (tokens : list string) :
  tokens <> [] -> forallb is_filter_token tokens = true ->
  Join tokens "," <> "".
Proof.
  destruct tokens as [| t rest]; [congruence |].
  intros _ H. simpl in H. apply andb_prop in H as [Ht _].
  apply is_filter_token_nonempty in Ht.
  destruct t; [congruence |]. destruct rest; simpl; discriminate.
Qed.

(** C4. [ConvFilterFlags] on a string of valid comma-separated tokens gives,
    with a nil error, the bitwise OR of the flag constants of the tokens; on
    the empty string it gives the OR of all eight flags; on a non-empty
    string with an unrecognized token it gives the zero flags and an error
    (naming the first such token), never a partial flag set. *)
Theorem ConvFilterFlags_spec :
  (forall tokens : list string,
      tokens <> [] -> forallb is_filter_token tokens = true ->
      ConvFilterFlags (Join tokens ",") = (or_of_flags tokens, None))
  /\ ConvFilterFlags "" =
       (Z.lor Issues (Z.lor Prs (Z.lor Maintainers (Z.lor Members
          (Z.lor Labels (Z.lor ZenHub (Z.lor RepoComments Events)))))), None)
  /\ (forall filter : string,
        filter <> "" ->
        forallb is_filter_token (Split filter comma) = false ->
        exists pre f post,
          Split filter comma = pre ++ f :: post /\
          forallb is_filter_token pre = true /\
          is_filter_token f = false /\
          ConvFilterFlags filter =
            (0, Some (Errorf "unknown filter flag %s" [AStr f]))).
Proof.
  split; [| split].
  - intros tokens Hne Hall. unfold ConvFilterFlags.
    destruct (String.eqb_spec (Join tokens ",") "") as [E | _].
    + exfalso. exact (Join_tokens_nonempty tokens Hne Hall E).
    + unfold comma. rewrite Split_Join; [| exact Hne |].
      * rewrite conv_loop_tokens by exact Hall. reflexivity.
      * apply Forall_forall. intros t Ht. apply is_filter_token_no_comma.
        rewrite forallb_forall in Hall. apply Hall.
        apply list_elem_of_In. exact Ht.
  - reflexivity.
  - intros filter Hne Hbad. unfold ConvFilterFlags.
    destruct (String.eqb_spec filter "") as [E | _]; [congruence |].
    apply conv_loop_unknown. exact Hbad.
Qed.

(** Witness of C4: ["issues,prs"] parses to [Issues | Prs], and
    ["issues,bogus"] is refused with the zero flags. *)
Lemma ConvFilterFlags_spec_witness :
  ConvFilterFlags "issues,prs" = (3, None)
  /\ fst (ConvFilterFlags "issues,bogus") = 0.
Proof.
  destruct ConvFilterFlags_spec as (Hok & _ & Hbad). split.
  - exact (Hok ["issues"; "prs"] ltac:(discriminate) eq_refl).
  - destruct (Hbad "issues,bogus" ltac:(discriminate) eq_refl)
      as (pre & f & post & _ & _ & _ & ->).
    reflexivity.
Defined.

(** ** The user registry *)

Lemma addUsers_cons (users : gmap string User.t) (u : User.t) (us : list User.t) :
  addUsers users (u :: us) = addUsers (<[User.UserLogin u := u]> users) us.
Proof. reflexivity. Qed.

Lemma addUsers_app (users : gmap string User.t) (us vs : list User.t) :
  addUsers users (us ++ vs) = addUsers (addUsers users us) vs.
Proof. unfold addUsers. apply foldl_app. Qed.

Lemma addUsers_calls (users : gmap string User.t) (calls : list (list User.t)) :
  foldl addUsers users calls = addUsers users (concat calls).
Proof.
  revert users. induction calls as [| us calls IH]; intros users; simpl.
  - reflexivity.
  - rewrite IH, addUsers_app. reflexivity.
Qed.

Lemma addUsers_lookup (us : list User.t) (users : gmap string User.t)
    (login : string) :
  addUsers users us !! login =
    match last_registered login us with
    | Some u => Some u
    | None => users !! login
    end.
Proof.
  revert users. induction us as [| u us IH]; intros users.
  - reflexivity.
  - rewrite addUsers_cons, IH. simpl.
    destruct (last_registered login us); [reflexivity |].
    destruct (String.eqb_spec (User.UserLogin u) login) as [<- | Hne].
    + apply lookup_insert_eq.
    + apply lookup_insert_ne. exact Hne.
Qed.

Lemma last_registered_login (login : string) (us : list User.t) (u : User.t) :
  last_registered login us = Some u -> User.UserLogin u = login.
Proof.
  induction us as [| v us IH]; simpl; [discriminate |].
  destruct (last_registered login us).
  - exact IH.
  - destruct (String.eqb_spec (User.UserLogin v) login); [| discriminate].
    intros [= <-]. assumption.
Qed.

Lemma addUsers_keyed (us : list User.t) (users : gmap string User.t) :
  keyed_by_login users -> keyed_by_login (addUsers users us).
Proof.
  intros Hk k u. rewrite addUsers_lookup.
  destruct (last_registered k us) eqn:E.
  - intros [= <-]. exact (last_registered_login _ _ _ E).
  - apply Hk.
Qed.

Lemma keyed_by_login_empty : keyed_by_login ∅.
Proof. intros k u H. rewrite lookup_empty in H. discriminate. Qed.

Lemma backfill_login (api : UsersAPI) (user : User.t) :
  faithful_lookup api ->
  User.UserLogin (backfill api user) = User.UserLogin user.
Proof.
  intros Hf. unfold backfill.
  destruct (String.eqb (User.Name user) ""); [| reflexivity].
  destruct (Users_Get api (User.UserLogin user)) eqn:E; [| reflexivity].
  exact (Hf _ _ E).
Qed.

Lemma backfill_calls_lookups (entries : list (string * User.t)) :
  Forall (fun e => exists login, e = EvUsersGet login)
         (flat_map (fun kv => backfill_calls (snd kv)) entries).
Proof.
  induction entries as [| kv entries IH]; simpl; [constructor |].
  apply Forall_app. split; [| exact IH].
  unfold backfill_calls. destruct (String.eqb _ _); repeat constructor.
  eexists; reflexivity.
Qed.

Lemma range_logins (order : range_order User.t) (users : gmap string User.t) :
  valid_range order -> keyed_by_login users ->
  map (fun kv => User.UserLogin (snd kv)) (order users) = map fst (order users).
Proof.
  intros Hv Hk. apply map_ext_in. intros [k u] Hin. simpl.
  apply Hk. apply elem_of_map_to_list. rewrite <- (Hv users).
  apply list_elem_of_In. exact Hin.
Qed.

(** The profile fetched for an entry carries the login of the entry when
    the lookups the flush makes return the profile of the login asked for. *)
Lemma backfill_login_looked_up (api : UsersAPI)
    (entries : list (string * User.t)) (kv : string * User.t) :
  In kv entries ->
  (forall login u,
      In (EvUsersGet login)
         (flat_map (fun kv => backfill_calls (snd kv)) entries) ->
      Users_Get api login = inl u ->
      User.UserLogin (ConvertUser api u) = login) ->
  User.UserLogin (backfill api (snd kv)) = User.UserLogin (snd kv).
Proof.
  intros Hin Hf. unfold backfill.
  destruct (String.eqb (User.Name (snd kv)) "") eqn:Hname; [| reflexivity].
  destruct (Users_Get api (User.UserLogin (snd kv))) eqn:E; [| reflexivity].
  apply (fun H => Hf _ _ H E). apply in_flat_map.
  exists kv. split; [exact Hin |].
  unfold backfill_calls. rewrite Hname. left. reflexivity.
Qed.

(** C5. After any sequence of [addUsers] calls on a fresh registry, the
    registry holds for each login exactly the record registered last for it
    (whole record, no merge of fields), every entry sits under its own login
    and no two entries have the same login; [pushUsers] then makes user
    lookups followed by exactly one [WriteUsers] call, whose batch has one
    record per registry entry. The batch has no login twice when every
    lookup the flush makes returns the profile of the login it asked for:
    [pushUsers] puts the profile it fetched in the batch as it is, without a
    look at its login. *)
Theorem registry_one_entry_per_login
    (api : UsersAPI) (WriteUsers : list User.t -> option error)
    (order : range_order User.t) (calls : list (list User.t))
    (Horder : valid_range order) :
  let registry := foldl addUsers ∅ calls in
  (forall login, registry !! login = last_registered login (concat calls))
  /\ keyed_by_login registry
  /\ NoDup (map (fun kv => User.UserLogin (snd kv)) (map_to_list registry))
  /\ exists lookups batch,
       pushUsers api WriteUsers order registry =
         (lookups ++ [EvWriteUsers batch], WriteUsers batch)
       /\ Forall (fun e => exists login, e = EvUsersGet login) lookups
       /\ length batch = size registry
       /\ ((forall login u,
               In (EvUsersGet login) lookups ->
               Users_Get api login = inl u ->
               User.UserLogin (ConvertUser api u) = login) ->
           NoDup (map User.UserLogin batch)).
Proof.
  intros registry. subst registry. rewrite addUsers_calls.
  assert (Hk : keyed_by_login (addUsers ∅ (concat calls)))
    by (apply addUsers_keyed, keyed_by_login_empty).
  split; [| split; [exact Hk |]]; [| split].
  - intros login. rewrite addUsers_lookup, lookup_empty.
    destruct (last_registered login (concat calls)); reflexivity.
  - rewrite (range_logins map_to_list _
               (fun m => reflexivity (map_to_list m)) Hk).
    apply NoDup_fst_map_to_list.
  - eexists _, _. split; [reflexivity |]. split; [| split].
    + apply backfill_calls_lookups.
    + rewrite length_map, <- length_map_to_list.
      apply Permutation_length, Horder.
    + intros Hf. rewrite map_map.
      rewrite (map_ext_in _ (fun kv => User.UserLogin (snd kv)))
        by (intros kv Hin;
            exact (backfill_login_looked_up api _ kv Hin Hf)).
      rewrite range_logins by assumption.
      change (map fst ?l) with (fst <$> l).
      rewrite (Horder _). apply NoDup_fst_map_to_list.
Qed.

Lemma demo_users_api_faithful : faithful_lookup demo_users_api.
Proof.
  intros login u. simpl.
  destruct (String.eqb_spec login "alice") as [-> | _]; [| discriminate].
  intros [= <-]. reflexivity.
Defined.

(** Witness of C5: two stub observations of ["alice"] and one of ["bob"];
    the registry keeps the last ["alice"] record and the flushed batch has no
    login twice. *)
Lemma registry_one_entry_per_login_witness :
  let calls := [[User.mk "alice" "" "first"; User.mk "bob" "Bob" ""];
                [User.mk "alice" "" "second"]] in
  foldl addUsers ∅ calls !! "alice" = Some (User.mk "alice" "" "second")
  /\ exists lookups batch,
       pushUsers demo_users_api (fun _ => None) map_to_list
                 (foldl addUsers ∅ calls)
         = (lookups ++ [EvWriteUsers batch], None)
       /\ NoDup (map User.UserLogin batch).
Proof.
  intros calls.
  destruct (registry_one_entry_per_login demo_users_api (fun _ => None)
              map_to_list calls (fun m => reflexivity (map_to_list m)))
    as (Hlast & _ & _ & lookups & batch & Hpush & _ & _ & Hnodup).
  split.
  - rewrite Hlast. reflexivity.
  - exists lookups, batch. split; [exact Hpush |].
    apply Hnodup. intros login u _. apply demo_users_api_faithful.
Defined.

(** C5, the failing case: a registry that holds ["alice"] and, from an
    observation that spelled the login otherwise, ["Alice"], both without a
    name. GitHub answers the lookup of either with the one profile, of login
    ["alice"]; the flush makes its one [WriteUsers] call with that profile
    twice. *)
Lemma registry_batch_login_twice :
  size (foldl addUsers ∅ demo_stub_observations) = 2%nat
  /\ pushUsers demo_users_api_caseless (fun _ => None) map_to_list
       (foldl addUsers ∅ demo_stub_observations)
     = ([EvUsersGet "alice"; EvUsersGet "Alice";
         EvWriteUsers [User.mk "alice" "Alice A." "acme";
                       User.mk "alice" "Alice A." "acme"]],
        None)
  /\ ~ NoDup (map User.UserLogin
                [User.mk "alice" "Alice A." "acme";
                 User.mk "alice" "Alice A." "acme"]).
Proof.
  split; [reflexivity |]. split; [vm_compute; reflexivity |].
  intros H. inversion H as [| ? ? Hnotin _]; subst.
  apply Hnotin. left.
Qed.

(** ** Activity windowing *)

Lemma getField_setField (fld : ActivityField) (v : Time) (act : BotActivity.t) :
  getField fld (setField fld v act) = v.
Proof. destruct fld; reflexivity. Qed.


(** The guarded closure sets the field when the guard holds and otherwise
    leaves the record alone. *)
Lemma advance_guard (fld : ActivityField) (prior start : Time)
    (act : BotActivity.t) :
  (getField fld act = prior -> advance fld prior start act
                                 = (setField fld start act, None))
  /\ (getField fld act <> prior -> advance fld prior start act = (act, None)).
Proof.
  unfold advance. split; intros H; destruct (decide _); congruence.
Qed.


Lemma handleActivity_unfold (pass : ActivityPass) (repo : Repo.t)
    (cb : Repo.t -> Time -> ActivityTable -> ActivityTable * option error)
    (fld : ActivityField) (tbl : ActivityTable) :
  exists since,
    since = match fst (ReadBotActivity (readFault pass) tbl
                         (Repo.OrgLogin repo) (Repo.RepoName repo)) with
            | Some activity => getField fld activity
            | None => zeroTime
            end
    /\ handleActivity pass repo cb fld tbl =
        let pre := [EvReadBotActivity (Repo.OrgLogin repo) (Repo.RepoName repo);
                    EvCallback since] in
        match cb repo since tbl with
        | (tbl1, Some err) => (tbl1, pre, Some err)
        | (tbl1, None) =>
            match UpdateBotActivity (updateFault pass) tbl1
                    (Repo.OrgLogin repo) (Repo.RepoName repo)
                    (advance fld since (now pass)) with
            | (tbl2, Some err) =>
                (tbl2,
                 pre ++ [EvUpdateBotActivity (Repo.OrgLogin repo)
                           (Repo.RepoName repo);
                         EvWarnActivity
                           "unable to update bot activity for repo %s/%s: %v"
                           [AStr (Repo.OrgLogin repo);
                            AStr (Repo.RepoName repo); AErr err]],
                 None)
            | (tbl2, None) =>
                (tbl2,
                 pre ++ [EvUpdateBotActivity (Repo.OrgLogin repo)
                           (Repo.RepoName repo)],
                 None)
            end
        end.
Proof. eexists. split; reflexivity. Qed.



Lemma prior_read_since (pass : ActivityPass) (fld : ActivityField)
    (tbl : ActivityTable) (repo : Repo.t) :
  match fst (ReadBotActivity (readFault pass) tbl
               (Repo.OrgLogin repo) (Repo.RepoName repo)) with
  | Some activity => getField fld activity
  | None => zeroTime
  end = prior_read pass fld tbl repo.
Proof.
  unfold prior_read, bookmark, ReadBotActivity.
  destruct (readFault pass); simpl; [reflexivity |].
  destruct (tbl !! _); reflexivity.
Qed.

(** C6. The result of [handleActivity] is the result of the fetch+write
    callback, whatever the bookmark update does: when the callback succeeds
    and [UpdateBotActivity] fails the pass still returns nil and the failure
    is only logged as a warning; when the callback fails the pass returns its
    error, [UpdateBotActivity] is not called and the table is the one the
    callback left. *)
Theorem handleActivity_update_outcome
    (pass : ActivityPass) (repo : Repo.t)
    (cb : Repo.t -> Time -> ActivityTable -> ActivityTable * option error)
    (fld : ActivityField) (tbl : ActivityTable) :
  let org := Repo.OrgLogin repo in
  let name := Repo.RepoName repo in
  let since := prior_read pass fld tbl repo in
  snd (handleActivity pass repo cb fld tbl) = snd (cb repo since tbl)
  /\ (forall tbl1 uerr,
        cb repo since tbl = (tbl1, None) ->
        updateFault pass = Some uerr ->
        handleActivity pass repo cb fld tbl =
          (tbl1,
           [EvReadBotActivity org name; EvCallback since;
            EvUpdateBotActivity org name;
            EvWarnActivity "unable to update bot activity for repo %s/%s: %v"
              [AStr org; AStr name; AErr uerr]],
           None))
  /\ (forall tbl1 err,
        cb repo since tbl = (tbl1, Some err) ->
        handleActivity pass repo cb fld tbl =
          (tbl1, [EvReadBotActivity org name; EvCallback since], Some err)).
Proof.
  intros org name since.
  destruct (handleActivity_unfold pass repo cb fld tbl) as (s & Hs & ->).
  rewrite prior_read_since in Hs. fold since in Hs. subst s. cbv zeta.
  fold org name. split; [| split].
  - destruct (cb repo since tbl) as [tbl1 [err |]]; [reflexivity |].
    destruct (UpdateBotActivity _ _ _ _ _) as [tbl2 [err |]]; reflexivity.
  - intros tbl1 uerr -> Hu. rewrite Hu. reflexivity.
  - intros tbl1 err ->. reflexivity.
Qed.

(** Witness of C6: the store refuses the bookmark update, the pass
    succeeds. *)
Lemma handleActivity_update_outcome_witness :
  snd (handleActivity demo_pass_update_fails demo_repo demo_cb
         FLastIssueSyncStart demo_table) = None
  /\ fst (fst (handleActivity demo_pass_update_fails demo_repo demo_cb
                 FLastIssueSyncStart demo_table)) = demo_table.
Proof.
  destruct (handleActivity_update_outcome demo_pass_update_fails demo_repo
              demo_cb FLastIssueSyncStart demo_table) as (Hres & Hwarn & _).
  split.
  - rewrite Hres. reflexivity.
  - rewrite (Hwarn demo_table _ eq_refl eq_refl). reflexivity.
Defined.

(** C10. [handleActivity] drops the error of [ReadBotActivity]: when the
    read fails or there is no record, the callback is invoked, once, with the
    zero time as its lower bound, and the pass returns an error exactly when
    that callback does; a failed read alone never makes the pass fail. *)
Theorem handleActivity_read_failure
    (pass : ActivityPass) (repo : Repo.t)
    (cb : Repo.t -> Time -> ActivityTable -> ActivityTable * option error)
    (fld : ActivityField) (tbl : ActivityTable)
    (Hnone : readFault pass <> None
             \/ tbl !! (Repo.OrgLogin repo, Repo.RepoName repo) = None) :
  exists tr,
    snd (fst (handleActivity pass repo cb fld tbl)) =
      EvReadBotActivity (Repo.OrgLogin repo) (Repo.RepoName repo)
      :: EvCallback zeroTime :: tr
    /\ Forall (fun e => forall since, e <> EvCallback since) tr
    /\ snd (handleActivity pass repo cb fld tbl) = snd (cb repo zeroTime tbl).
Proof.
  destruct (handleActivity_unfold pass repo cb fld tbl) as (s & Hs & ->).
  rewrite prior_read_since in Hs.
  assert (s = zeroTime) as ->.
  { rewrite Hs. unfold prior_read, bookmark.
    destruct Hnone as [Hf | Hn].
    - destruct (readFault pass); [reflexivity | congruence].
    - rewrite Hn. destruct (readFault pass); reflexivity. }
  cbv zeta.
  destruct (cb repo zeroTime tbl) as [tbl1 [err |]].
  - exists []. repeat split. constructor.
  - destruct (UpdateBotActivity _ _ _ _ _) as [tbl2 [err |]];
      eexists; (split; [reflexivity |]); split; try reflexivity;
      repeat constructor; discriminate.
Qed.

(** Witness of C10: the read fails although a bookmark is recorded; the
    callback gets the zero time and the pass succeeds. *)
Lemma handleActivity_read_failure_witness :
  exists tr,
    snd (fst (handleActivity demo_pass_read_fails demo_repo demo_cb
                FLastIssueSyncStart demo_table)) =
      EvReadBotActivity "istio" "istio" :: EvCallback zeroTime :: tr
    /\ snd (handleActivity demo_pass_read_fails demo_repo demo_cb
              FLastIssueSyncStart demo_table) = None.
Proof.
  assert (Hfault : readFault demo_pass_read_fails <> None) by discriminate.
  destruct (handleActivity_read_failure demo_pass_read_fails demo_repo demo_cb
              FLastIssueSyncStart demo_table (or_introl Hfault))
    as (tr & Htr & _ & Hres).
  exists tr. split; [exact Htr | rewrite Hres; reflexivity].
Defined.

(** ** The ZenHub pass *)

Lemma zenhub_loop_failed_lookup_last (env : ZenHubEnv) (repo : Repo.t)
    (issues : list Issue.t) :
  forall pipelines pre rn n post err,
    fst (zenhub_loop env repo issues pipelines)
      = pre ++ EvGetIssueData rn n :: post ->
    rn = Repo.RepoNumber repo ->
    GetIssueData env rn n = inr err ->
    post = []
    /\ snd (zenhub_loop env repo issues pipelines) = lookup_failure repo n err.
Proof.
  induction issues as [| issue rest IH]; intros pipelines pre rn n post err.
  - simpl. destruct pre as [| x [| y pre']]; discriminate.
  - simpl.
    destruct (GetIssueData env (Repo.RepoNumber repo) (Issue.IssueNumber issue))
      as [pipeline | err'] eqn:Hget.
    + destruct (_ =? 0).
      * destruct (WriteIssuePipelines env _) eqn:Hw.
        -- simpl. destruct pre as [| x [| y [| z pre']]];
             simpl; intros [= ]; subst; congruence.
        -- destruct (zenhub_loop env repo rest []) as [tr res] eqn:Hloop.
           simpl. destruct pre as [| x [| y pre']]; simpl; intros [= ]; subst.
           ++ congruence.
           ++ intros Hrn Herr.
              specialize (IH [] pre' rn n post err). rewrite Hloop in IH.
              simpl in IH. apply IH; auto.
      * destruct (zenhub_loop env repo rest _) as [tr res] eqn:Hloop.
        simpl. destruct pre as [| x pre']; simpl; intros [= ]; subst.
        -- congruence.
        -- intros Hrn Herr.
           match type of Hloop with
           | zenhub_loop _ _ _ ?pl = _ => specialize (IH pl pre' rn n post err)
           end.
           rewrite Hloop in IH.
           simpl in IH. apply IH; auto.
    + assert (forall r : option error,
                 fst ([EvGetIssueData (Repo.RepoNumber repo)
                         (Issue.IssueNumber issue)], r)
                   = pre ++ EvGetIssueData rn n :: post ->
                 rn = Repo.RepoNumber repo ->
                 GetIssueData env rn n = inr err ->
                 post = [] /\ err = err' /\ n = Issue.IssueNumber issue) as Hone.
      { intros r. simpl. destruct pre as [| x [| y pre']]; intros [= ]; subst.
        intros _ Herr. rewrite Hget in Herr. injection Herr as <-. auto. }
      destruct err'; intros Htr Hrn Herr;
        destruct (Hone _ Htr Hrn Herr) as (-> & -> & ->);
        split; reflexivity.
Qed.

Lemma zenhub_loop_stops (env : ZenHubEnv) (repo : Repo.t)
    (before : list Issue.t) (issue : Issue.t) (after : list Issue.t) :
  (forall batch, WriteIssuePipelines env batch = None) ->
  Forall (fun i => exists p,
            GetIssueData env (Repo.RepoNumber repo) (Issue.IssueNumber i)
              = inl p) before ->
  GetIssueData env (Repo.RepoNumber repo) (Issue.IssueNumber issue)
    = inr ErrNotFound ->
  forall pipelines,
    snd (zenhub_loop env repo (before ++ issue :: after) pipelines) = None
    /\ lookups_of (fst (zenhub_loop env repo (before ++ issue :: after)
                          pipelines))
       = map Issue.IssueNumber (before ++ [issue])
    /\ List.last (fst (zenhub_loop env repo (before ++ issue :: after)
                         pipelines))
                 (EvWriteIssuePipelines [])
       = EvGetIssueData (Repo.RepoNumber repo) (Issue.IssueNumber issue).
Proof.
  intros Hw Hbefore Hnf. induction Hbefore as [| i before [p Hp] _ IH];
    intros pipelines.
  - simpl. rewrite Hnf. simpl. auto.
  - change ((i :: before) ++ issue :: after)
      with (i :: (before ++ issue :: after)).
    simpl. rewrite Hp.
    destruct (_ =? 0).
    + rewrite Hw. specialize (IH []).
      destruct (zenhub_loop env repo (before ++ issue :: after) [])
        as [tr res]. simpl in IH |- *.
      destruct IH as (-> & -> & Hlast). repeat split.
      destruct tr; [discriminate Hlast | exact Hlast].
    + specialize (IH (pipelines ++
         [IssuePipeline.mk (Repo.OrgLogin repo) (Repo.RepoName repo)
            (Issue.IssueNumber i) p])).
      destruct (zenhub_loop env repo (before ++ issue :: after) _)
        as [tr res]. simpl in IH |- *.
      destruct IH as (-> & -> & Hlast). repeat split.
      destruct tr; [discriminate Hlast | exact Hlast].
Qed.

(** C3. In [handleZenHub], a pipeline lookup that comes back with the
    not-found error is the last thing the pass does and the pass returns nil:
    no issue after it is looked up and nothing more is written. With the
    issues before it all tracked and the store accepting the batches, the
    lookups made are exactly those of the issues up to and including the
    first untracked one. A lookup that fails with any other error is the last
    call too, and the pass returns that error, wrapped. *)
Theorem handleZenHub_not_found (env : ZenHubEnv) (repo : Repo.t) :
  (forall pre n post,
      fst (handleZenHub env repo)
        = pre ++ EvGetIssueData (Repo.RepoNumber repo) n :: post ->
      GetIssueData env (Repo.RepoNumber repo) n = inr ErrNotFound ->
      post = [] /\ snd (handleZenHub env repo) = None)
  /\ (forall before issue after,
        QueryIssuesByRepo env (Repo.OrgLogin repo) (Repo.RepoName repo)
          = inl (before ++ issue :: after) ->
        (forall batch, WriteIssuePipelines env batch = None) ->
        Forall (fun i => exists p,
                  GetIssueData env (Repo.RepoNumber repo) (Issue.IssueNumber i)
                    = inl p) before ->
        GetIssueData env (Repo.RepoNumber repo) (Issue.IssueNumber issue)
          = inr ErrNotFound ->
        snd (handleZenHub env repo) = None
        /\ lookups_of (fst (handleZenHub env repo))
           = map Issue.IssueNumber (before ++ [issue])
        /\ List.last (fst (handleZenHub env repo)) (EvWriteIssuePipelines [])
           = EvGetIssueData (Repo.RepoNumber repo) (Issue.IssueNumber issue))
  /\ (forall pre n post err,
        fst (handleZenHub env repo)
          = pre ++ EvGetIssueData (Repo.RepoNumber repo) n :: post ->
        GetIssueData env (Repo.RepoNumber repo) n = inr err ->
        err <> ErrNotFound ->
        post = []
        /\ snd (handleZenHub env repo) =
             Some (Errorf
               "unable to get issue data from ZenHub for issue %d in repo %s/%s: %v"
               [AInt n; AStr (Repo.OrgLogin repo); AStr (Repo.RepoName repo);
                AErr err])).
Proof.
  unfold handleZenHub. split; [| split].
  - intros pre n post Htr Hnf.
    destruct (QueryIssuesByRepo env _ _) as [issues | qerr].
    + exact (zenhub_loop_failed_lookup_last env repo issues [] pre _ n post
               ErrNotFound Htr eq_refl Hnf).
    + destruct pre; discriminate Htr.
  - intros before issue after -> Hw Hbefore Hnf.
    exact (zenhub_loop_stops env repo before issue after Hw Hbefore Hnf []).
  - intros pre n post err Htr Herr Hne.
    destruct (QueryIssuesByRepo env _ _) as [issues | qerr].
    + destruct (zenhub_loop_failed_lookup_last env repo issues [] pre _ n post
                  err Htr eq_refl Herr) as [-> ->].
      split; [reflexivity |]. destruct err; [congruence | reflexivity ..].
    + destruct pre; discriminate Htr.
Qed.

(** Witness of C3: issue 2 of three is untracked; issue 3 is never looked
    up and the pass succeeds. *)
Lemma handleZenHub_not_found_witness :
  snd (handleZenHub demo_zenhub demo_repo) = None
  /\ lookups_of (fst (handleZenHub demo_zenhub demo_repo)) = [1; 2].
Proof.
  destruct (handleZenHub_not_found demo_zenhub demo_repo) as (_ & Hstop & _).
  assert (Htracked :
            Forall (fun i => exists p,
                      GetIssueData demo_zenhub (Repo.RepoNumber demo_repo)
                        (Issue.IssueNumber i) = inl p)
                   [Issue.mk "istio" "istio" 1]).
  { repeat constructor. exists "Backlog". reflexivity. }
  destruct (Hstop [Issue.mk "istio" "istio" 1]
                  (Issue.mk "istio" "istio" 2)
                  [Issue.mk "istio" "istio" 3]
                  eq_refl (fun _ => eq_refl) Htracked eq_refl)
    as (Hres & Hlook & _).
  split; [exact Hres | exact Hlook].
Defined.

(** ** The pull-request pass *)

Lemma pull_request_step_up_to_date (env : PullRequestEnv) (repo : Repo.t)
    (acc : PullRequestAcc env) (pr : GhPullRequest env)
    (existing : PullRequest env) (cerr : option error) :
  cache_ReadPullRequest env (Repo.OrgLogin repo) (Repo.RepoName repo)
    (GetNumber env pr) = (Some existing, cerr) ->
  UpdatedAt env existing = GetUpdatedAt env pr ->
  pull_request_step env repo acc pr =
    inl (mkAcc (storagePRs acc) (storagePRReviews acc) (acc_users acc)
           (acc_trace acc ++ [EvReadPullRequest (GetNumber env pr)])).
Proof.
  intros Hc Hup. unfold pull_request_step. rewrite Hc. simpl.
  rewrite bool_decide_eq_true_2 by exact Hup. reflexivity.
Qed.

Lemma pull_request_step_stale (env : PullRequestEnv) (repo : Repo.t)
    (acc : PullRequestAcc env) (pr : GhPullRequest env)
    (rpages : list (list (GhReview env))) (fpages : list (list string)) :
  match fst (cache_ReadPullRequest env (Repo.OrgLogin repo)
               (Repo.RepoName repo) (GetNumber env pr)) with
  | Some existing => UpdatedAt env existing <> GetUpdatedAt env pr
  | None => True
  end ->
  fetchReviews env repo (GetNumber env pr) = (rpages, None) ->
  fetchFiles env repo (GetNumber env pr) = (fpages, None) ->
  pull_request_step env repo acc pr =
    let number := GetNumber env pr in
    let conv := ConvertPullRequest env (Repo.OrgLogin repo)
                  (Repo.RepoName repo) pr (concat fpages) in
    let revs := foldl (reviews_page env repo number)
                      (storagePRReviews acc, acc_users acc) rpages in
    inl (mkAcc (storagePRs acc ++ [fst conv]) (fst revs)
           (addUsers (snd revs) (snd conv))
           (acc_trace acc ++ [EvReadPullRequest number]
              ++ [EvFetchReviews number] ++ [EvFetchFiles number])).
Proof.
  intros Hstale Hr Hf. unfold pull_request_step.
  assert (match fst (cache_ReadPullRequest env (Repo.OrgLogin repo)
                       (Repo.RepoName repo) (GetNumber env pr)) with
          | Some existing =>
              bool_decide (UpdatedAt env existing = GetUpdatedAt env pr)
          | None => false
          end = false) as ->.
  { destruct (fst _); [| reflexivity].
    apply bool_decide_eq_false_2. exact Hstale. }
  rewrite Hr, Hf. cbv zeta.
  destruct (foldl _ _ rpages) as [reviews users1].
  destruct (ConvertPullRequest env _ _ pr _) as [t users].
  simpl. rewrite <- !app_assoc. reflexivity.
Qed.

(** C2. A pass over one fetched batch of two pull requests, the first with
    the [updated_at] of its cached record, the second with no cached record
    or one of a different [UpdatedAt]: after reading the cache for both, the
    pass fetches reviews and files for the second only, then writes a batch
    of exactly one PullRequest record, the conversion of the second (and,
    that write succeeding, the second's reviews). Upserting that batch into a
    table holding the first's record leaves it as it was and stores the
    second's new state. *)
Theorem handlePullRequests_skips_up_to_date
    (env : PullRequestEnv) (repo : Repo.t) (users : gmap string User.t)
    (pr1 pr2 : GhPullRequest env) (existing1 : PullRequest env)
    (cerr1 : option error)
    (rpages : list (list (GhReview env))) (fpages : list (list string))
    (Hbatch : fetchPullRequests env repo = ([[pr1; pr2]], None))
    (Hcached1 : cache_ReadPullRequest env (Repo.OrgLogin repo)
                  (Repo.RepoName repo) (GetNumber env pr1)
                = (Some existing1, cerr1))
    (Hsame1 : UpdatedAt env existing1 = GetUpdatedAt env pr1)
    (Hnewer2 : match fst (cache_ReadPullRequest env (Repo.OrgLogin repo)
                            (Repo.RepoName repo) (GetNumber env pr2)) with
               | Some existing2 =>
                   UpdatedAt env existing2 <> GetUpdatedAt env pr2
               | None => True
               end)
    (Hreviews : fetchReviews env repo (GetNumber env pr2) = (rpages, None))
    (Hfiles : fetchFiles env repo (GetNumber env pr2) = (fpages, None)) :
  let n1 := GetNumber env pr1 in
  let n2 := GetNumber env pr2 in
  let conv2 := ConvertPullRequest env (Repo.OrgLogin repo) (Repo.RepoName repo)
                 pr2 (concat fpages) in
  let revs2 := converted_reviews env repo n2 users rpages in
  let fetches := [EvReadPullRequest n1; EvReadPullRequest n2;
                  EvFetchReviews n2; EvFetchFiles n2;
                  EvWritePullRequests [fst conv2]] in
  handlePullRequests env repo users =
    match WritePullRequests env [fst conv2] with
    | Some err => (addUsers (snd revs2) (snd conv2), fetches, Some err)
    | None =>
        (addUsers (snd revs2) (snd conv2),
         fetches ++ [EvWritePullRequestReviews (fst revs2)],
         WritePullRequestReviews env (fst revs2))
    end
  /\ (n1 <> n2 ->
      ~ In (EvFetchReviews n1) fetches /\ ~ In (EvFetchFiles n1) fetches)
  /\ (forall tbl : gmap Z (PullRequest env),
        tbl !! n1 = Some existing1 ->
        PullRequestNumber env (fst conv2) = n2 ->
        n1 <> n2 ->
        upsertPullRequests env tbl [fst conv2] !! n1 = Some existing1
        /\ upsertPullRequests env tbl [fst conv2] !! n2 = Some (fst conv2)).
Proof.
  intros n1 n2 conv2 revs2 fetches. split; [| split].
  - unfold handlePullRequests. rewrite Hbatch.
    unfold pull_request_pages, pull_requests_page, pull_request_loop.
    rewrite (pull_request_step_up_to_date env repo _ pr1 existing1 cerr1
               Hcached1 Hsame1).
    rewrite (pull_request_step_stale env repo _ pr2 rpages fpages
               Hnewer2 Hreviews Hfiles).
    cbv zeta. simpl.
    fold n1 n2 conv2. change (foldl _ ([], users) rpages) with revs2.
    destruct (WritePullRequests env [fst conv2]); [reflexivity |].
    destruct (WritePullRequestReviews env (fst revs2)); reflexivity.
  - intros Hne. subst fetches. simpl. split; intros H;
      repeat (destruct H as [H | H]; [inversion H; congruence |]); exact H.
  - intros tbl H1 Hkey Hne. unfold upsertPullRequests. simpl. rewrite Hkey.
    split.
    + rewrite lookup_insert_ne by congruence. exact H1.
    + apply lookup_insert_eq.
Qed.

(** Witness of C2: PR 1 is cached with its current timestamp, PR 2 has
    moved on; only PR 2 is fetched and written. *)
Lemma handlePullRequests_skips_up_to_date_witness :
  snd (fst (handlePullRequests demo_pr_env demo_repo ∅)) =
    [EvReadPullRequest 1; EvReadPullRequest 2; EvFetchReviews 2;
     EvFetchFiles 2;
     @EvWritePullRequests demo_pr_env [(2, mkTime 60 0 0, ["pkg/a.go"])];
     @EvWritePullRequestReviews demo_pr_env ["LGTM"]].
Proof.
  assert (Hnewer : match fst (cache_ReadPullRequest demo_pr_env
                                (Repo.OrgLogin demo_repo)
                                (Repo.RepoName demo_repo) 2) with
                   | Some existing2 =>
                       UpdatedAt demo_pr_env existing2 <> mkTime 60 0 0
                   | None => True
                   end) by (simpl; discriminate).
  destruct (handlePullRequests_skips_up_to_date demo_pr_env demo_repo ∅
              (1, mkTime 50 0 0) (2, mkTime 60 0 0)
              (1, mkTime 50 0 0, []) None [["LGTM"]] [["pkg/a.go"]]
              eq_refl eq_refl eq_refl Hnewer eq_refl eq_refl)
    as (Hrun & _ & _).
  rewrite Hrun. reflexivity.
Defined.

(** ** The maintainer resolver *)

Ltac run_unfold :=
  unfold mbind, mret, Resolver_bind, Resolver_ret, resolver_bind,
    resolver_ret, get_state, set_users, set_maintainers, emit, panic in *.

Lemma granted_app (es1 es2 : list (string * string)) (k : string) :
  granted (es1 ++ es2) k = granted es1 k ++ granted es2 k.
Proof.
  induction es1 as [| [l p] es1 IH]; simpl; [reflexivity |].
  destruct (String.eqb l k); simpl; rewrite IH; reflexivity.
Qed.

Lemma paths_of_ensure_record (org : Org.t) (key : string)
    (maintainers : gmap string Maintainer.t) (k : string) :
  paths_of (ensure_record org key maintainers) k = paths_of maintainers k.
Proof.
  unfold ensure_record, paths_of.
  destruct (maintainers !! key) eqn:E; [reflexivity |].
  destruct (decide (key = k)) as [<- | Hne].
  - rewrite lookup_insert_eq, E. reflexivity.
  - rewrite lookup_insert_ne by exact Hne. reflexivity.
Qed.

Lemma ensure_record_is_Some (org : Org.t) (key : string)
    (maintainers : gmap string Maintainer.t) :
  is_Some (ensure_record org key maintainers !! key).
Proof.
  unfold ensure_record. destruct (maintainers !! key) eqn:E.
  - rewrite E. eauto.
  - rewrite lookup_insert_eq. eauto.
Qed.

Lemma maintainer_record_run (org : Org.t) (user : User.t) (st : MaintState) :
  maintainer_record org user st =
    Returns (inl (User.UserLogin user),
             mkMaint (ms_users st)
               (ensure_record org (User.UserLogin user) (ms_maintainers st)),
             []).
Proof.
  unfold maintainer_record, ensure_record. run_unfold.
  destruct st as [users maintainers]. simpl.
  destruct (maintainers !! User.UserLogin user); reflexivity.
Qed.

Lemma resolves_insert (env : MaintEnv) (users : gmap string User.t)
    (user : User.t) (l : string) :
  users !! User.UserLogin user = None ->
  resolves env users l ->
  resolves env (<[User.UserLogin user := user]> users) l.
Proof.
  intros Hnone. unfold resolves.
  destruct (decide (User.UserLogin user = l)) as [<- | Hne].
  - rewrite lookup_insert_eq. reflexivity.
  - rewrite lookup_insert_ne by exact Hne. auto.
Qed.

Lemma keyed_by_login_insert (users : gmap string User.t) (user : User.t) :
  keyed_by_login users ->
  keyed_by_login (<[User.UserLogin user := user]> users).
Proof.
  intros Hk k u. destruct (decide (User.UserLogin user = k)) as [<- | Hne].
  - rewrite lookup_insert_eq. intros [= <-]. reflexivity.
  - rewrite lookup_insert_ne by exact Hne. apply Hk.
Qed.

(** A login that resolves is found, under its own name, and the paths of
    every maintainer are as they were. *)
Lemma getMaintainer_resolves (env : MaintEnv) (org : Org.t) (login : string)
    (st : MaintState) :
  keyed_by_login (ms_users st) ->
  resolves env (ms_users st) login ->
  exists st' evs,
    getMaintainer env org login st = Returns (inl login, st', evs)
    /\ grants env st [] st'
    /\ is_Some (ms_maintainers st' !! login)
    /\ no_write evs /\ no_warning evs.
Proof.
  intros Hk Hres. unfold getMaintainer.
  unfold resolves in Hres.
  change (get_state ≫= ?f) with (resolver_bind f get_state).
  unfold resolver_bind at 1, get_state at 1.
  destruct (ms_users st !! login) as [u |] eqn:Hu.
  - rewrite maintainer_record_run, Hres. eexists _, _.
    split; [reflexivity |]. split; [| split; [| split]].
    + split; [exact Hk |]. split; [auto |]. intros k.
      cbn [ms_users ms_maintainers granted].
      rewrite paths_of_ensure_record, app_nil_r. reflexivity.
    + apply ensure_record_is_Some.
    + constructor.
    + constructor.
  - run_unfold.
    destruct (cache_ReadUser env login) as [[u |] [err |]];
      try contradiction.
    + rewrite maintainer_record_run, Hres. eexists _, _.
      split; [reflexivity |]. split; [| split; [| split]].
      * split; [exact Hk |]. split; [auto |]. intros k.
        cbn [ms_users ms_maintainers granted].
        rewrite paths_of_ensure_record, app_nil_r. reflexivity.
      * apply ensure_record_is_Some.
      * repeat constructor; discriminate.
      * repeat constructor; discriminate.
    + unfold maintainer_from_github. run_unfold.
      destruct (Users_Get (users_api env) login) as [g | err];
        [| contradiction].
      rewrite maintainer_record_run, Hres. eexists _, _.
      split; [reflexivity |]. split; [| split; [| split]].
      * unfold grants. cbn [ms_users ms_maintainers]. split; [| split].
        -- rewrite <- Hres at 1. apply keyed_by_login_insert, Hk.
        -- intros l Hl. rewrite <- Hres at 1.
           apply resolves_insert; [rewrite Hres; exact Hu | exact Hl].
        -- intros k. rewrite paths_of_ensure_record, app_nil_r. reflexivity.
      * apply ensure_record_is_Some.
      * repeat constructor; discriminate.
      * repeat constructor; discriminate.
Qed.

Lemma grants_refl (env : MaintEnv) (st : MaintState) :
  keyed_by_login (ms_users st) -> grants env st [] st.
Proof.
  intros Hk. split; [exact Hk |]. split; [auto |].
  intros k. simpl. rewrite app_nil_r. reflexivity.
Qed.

Lemma grants_trans (env : MaintEnv) (st1 st2 st3 : MaintState)
    (es1 es2 : list (string * string)) :
  grants env st1 es1 st2 -> grants env st2 es2 st3 ->
  grants env st1 (es1 ++ es2) st3.
Proof.
  intros (_ & Hr1 & Hp1) (Hk2 & Hr2 & Hp2). split; [exact Hk2 |].
  split; [auto |]. intros k.
  rewrite Hp2, Hp1, granted_app, app_assoc. reflexivity.
Qed.

Lemma paths_of_alter (key p : string) (maintainers : gmap string Maintainer.t)
    (k : string) :
  is_Some (maintainers !! key) ->
  paths_of
    (alter (fun m => Maintainer.mk (Maintainer.OrgLogin m)
                       (Maintainer.UserLogin m) (Maintainer.Paths m ++ [p]))
           key maintainers) k
  = paths_of maintainers k ++ granted [(key, p)] k.
Proof.
  intros [m Hm]. unfold paths_of. simpl.
  destruct (String.eqb_spec key k) as [<- | Hne].
  - rewrite lookup_alter_eq, Hm. reflexivity.
  - rewrite lookup_alter_ne by exact Hne. rewrite app_nil_r. reflexivity.
Qed.

(** Granting a path to a login that resolves appends it to the path list of
    that login's maintainer, and to no other. *)
Lemma grant_path_resolves (env : MaintEnv) (org : Org.t) (login p : string)
    (st : MaintState) :
  keyed_by_login (ms_users st) ->
  resolves env (ms_users st) login ->
  exists st' evs,
    grant_path env org login p st = Returns (tt, st', evs)
    /\ grants env st [(login, p)] st'
    /\ no_write evs /\ no_warning evs.
Proof.
  intros Hk Hres.
  destruct (getMaintainer_resolves env org login st Hk Hres)
    as (st1 & evs & Hrun & (Hk1 & Hr1 & Hp1) & Hsome & Hnw & Hnwarn).
  unfold grant_path.
  change (getMaintainer env org login ≫= ?f)
    with (resolver_bind f (getMaintainer env org login)).
  unfold resolver_bind. rewrite Hrun. unfold append_path. run_unfold.
  eexists _, _. split; [reflexivity |]. split; [| split].
  - cbn [ms_users ms_maintainers]. split; [exact Hk1 |]. split; [exact Hr1 |].
    intros k. cbn [ms_users ms_maintainers].
    rewrite paths_of_alter by exact Hsome.
    rewrite Hp1. simpl. rewrite app_nil_r. reflexivity.
  - rewrite app_nil_r. exact Hnw.
  - rewrite app_nil_r. exact Hnwarn.
Qed.

Lemma resolves_all_stable (env : MaintEnv) (st st' : MaintState)
    (es : list (string * string)) (logins : list string) :
  grants env st es st' ->
  Forall (resolves env (ms_users st)) logins ->
  Forall (resolves env (ms_users st')) logins.
Proof.
  intros (_ & Hr & _) H. eapply Forall_impl; [exact H | exact Hr].
Qed.

(** A loop whose every round makes the grants [contrib x] makes, in all, the
    grants of all rounds in order. *)
Lemma for_range_grants (env : MaintEnv) {X : Type} (body : X -> Resolver unit)
    (contrib : X -> list (string * string)) (ok : X -> Prop) :
  (forall x st,
      ok x -> keyed_by_login (ms_users st) ->
      Forall (resolves env (ms_users st)) (map fst (contrib x)) ->
      exists st' evs,
        body x st = Returns (tt, st', evs)
        /\ grants env st (contrib x) st'
        /\ no_write evs /\ no_warning evs) ->
  forall xs st,
    Forall ok xs -> keyed_by_login (ms_users st) ->
    Forall (resolves env (ms_users st)) (map fst (flat_map contrib xs)) ->
    exists st' evs,
      for_range xs body st = Returns (tt, st', evs)
      /\ grants env st (flat_map contrib xs) st'
      /\ no_write evs /\ no_warning evs.
Proof.
  intros Hbody xs. induction xs as [| x xs IH]; intros st Hok Hk Hres.
  - exists st, []. split; [reflexivity |].
    split; [apply grants_refl, Hk |]. split; constructor.
  - inversion Hok as [| ? ? Hx Hxs]; subst.
    simpl in Hres. rewrite map_app in Hres.
    apply Forall_app in Hres as [Hres1 Hres2].
    destruct (Hbody x st Hx Hk Hres1)
      as (st1 & evs1 & Hrun1 & Hg1 & Hnw1 & Hnwarn1).
    destruct (IH st1 Hxs (proj1 Hg1)
                (resolves_all_stable env st st1 _ _ Hg1 Hres2))
      as (st2 & evs2 & Hrun2 & Hg2 & Hnw2 & Hnwarn2).
    exists st2, (evs1 ++ evs2). split; [| split; [| split]].
    + simpl.
      change (body x ≫= ?f) with (resolver_bind f (body x)).
      unfold resolver_bind. rewrite Hrun1, Hrun2. reflexivity.
    + simpl. exact (grants_trans env st st1 st2 _ _ Hg1 Hg2).
    + apply Forall_app. split; assumption.
    + apply Forall_app. split; assumption.
Qed.

(** *** Facts about the string functions *)

Lemma append_cons (c : ascii) (s t : string) :
  String c s +:+ t = String c (s +:+ t).
Proof. reflexivity. Qed.

Lemma append_nil_l (t : string) : "" +:+ t = t.
Proof. reflexivity. Qed.


Lemma length_append (s t : string) :
  String.length (s +:+ t) = (String.length s + String.length t)%nat.
Proof.
  induction s as [| c s IH]; [reflexivity |].
  rewrite append_cons. simpl. rewrite IH. reflexivity.
Qed.

Lemma HasPrefix_append (pre s : string) : HasPrefix (pre +:+ s) pre = true.
Proof.
  induction pre as [| c pre IH]; [destruct s; reflexivity |].
  rewrite append_cons. simpl. rewrite Ascii.eqb_refl. exact IH.
Qed.

Lemma drop_bytes_append (pre s : string) :
  drop_bytes (String.length pre) (pre +:+ s) = s.
Proof.
  induction pre as [| c pre IH]; [destruct s; reflexivity |].
  rewrite append_cons. simpl. exact IH.
Qed.

Lemma take_bytes_append (s suf : string) :
  take_bytes (String.length s) (s +:+ suf) = s.
Proof.
  induction s as [| c s IH]; [destruct suf; reflexivity |].
  rewrite append_cons. simpl. rewrite IH. reflexivity.
Qed.

(** [TrimPrefix] takes a leading prefix off. *)
Lemma TrimPrefix_append (pre s : string) : TrimPrefix (pre +:+ s) pre = s.
Proof.
  unfold TrimPrefix. rewrite HasPrefix_append. apply drop_bytes_append.
Qed.

(** [TrimSuffix] takes a trailing suffix off. *)
Lemma TrimSuffix_append (s suf : string) : TrimSuffix (s +:+ suf) suf = s.
Proof.
  unfold TrimSuffix, HasSuffix. rewrite length_append.
  replace (String.length s + String.length suf - String.length suf)%nat
    with (String.length s) by lia.
  rewrite drop_bytes_append, String.eqb_refl.
  assert ((String.length suf <=? String.length s + String.length suf)%nat
          = true) as -> by (apply Nat.leb_le; lia).
  simpl. apply take_bytes_append.
Qed.

(** *** CODEOWNERS *)

Lemma flat_map_singleton {X Y : Type} (f : X -> Y) (xs : list X) :
  flat_map (fun x => [f x]) xs = map f xs.
Proof. induction xs as [| x xs IH]; simpl; [| rewrite IH]; reflexivity. Qed.

Lemma granted_In (entries : list (string * string)) (login p : string) :
  In (login, p) entries -> In p (granted entries login).
Proof.
  induction entries as [| [l q] entries IH]; simpl; [trivial |].
  intros [[= -> ->] | Hin].
  - rewrite String.eqb_refl. left. reflexivity.
  - destruct (String.eqb l login); [right |]; exact (IH Hin).
Qed.

Lemma codeowners_login_grants (env : MaintEnv) (org : Org.t) (repo : Repo.t)
    (fields0 login : string) (st : MaintState) :
  keyed_by_login (ms_users st) ->
  resolves env (ms_users st) (TrimPrefix login "@") ->
  exists st' evs,
    codeowners_login env org repo fields0 login st = Returns (tt, st', evs)
    /\ grants env st
         [(TrimPrefix login "@",
           Repo.RepoName repo +:+ "/" +:+ spec_owner_path fields0)] st'
    /\ no_write evs /\ no_warning evs.
Proof.
  intros Hk Hres. unfold codeowners_login, spec_owner_path.
  apply grant_path_resolves; assumption.
Qed.

Lemma codeowners_line_skipped (env : MaintEnv) (org : Org.t) (repo : Repo.t)
    (line : string) (st : MaintState) :
  skipped_line line = true ->
  codeowners_line env org repo line st = Returns (tt, st, []).
Proof.
  unfold skipped_line, codeowners_line. intros H.
  rewrite orb_comm, H. reflexivity.
Qed.

(** One line of CODEOWNERS makes the grants the specification gives it. *)
Lemma codeowners_line_grants (env : MaintEnv) (org : Org.t) (repo : Repo.t)
    (line : string) (st : MaintState) :
  line_ok line ->
  keyed_by_login (ms_users st) ->
  Forall (resolves env (ms_users st))
         (map fst (spec_line_entries (Repo.RepoName repo) line)) ->
  exists st' evs,
    codeowners_line env org repo line st = Returns (tt, st', evs)
    /\ grants env st (spec_line_entries (Repo.RepoName repo) line) st'
    /\ no_write evs /\ no_warning evs.
Proof.
  intros Hok Hk Hres. unfold spec_line_entries in *.
  destruct (skipped_line line) eqn:Hskip.
  - rewrite codeowners_line_skipped by exact Hskip.
    exists st, []. split; [reflexivity |].
    split; [apply grants_refl, Hk |]. split; constructor.
  - destruct Hok as [Hok | Hok]; [congruence |].
    unfold codeowners_line. unfold skipped_line in Hskip.
    rewrite orb_comm, Hskip.
    destruct (Fields (Trim line space_tab)) as [| fields0 logins];
      [congruence |].
    rewrite <- flat_map_singleton in Hres |- *.
    apply (for_range_grants env
             (codeowners_login env org repo fields0)
             (fun login =>
                [(TrimPrefix login "@",
                  Repo.RepoName repo +:+ "/" +:+ spec_owner_path fields0)])
             (fun _ => True)).
    + intros login st0 _ Hk0 Hres0. inversion Hres0; subst.
      apply codeowners_login_grants; assumption.
    + apply Forall_forall. trivial.
    + exact Hk.
    + exact Hres.
Qed.

(** The whole document makes the grants of its lines, in order. *)
Lemma handleCODEOWNERS_grants (env : MaintEnv) (org : Org.t) (repo : Repo.t)
    (fc : RepositoryContent env) (content : string) (st : MaintState) :
  GetContent env fc = inl content ->
  keyed_by_login (ms_users st) ->
  Forall line_ok (Split content newline) ->
  Forall (resolves env (ms_users st))
         (map fst (spec_codeowners_entries (Repo.RepoName repo) content)) ->
  exists st' evs,
    handleCODEOWNERS env org repo fc st = Returns (None, st', evs)
    /\ grants env st (spec_codeowners_entries (Repo.RepoName repo) content) st'
    /\ no_write evs /\ no_warning evs.
Proof.
  intros Hc Hk Hok Hres. unfold handleCODEOWNERS. rewrite Hc.
  destruct (for_range_grants env (codeowners_line env org repo)
              (spec_line_entries (Repo.RepoName repo)) line_ok
              (fun line st0 => codeowners_line_grants env org repo line st0)
              (Split content newline) st Hok Hk Hres)
    as (st' & evs & Hrun & Hg & Hnw & Hnwarn).
  exists st', evs.
  change (for_range ?xs ?b ≫= ?f) with (resolver_bind f (for_range xs b)).
  unfold resolver_bind. rewrite Hrun. run_unfold. rewrite app_nil_r.
  auto.
Qed.

(** X27. [handleCODEOWNERS] on any document whose lines the parser can take
    (each is skipped or has at least one field) and whose logins resolve:
    every maintainer ends with its former paths followed by the paths its
    lines grant, so each grant of each line is in the path list of its
    login. The line ["/a/b/* @alice @bob"] grants
    ["<repo>/a/b"] to [alice] and to [bob]; the line ["* @carol"] grants
    ["<repo>/"] to [carol]; a line that, trimmed of spaces and tabs, is empty
    or begins with [#] grants nothing and changes nothing. A leading [@] is
    taken off a login, a leading [/] and a trailing [/*] off a path pattern,
    and a bare [*] becomes the empty path. *)
Theorem handleCODEOWNERS_paths (env : MaintEnv) (org : Org.t) (repo : Repo.t) :
  let r := Repo.RepoName repo in
  (forall (fc : RepositoryContent env) (content : string) (st : MaintState),
      GetContent env fc = inl content ->
      keyed_by_login (ms_users st) ->
      Forall line_ok (Split content newline) ->
      Forall (resolves env (ms_users st))
             (map fst (spec_codeowners_entries r content)) ->
      exists st' evs,
        handleCODEOWNERS env org repo fc st = Returns (None, st', evs)
        /\ no_warning evs
        /\ (forall k,
              paths_of (ms_maintainers st') k
              = paths_of (ms_maintainers st) k
                ++ granted (spec_codeowners_entries r content) k)
        /\ (forall line login p,
              In line (Split content newline) ->
              In (login, p) (spec_line_entries r line) ->
              In p (paths_of (ms_maintainers st') login)))
  /\ spec_line_entries r "/a/b/* @alice @bob"
     = [("alice", r +:+ "/a/b"); ("bob", r +:+ "/a/b")]
  /\ (forall st,
        keyed_by_login (ms_users st) ->
        resolves env (ms_users st) "alice" ->
        resolves env (ms_users st) "bob" ->
        exists st' evs,
          codeowners_line env org repo "/a/b/* @alice @bob" st
            = Returns (tt, st', evs)
          /\ forall k,
               paths_of (ms_maintainers st') k
               = paths_of (ms_maintainers st) k
                 ++ granted [("alice", r +:+ "/a/b"); ("bob", r +:+ "/a/b")] k)
  /\ spec_line_entries r "* @carol" = [("carol", r +:+ "/")]
  /\ (forall st,
        keyed_by_login (ms_users st) ->
        resolves env (ms_users st) "carol" ->
        exists st' evs,
          codeowners_line env org repo "* @carol" st = Returns (tt, st', evs)
          /\ forall k,
               paths_of (ms_maintainers st') k
               = paths_of (ms_maintainers st) k
                 ++ granted [("carol", r +:+ "/")] k)
  /\ (forall line,
        Trim line space_tab = ""
        \/ HasPrefix (Trim line space_tab) "#" = true ->
        spec_line_entries r line = []
        /\ forall st, codeowners_line env org repo line st
                      = Returns (tt, st, []))
  /\ (forall login, TrimPrefix ("@" +:+ login) "@" = login)
  /\ (forall p, spec_owner_path ("/" +:+ p +:+ "/*")
                = if String.eqb p "*" then "" else p)
  /\ spec_owner_path "*" = "".
Proof.
  intros r.
  split; [| split; [reflexivity | split; [| split; [reflexivity | split]]]].
  - intros fc content st Hc Hk Hok Hres.
    destruct (handleCODEOWNERS_grants env org repo fc content st Hc Hk Hok Hres)
      as (st' & evs & Hrun & (_ & _ & Hp) & _ & Hnwarn).
    exists st', evs. repeat split; [exact Hrun | exact Hnwarn | exact Hp |].
    intros line login p Hline Hentry. rewrite Hp.
    apply in_or_app. right. apply granted_In.
    unfold spec_codeowners_entries. apply in_flat_map.
    exists line. split; assumption.
  - intros st Hk Halice Hbob.
    destruct (codeowners_line_grants env org repo "/a/b/* @alice @bob" st)
      as (st' & evs & Hrun & (_ & _ & Hp) & _).
    + right. vm_compute. discriminate.
    + exact Hk.
    + change (map fst (spec_line_entries (Repo.RepoName repo)
                         "/a/b/* @alice @bob")) with ["alice"; "bob"].
      repeat (apply Forall_cons_2; [assumption |]). apply Forall_nil_2.
    + exists st', evs. split; [exact Hrun | exact Hp].
  - intros st Hk Hcarol.
    destruct (codeowners_line_grants env org repo "* @carol" st)
      as (st' & evs & Hrun & (_ & _ & Hp) & _).
    + right. vm_compute. discriminate.
    + exact Hk.
    + change (map fst (spec_line_entries (Repo.RepoName repo) "* @carol"))
        with ["carol"].
      repeat (apply Forall_cons_2; [assumption |]). apply Forall_nil_2.
    + exists st', evs. split; [exact Hrun | exact Hp].
  - split; [| split; [| split; [| reflexivity]]].
    + intros line Hline.
      assert (Hskip : skipped_line line = true).
      { unfold skipped_line. destruct Hline as [-> | ->]; [reflexivity |].
        apply orb_true_r. }
      split.
      * unfold spec_line_entries. rewrite Hskip. reflexivity.
      * intros st. apply codeowners_line_skipped, Hskip.
    + intros login. apply (TrimPrefix_append "@" login).
    + intros p. unfold spec_owner_path.
      rewrite (TrimPrefix_append "/" (p +:+ "/*")), TrimSuffix_append.
      reflexivity.
Qed.

Lemma demo_codeowners_lines_ok : Forall line_ok (Split demo_codeowners newline).
Proof.
  change (Split demo_codeowners newline)
    with ["# owners of the tree"; ""; "/a/b/* @alice @bob"; "* @carol"].
  repeat (apply Forall_cons_2;
          [(left; reflexivity) || (right; vm_compute; discriminate) |]).
  apply Forall_nil_2.
Defined.

Lemma demo_codeowners_resolve :
  Forall (resolves demo_maint_env ∅)
         (map fst (spec_codeowners_entries "istio" demo_codeowners)).
Proof.
  change (map fst (spec_codeowners_entries "istio" demo_codeowners))
    with ["alice"; "bob"; "carol"].
  repeat (apply Forall_cons_2; [reflexivity |]).
  apply Forall_nil_2.
Defined.

(** Witness of X27: the four-line document of the example organization, on a
    fresh registry. *)
Lemma handleCODEOWNERS_paths_witness :
  exists st' evs,
    handleCODEOWNERS demo_maint_env demo_org demo_repo demo_codeowners
      (mkMaint ∅ ∅) = Returns (None, st', evs)
    /\ paths_of (ms_maintainers st') "alice" = ["istio/a/b"]
    /\ paths_of (ms_maintainers st') "bob" = ["istio/a/b"]
    /\ paths_of (ms_maintainers st') "carol" = ["istio/"].
Proof.
  destruct (handleCODEOWNERS_paths demo_maint_env demo_org demo_repo)
    as (Hdoc & _).
  destruct (Hdoc demo_codeowners demo_codeowners (mkMaint ∅ ∅) eq_refl
              keyed_by_login_empty demo_codeowners_lines_ok
              demo_codeowners_resolve)
    as (st' & evs & Hrun & _ & Hp & _).
  exists st', evs. split; [exact Hrun |].
  rewrite !Hp. repeat split.
Defined.

(** *** The calls a resolver step makes *)

Lemma emits_ret (P : MaintEvent -> Prop) {A : Type} (a : A) :
  emits P (mret a : Resolver A).
Proof. intros st b st' evs [= <- <- <-]. constructor. Qed.

Lemma emits_bind (P : MaintEvent -> Prop) {A B : Type}
    (m : Resolver A) (f : A -> Resolver B) :
  emits P m -> (forall a, emits P (f a)) -> emits P (m ≫= f).
Proof.
  intros Hm Hf st b st' evs.
  change (m ≫= f) with (resolver_bind f m). unfold resolver_bind.
  destruct (m st) as [[[a st1] evs1] |] eqn:E1; [| discriminate].
  destruct (f a st1) as [[[b' st2] evs2] |] eqn:E2; [| discriminate].
  intros [= <- <- <-]. apply Forall_app. split.
  - exact (Hm _ _ _ _ E1).
  - exact (Hf _ _ _ _ _ E2).
Qed.

Lemma emits_emit (P : MaintEvent -> Prop) (evs : list MaintEvent) :
  Forall P evs -> emits P (emit evs).
Proof. intros H st a st' evs' [= <- <- <-]. exact H. Qed.

Lemma emits_get_state (P : MaintEvent -> Prop) : emits P get_state.
Proof. intros st a st' evs [= <- <- <-]. constructor. Qed.

Lemma emits_set_users (P : MaintEvent -> Prop) (users : gmap string User.t) :
  emits P (set_users users).
Proof. intros st a st' evs [= <- <- <-]. constructor. Qed.

Lemma emits_set_maintainers (P : MaintEvent -> Prop)
    (maintainers : gmap string Maintainer.t) :
  emits P (set_maintainers maintainers).
Proof. intros st a st' evs [= <- <- <-]. constructor. Qed.

Lemma emits_panic (P : MaintEvent -> Prop) {A : Type} (why : string) :
  emits P (panic why : Resolver A).
Proof. intros st a st' evs; discriminate. Qed.

Lemma emits_for_range (P : MaintEvent -> Prop) {X : Type} (xs : list X)
    (body : X -> Resolver unit) :
  (forall x, emits P (body x)) -> emits P (for_range xs body).
Proof.
  intros Hbody. induction xs as [| x xs IH]; simpl.
  - apply emits_ret.
  - apply emits_bind; [apply Hbody | intros _; exact IH].
Qed.

Lemma emits_weaken (P Q : MaintEvent -> Prop) {A : Type} (m : Resolver A) :
  (forall e, P e -> Q e) -> emits P m -> emits Q m.
Proof.
  intros HPQ Hm st a st' evs E.
  eapply Forall_impl; [exact (Hm _ _ _ _ E) | exact HPQ].
Qed.

Ltac emits_step :=
  lazymatch goal with
  | |- emits _ (mret _) => apply emits_ret
  | |- emits _ (panic _) => apply emits_panic
  | |- emits _ get_state => apply emits_get_state
  | |- emits _ (set_users _) => apply emits_set_users
  | |- emits _ (set_maintainers _) => apply emits_set_maintainers
  | |- emits _ (emit _) => apply emits_emit; repeat constructor
  | |- emits _ (_ ≫= _) => apply emits_bind; [| intros ?]
  | |- emits _ (for_range _ _) => apply emits_for_range; intros ?
  end.

Lemma maintainer_record_emits (P : MaintEvent -> Prop) (org : Org.t)
    (user : User.t) :
  emits P (maintainer_record org user).
Proof.
  unfold maintainer_record. emits_step; [emits_step |].
  destruct (_ !! _); repeat emits_step.
Qed.

Lemma getMaintainer_emits (env : MaintEnv) (org : Org.t) (login : string) :
  emits (fun e => is_resolver_event e = true) (getMaintainer env org login).
Proof.
  unfold getMaintainer. emits_step; [emits_step |].
  destruct (_ !! _); [apply maintainer_record_emits |].
  emits_step; [emits_step |].
  destruct (cache_ReadUser env login) as [[u |] [err |]];
    try emits_step; try apply maintainer_record_emits.
  unfold maintainer_from_github. emits_step; [emits_step |].
  destruct (Users_Get _ _); [| emits_step].
  repeat (emits_step; [emits_step |]). apply maintainer_record_emits.
Qed.

Lemma grant_path_emits (env : MaintEnv) (org : Org.t) (login p : string) :
  emits (fun e => is_resolver_event e = true) (grant_path env org login p).
Proof.
  unfold grant_path. emits_step; [apply getMaintainer_emits |].
  destruct a; [| emits_step].
  unfold append_path. repeat emits_step.
Qed.

Lemma codeowners_line_emits (env : MaintEnv) (org : Org.t) (repo : Repo.t)
    (line : string) :
  emits (fun e => is_resolver_event e = true)
        (codeowners_line env org repo line).
Proof.
  unfold codeowners_line. destruct (_ || _); [emits_step |].
  destruct (Fields _); [emits_step |].
  emits_step. apply grant_path_emits.
Qed.

Lemma handleCODEOWNERS_emits (env : MaintEnv) (org : Org.t) (repo : Repo.t)
    (fc : RepositoryContent env) :
  emits (fun e => is_resolver_event e = true)
        (handleCODEOWNERS env org repo fc).
Proof.
  unfold handleCODEOWNERS. destruct (GetContent env fc); [| emits_step].
  emits_step; [| emits_step]. emits_step. apply codeowners_line_emits.
Qed.

Lemma owners_file_emits (env : MaintEnv) (org : Org.t) (repo : Repo.t)
    (entry : string * ownersFile) :
  emits (fun e => is_resolver_event e = true) (owners_file env org repo entry).
Proof. unfold owners_file. emits_step. apply grant_path_emits. Qed.

(** Every fetch of the tree walk is the fetch of an entry that passes the
    test. *)
Lemma owners_fetch_events (env : MaintEnv) (repo : Repo.t)
    (entries : list string) :
  forall files,
    Forall (fun e => exists path,
                In path entries /\ is_owners_entry path = true
                /\ e = EvHttpGet (owners_url repo path))
           (snd (fst (owners_fetch env repo entries files))).
Proof.
  induction entries as [| path rest IH]; intros files; simpl; [constructor |].
  assert (Hrest : forall evs,
             Forall (fun e => exists p, In p rest /\ is_owners_entry p = true
                                        /\ e = EvHttpGet (owners_url repo p)) evs ->
             Forall (fun e => exists p, (path = p \/ In p rest)
                                        /\ is_owners_entry p = true
                                        /\ e = EvHttpGet (owners_url repo p)) evs).
  { intros evs H. eapply Forall_impl; [exact H |].
    intros e (p & Hin & Hp & He). exists p. auto. }
  destruct (is_owners_entry path) eqn:Hentry; [| apply Hrest, IH].
  assert (Hhere : exists p, (path = p \/ In p rest)
                            /\ is_owners_entry p = true
                            /\ EvHttpGet (owners_url repo path)
                               = EvHttpGet (owners_url repo p))
    by (exists path; auto).
  destruct (http_Get env _) as [err | err | body]; simpl;
    try (repeat constructor; exact Hhere).
  destruct (yaml_Unmarshal env body) as [f | err]; simpl;
    try (repeat constructor; exact Hhere).
  specialize (IH (<[path := f]> files)).
  destruct (owners_fetch env repo rest _) as [[files' evs] res]. simpl in *.
  constructor; [exact Hhere | apply Hrest, IH].
Qed.



(** *** OWNERS *)

Lemma handleOWNERS_events (env : MaintEnv) (org : Org.t) (repo : Repo.t) :
  emits (is_owners_event repo) (handleOWNERS env org repo).
Proof.
  unfold handleOWNERS.
  apply emits_bind.
  { apply emits_emit. apply Forall_cons_2; [| apply Forall_nil_2].
    right. left. reflexivity. }
  intros _. destruct (ListCommits env repo) as [[| sha rest] | err];
    [apply emits_panic | | apply emits_ret].
  apply emits_bind.
  { apply emits_emit. apply Forall_cons_2; [| apply Forall_nil_2].
    right. right. left. eauto. }
  intros _. destruct (GetTree env repo sha) as [entries | err];
    [| emits_step].
  pose proof (owners_fetch_events env repo entries ∅) as Hfetch.
  destruct (owners_fetch env repo entries ∅) as [[files evs] res].
  simpl in Hfetch.
  apply emits_bind.
  { apply emits_emit. eapply Forall_impl; [exact Hfetch |].
    intros e (p & _ & Hp & ->). right. right. right. eauto. }
  intros _. destruct res; [emits_step |].
  apply emits_bind; [| intros _; emits_step].
  apply emits_for_range. intros entry.
  eapply emits_weaken; [| apply owners_file_emits].
  intros e He. left. exact He.
Qed.










(** *** The organization-level pass *)






















Lemma written_batches_app (evs1 evs2 : list MaintEvent) :
  written_batches (evs1 ++ evs2) = written_batches evs1 ++ written_batches evs2.
Proof.
  induction evs1 as [| e evs1 IH]; [reflexivity |].
  destruct e; simpl; rewrite IH; reflexivity.
Qed.

Lemma written_batches_no_write (evs : list MaintEvent) :
  no_write evs -> written_batches evs = [].
Proof.
  induction 1 as [| e evs He _ IH]; [reflexivity |].
  destruct e; simpl; try exact IH. exfalso. exact (He _ eq_refl).
Qed.

Lemma maintainers_repo_no_write (env : MaintEnv) (org : Org.t) (repo : Repo.t) :
  emits (fun e => forall batch, e <> EvWriteAllMaintainers batch)
        (maintainers_repo env org repo).
Proof.
  unfold maintainers_repo, establish_maintainers.
  apply emits_bind.
  - apply emits_bind.
    + apply emits_emit. apply Forall_cons_2; [| apply Forall_nil_2].
      intros batch. discriminate.
    + intros _. destruct (GetContents env repo) as [fc | err].
      * eapply emits_weaken; [| apply handleCODEOWNERS_emits].
        intros e He batch ->. discriminate He.
      * eapply emits_weaken; [| apply handleOWNERS_events].
        intros e [He | [-> | [[sha ->] | (p & _ & ->)]]] batch Heq;
          try discriminate Heq.
        subst e. discriminate He.
  - intros [err |]; [| apply emits_ret].
    apply emits_emit. apply Forall_cons_2; [| apply Forall_nil_2].
    intros batch. discriminate.
Qed.

(** What a pass that returns has done: the loop over the repositories,
    without a maintainer write, then the one write of the records of the
    accumulated map, whose result is the result of the pass. *)
Lemma handleMaintainers_returns (env : MaintEnv) (org : Org.t)
    (repos : list Repo.t) (users users' : gmap string User.t)
    (evs : list MaintEvent) (res : option error) :
  handleMaintainers env org repos users = Returns (users', evs, res) ->
  exists st evs0,
    for_range repos (maintainers_repo env org) (mkMaint users ∅)
      = Returns (tt, st, evs0)
    /\ users' = ms_users st
    /\ evs = evs0 ++ [EvWriteAllMaintainers
                        (map snd (maintainers_order env (ms_maintainers st)))]
    /\ no_write evs0
    /\ res = WriteAllMaintainers env
               (map snd (maintainers_order env (ms_maintainers st))).
Proof.
  unfold handleMaintainers.
  destruct (for_range repos _ _) as [[[[] st] evs0] |] eqn:E; [| discriminate].
  intros [= <- <- <-]. exists st, evs0. repeat split.
  exact (emits_for_range _ _ _ (maintainers_repo_no_write env org) _ _ _ _ E).
Qed.



(** ** Panics of the resolver

    Two inputs on which the source panics. *)

(** A line that holds only a carriage return (a blank line of a CRLF file)
    is not trimmed away by [" \t"], is no comment and has no field:
    [fields[1:]] panics. *)
Remark codeowners_line_carriage_return (env : MaintEnv) (org : Org.t)
    (repo : Repo.t) (st : MaintState) :
  codeowners_line env org repo (String "013"%char "") st
  = Panics "slice bounds out of range [1:0]".
Proof. reflexivity. Qed.

(** An empty commit list makes [rc[0]] panic. *)
Remark handleOWNERS_no_commit (env : MaintEnv) (org : Org.t) (repo : Repo.t)
    (st : MaintState) :
  ListCommits env repo = inl [] ->
  handleOWNERS env org repo st = Panics "index out of range [0] with length 0".
Proof.
  intros H. unfold handleOWNERS. run_unfold. rewrite H. reflexivity.
Qed.

(** C7. The blank line [handleCODEOWNERS] does not skip. In a CODEOWNERS
    file with CRLF line ends, [strings.Split(content, "\n")] leaves a
    carriage return at the end of every line, and a blank line is that
    carriage return alone: white space only, so [strings.Fields] finds no
    field in it, yet [strings.Trim(line, " \t")] does not empty it and the
    test for lines to skip lets it through. [fields[1:]] then panics: the
    blank line contributes no path because the pass is over. *)
Theorem handleCODEOWNERS_blank_line_crlf :
  Split demo_codeowners_crlf newline
  = ["/a/b/* @alice" +:+ String carriage_return "";
     String carriage_return "";
     "* @carol" +:+ String carriage_return "";
     ""]
  /\ Fields (String carriage_return "") = []
  /\ skipped_line (String carriage_return "") = false
  /\ handleCODEOWNERS demo_maint_env demo_org demo_repo demo_codeowners_crlf
       (mkMaint ∅ ∅)
     = Panics "slice bounds out of range [1:0]".
Proof. repeat split. Qed.

(** C9. The pass that does not end by the write. [istio/docs] has the
    CODEOWNERS file with CRLF line ends above. The pass over the
    organization panics in [handleCODEOWNERS] on the blank line of that
    file: the repository is not logged and skipped, the repository after it
    is not looked at, and [WriteAllMaintainers] is not called, so that the
    maintainers found in the repository before it are not written either.
    Without [istio/docs] the pass returns nil after its one write. *)
Theorem handleMaintainers_blank_line_crlf :
  handleMaintainers demo_maint_env_crlf demo_org
    [demo_repo; demo_docs_repo; demo_api_repo] ∅
  = Panics "slice bounds out of range [1:0]"
  /\ exists users' evs,
       handleMaintainers demo_maint_env_crlf demo_org
         [demo_repo; demo_api_repo] ∅
       = Returns (users', evs, None)
       /\ length (written_batches evs) = 1%nat.
Proof.
  split; [vm_compute; reflexivity |].
  destruct (handleMaintainers demo_maint_env_crlf demo_org
              [demo_repo; demo_api_repo] ∅)
    as [[[users' evs] res] |] eqn:Hrun;
    [| vm_compute in Hrun; discriminate Hrun].
  assert (Hres : res = None).
  { assert (H : match handleMaintainers demo_maint_env_crlf demo_org
                        [demo_repo; demo_api_repo] ∅ with
                | Returns (_, _, r) => r = None
                | Panics _ => False
                end) by (vm_compute; reflexivity).
    rewrite Hrun in H. exact H. }
  subst res. exists users', evs. split; [reflexivity |].
  destruct (handleMaintainers_returns _ _ _ _ _ _ _ Hrun)
    as (st & evs0 & _ & _ & -> & Hnw & _).
  rewrite written_batches_app, (written_batches_no_write _ Hnw). reflexivity.
Qed.

(* ===================================================================== *)
(** * Part III. Further properties of the syncer                          *)
(* ===================================================================== *)

(** ** Filter flags and the tests made on them *)

Lemma is_filter_token_In (t : string) :
  is_filter_token t = true ->
  In t ["issues"; "prs"; "maintainers"; "members"; "labels"; "zenhub";
        "repocomments"; "events"].
Proof.
  unfold is_filter_token. intros H.
  apply existsb_exists in H as (kv & Hin & Heq).
  apply String.eqb_eq in Heq. subst t.
  unfold filter_tokens in Hin. simpl in Hin.
  repeat (destruct Hin as [<- | Hin]; [simpl; tauto |]).
  destruct Hin.
Qed.

(** The flag constants are pairwise disjoint bits. *)
Lemma land_token_flag (t t' : string) :
  is_filter_token t = true -> is_filter_token t' = true ->
  (Z.land (token_flag t') (token_flag t) =? 0) = negb (String.eqb t' t).
Proof.
  intros Ht Ht'. apply is_filter_token_In in Ht, Ht'. simpl in Ht, Ht'.
  repeat (destruct Ht as [<- | Ht]; [| ]);
    try (destruct Ht);
    repeat (destruct Ht' as [<- | Ht']; [reflexivity |]); destruct Ht'.
Qed.

Lemma token_flag_range (t : string) :
  is_filter_token t = true -> 0 <= token_flag t < 256.
Proof.
  intros Ht. apply is_filter_token_In in Ht. simpl in Ht.
  repeat (destruct Ht as [<- | Ht]; [vm_compute; split; congruence |]).
  destruct Ht.
Qed.

Lemma lor_range (a b : Z) : 0 <= a < 256 -> 0 <= b < 256 -> 0 <= Z.lor a b < 256.
Proof.
  intros [Ha0 Ha] [Hb0 Hb]. split; [apply Z.lor_nonneg; auto |].
  destruct (Z.eq_dec (Z.lor a b) 0) as [-> | Hne]; [lia |].
  apply (Z.log2_lt_pow2 _ 8); [pose proof (Z.lor_nonneg a b); lia |].
  rewrite Z.log2_lor by assumption.
  apply Z.max_lub_lt.
  - destruct (Z.eq_dec a 0) as [-> | ?]; [reflexivity |].
    apply Z.log2_lt_pow2; lia.
  - destruct (Z.eq_dec b 0) as [-> | ?]; [reflexivity |].
    apply Z.log2_lt_pow2; lia.
Qed.

Lemma or_of_flags_range (tokens : list string) :
  forallb is_filter_token tokens = true -> 0 <= or_of_flags tokens < 256.
Proof.
  induction tokens as [| t rest IH]; simpl; intros H; [lia |].
  apply andb_prop in H as [Ht Hrest].
  apply lor_range; [apply token_flag_range, Ht | apply IH, Hrest].
Qed.

Lemma has_flag_lor (a b mask : Z) :
  has_flag (Z.lor a b) mask = has_flag a mask || has_flag b mask.
Proof.
  unfold has_flag. rewrite Z.land_lor_distr_l.
  destruct (Z.eqb_spec (Z.land a mask) 0) as [Ea | Ea],
           (Z.eqb_spec (Z.land b mask) 0) as [Eb | Eb]; simpl.
  - rewrite Ea, Eb. reflexivity.
  - rewrite Ea, Z.lor_0_l. apply negb_true_iff, Z.eqb_neq, Eb.
  - apply negb_true_iff, Z.eqb_neq. rewrite Z.lor_eq_0_iff. tauto.
  - apply negb_true_iff, Z.eqb_neq. rewrite Z.lor_eq_0_iff. tauto.
Qed.

Lemma has_flag_or_of_flags (tokens : list string) (t : string) :
  forallb is_filter_token tokens = true -> is_filter_token t = true ->
  has_flag (or_of_flags tokens) (token_flag t) = true <-> In t tokens.
Proof.
  intros Hall Ht. induction tokens as [| t' rest IH]; simpl.
  - split; [discriminate | tauto].
  - simpl in Hall. apply andb_prop in Hall as [Ht' Hrest].
    rewrite has_flag_lor, orb_true_iff, (IH Hrest).
    unfold has_flag at 1. rewrite (land_token_flag t t' Ht Ht'), negb_involutive.
    rewrite String.eqb_eq. tauto.
Qed.

Lemma ConvFilterFlags_tokens (tokens : list string) :
  tokens <> [] -> forallb is_filter_token tokens = true ->
  ConvFilterFlags (Join tokens ",") = (or_of_flags tokens, None).
Proof.
  intros Hne Hall. unfold ConvFilterFlags.
  destruct (String.eqb_spec (Join tokens ",") "") as [E | _].
  - exfalso. exact (Join_tokens_nonempty tokens Hne Hall E).
  - unfold comma. rewrite Split_Join; [| exact Hne |].
    + rewrite conv_loop_tokens by exact Hall. reflexivity.
    + apply Forall_forall. intros t Ht. apply is_filter_token_no_comma.
      rewrite forallb_forall in Hall. apply Hall.
      apply list_elem_of_In. exact Ht.
Qed.

(** X1. The flags [ConvFilterFlags] gives for a list of valid tokens pass the
    test [flags&F != 0] of the drivers for the flag [F] of a token exactly
    when that token is in the list: the order of the tokens and their
    repetition do not matter, and no bit outside the eight flags is set. For
    the empty string every flag passes the test. *)
Theorem ConvFilterFlags_has_flag (tokens : list string) (t : string) :
  tokens <> [] -> forallb is_filter_token tokens = true ->
  is_filter_token t = true ->
  (has_flag (fst (ConvFilterFlags (Join tokens ","))) (token_flag t) = true
   <-> In t tokens)
  /\ 0 <= fst (ConvFilterFlags (Join tokens ",")) < 256
  /\ has_flag (fst (ConvFilterFlags "")) (token_flag t) = true.
Proof.
  intros Hne Hall Ht. rewrite (ConvFilterFlags_tokens tokens Hne Hall). simpl.
  split; [apply has_flag_or_of_flags; assumption |].
  split; [apply or_of_flags_range, Hall |].
  apply is_filter_token_In in Ht. simpl in Ht.
  repeat (destruct Ht as [<- | Ht]; [reflexivity |]). destruct Ht.
Qed.

(** Witness of X1: ["prs,issues,prs"] passes the test of [Prs] and fails the
    test of [ZenHub]. *)
Lemma ConvFilterFlags_has_flag_witness :
  has_flag (fst (ConvFilterFlags "prs,issues,prs")) Prs = true
  /\ has_flag (fst (ConvFilterFlags "prs,issues,prs")) ZenHub = false.
Proof.
  assert (Hne : ["prs"; "issues"; "prs"] <> []) by discriminate.
  destruct (ConvFilterFlags_has_flag ["prs"; "issues"; "prs"] "prs" Hne
              eq_refl eq_refl) as ([_ Hprs] & _ & _).
  destruct (ConvFilterFlags_has_flag ["prs"; "issues"; "prs"] "zenhub" Hne
              eq_refl eq_refl) as ([Hzenhub _] & _ & _).
  split.
  - apply Hprs. simpl. tauto.
  - destruct (has_flag _ ZenHub) eqn:E; [| reflexivity].
    apply Hzenhub in E.
    simpl in E. repeat (destruct E as [E | E]; [discriminate E |]). destruct E.
Defined.

(** ** The batches of the ZenHub pass *)

Lemma pipeline_of_tracked (env : ZenHubEnv) (repo : Repo.t) (issue : Issue.t)
    (pipeline : string) :
  GetIssueData env (Repo.RepoNumber repo) (Issue.IssueNumber issue)
    = inl pipeline ->
  IssuePipeline.mk (Repo.OrgLogin repo) (Repo.RepoName repo)
    (Issue.IssueNumber issue) pipeline = pipeline_of env repo issue.
Proof. intros H. unfold pipeline_of. rewrite H. reflexivity. Qed.

(** The test [len(pipelines)%100 == 0] on a slice of at most 100 records. *)
Lemma batch_full (n : nat) :
  (n < 100)%nat ->
  if Z.of_nat (S n) mod 100 =? 0 then S n = 100%nat else (S n < 100)%nat.
Proof.
  intros Hn. destruct (Z.eqb_spec (Z.of_nat (S n) mod 100) 0) as [E | E].
  - assert (Z.of_nat (S n) = 100) by (Z.div_mod_to_equations; lia). lia.
  - assert (Z.of_nat (S n) <> 100) by (intros H; rewrite H in E; apply E; reflexivity).
    lia.
Qed.

Lemma zenhub_loop_batches (env : ZenHubEnv) (repo : Repo.t)
    (issues : list Issue.t) :
  (forall batch, WriteIssuePipelines env batch = None) ->
  Forall (tracked env repo) issues ->
  forall pipelines, (length pipelines < 100)%nat ->
    snd (zenhub_loop env repo issues pipelines) = None
    /\ lookups_of (fst (zenhub_loop env repo issues pipelines))
       = map Issue.IssueNumber issues
    /\ exists full rest,
         written_pipelines (fst (zenhub_loop env repo issues pipelines))
           = full ++ [rest]
         /\ Forall (fun batch => length batch = 100%nat) full
         /\ (length rest < 100)%nat
         /\ concat full ++ rest
            = pipelines ++ map (pipeline_of env repo) issues.
Proof.
  intros Hw Hall. induction Hall as [| i issues [p Hp] _ IH];
    intros pipelines Hlen.
  - simpl. rewrite Hw. split; [reflexivity |]. split; [reflexivity |].
    exists [], pipelines. repeat split; [constructor | exact Hlen |].
    simpl. rewrite app_nil_r. reflexivity.
  - simpl. rewrite Hp. rewrite (pipeline_of_tracked env repo i p Hp).
    pose proof (batch_full (length pipelines) Hlen) as Hfull.
    rewrite length_app. simpl. rewrite Nat.add_1_r.
    destruct (Z.of_nat (S (length pipelines)) mod 100 =? 0).
    + rewrite Hw.
      destruct (IH [] ltac:(simpl; lia)) as (Hres & Hlook & full & rest & Hwr & Hf & Hr & Hc).
      destruct (zenhub_loop env repo issues []) as [tr res].
      simpl in *. split; [exact Hres |]. split; [f_equal; exact Hlook |].
      exists ((pipelines ++ [pipeline_of env repo i]) :: full), rest.
      repeat split.
      * rewrite Hwr. reflexivity.
      * apply Forall_cons_2; [| exact Hf].
        rewrite length_app. simpl. lia.
      * exact Hr.
      * simpl. rewrite <- !app_assoc. rewrite Hc. reflexivity.
    + destruct (IH (pipelines ++ [pipeline_of env repo i]))
        as (Hres & Hlook & full & rest & Hwr & Hf & Hr & Hc).
      { rewrite length_app. simpl. lia. }
      destruct (zenhub_loop env repo issues _) as [tr res].
      simpl in *. split; [exact Hres |]. split; [f_equal; exact Hlook |].
      exists full, rest. repeat split; try assumption.
      rewrite Hc, <- app_assoc. reflexivity.
Qed.

(** X2. With every issue of the repository tracked by ZenHub and the store
    accepting the batches, [handleZenHub] looks up every issue, in order, and
    writes every pipeline exactly once and in order: full batches of 100
    records, then one last batch of fewer than 100 (empty when the number of
    issues is a multiple of 100); it returns nil. *)
Theorem handleZenHub_batches (env : ZenHubEnv) (repo : Repo.t)
    (issues : list Issue.t) :
  QueryIssuesByRepo env (Repo.OrgLogin repo) (Repo.RepoName repo)
    = inl issues ->
  (forall batch, WriteIssuePipelines env batch = None) ->
  Forall (tracked env repo) issues ->
  snd (handleZenHub env repo) = None
  /\ lookups_of (fst (handleZenHub env repo)) = map Issue.IssueNumber issues
  /\ exists full rest,
       written_pipelines (fst (handleZenHub env repo)) = full ++ [rest]
       /\ Forall (fun batch => length batch = 100%nat) full
       /\ (length rest < 100)%nat
       /\ concat full ++ rest = map (pipeline_of env repo) issues.
Proof.
  intros Hq Hw Hall. unfold handleZenHub. rewrite Hq.
  exact (zenhub_loop_batches env repo issues Hw Hall [] ltac:(simpl; lia)).
Qed.

(** Witness of X2: 250 tracked issues are written as batches of 100, 100 and
    50 records. *)
Lemma handleZenHub_batches_witness :
  snd (handleZenHub demo_zenhub_tracked demo_repo) = None
  /\ map (@length _)
         (written_pipelines (fst (handleZenHub demo_zenhub_tracked demo_repo)))
     = [100; 100; 50]%nat.
Proof.
  assert (Hall : Forall (tracked demo_zenhub_tracked demo_repo)
                   (map (fun n => Issue.mk "istio" "istio" (Z.of_nat n))
                        (seq 1 250))).
  { apply Forall_forall. intros i _. exists "Backlog". reflexivity. }
  destruct (handleZenHub_batches demo_zenhub_tracked demo_repo _ eq_refl
              (fun _ => eq_refl) Hall)
    as (Hres & _ & _).
  split; [exact Hres | vm_compute; reflexivity].
Defined.

Lemma zenhub_loop_drops (env : ZenHubEnv) (repo : Repo.t)
    (before : list Issue.t) (issue : Issue.t) (after : list Issue.t) :
  (forall batch, WriteIssuePipelines env batch = None) ->
  Forall (tracked env repo) before ->
  GetIssueData env (Repo.RepoNumber repo) (Issue.IssueNumber issue)
    = inr ErrNotFound ->
  forall pipelines, (length pipelines < 100)%nat ->
    exists dropped,
      let full :=
        written_pipelines
          (fst (zenhub_loop env repo (before ++ issue :: after) pipelines)) in
      Forall (fun batch => length batch = 100%nat) full
      /\ (length dropped < 100)%nat
      /\ concat full ++ dropped
         = pipelines ++ map (pipeline_of env repo) before.
Proof.
  intros Hw Hall Hnf. induction Hall as [| i before [p Hp] _ IH];
    intros pipelines Hlen.
  - simpl. rewrite Hnf. simpl. exists pipelines.
    repeat split; [constructor | exact Hlen | rewrite app_nil_r; reflexivity].
  - change ((i :: before) ++ issue :: after)
      with (i :: (before ++ issue :: after)).
    simpl. rewrite Hp. rewrite (pipeline_of_tracked env repo i p Hp).
    pose proof (batch_full (length pipelines) Hlen) as Hfull.
    rewrite length_app. simpl. rewrite Nat.add_1_r.
    destruct (Z.of_nat (S (length pipelines)) mod 100 =? 0).
    + rewrite Hw.
      destruct (IH [] ltac:(simpl; lia)) as (dropped & Hf & Hd & Hc).
      destruct (zenhub_loop env repo (before ++ issue :: after) [])
        as [tr res].
      simpl in *. exists dropped. repeat split.
      * apply Forall_cons_2; [| exact Hf].
        rewrite length_app. simpl. lia.
      * exact Hd.
      * rewrite <- !app_assoc. rewrite Hc. reflexivity.
    + destruct (IH (pipelines ++ [pipeline_of env repo i]))
        as (dropped & Hf & Hd & Hc).
      { rewrite length_app. simpl. lia. }
      destruct (zenhub_loop env repo (before ++ issue :: after) _)
        as [tr res].
      simpl in *. exists dropped. repeat split; try assumption.
      rewrite Hc, <- app_assoc. reflexivity.
Qed.

(** X3. When [handleZenHub] stops at an issue ZenHub does not track, the
    pipelines it has looked up since the last full batch of 100 are never
    written: what is written is full batches of 100 records only, a prefix
    of the pipelines of the issues before the untracked one, and the
    remaining ones (fewer than 100) are dropped. *)
Theorem handleZenHub_not_found_drops (env : ZenHubEnv) (repo : Repo.t)
    (before : list Issue.t) (issue : Issue.t) (after : list Issue.t) :
  QueryIssuesByRepo env (Repo.OrgLogin repo) (Repo.RepoName repo)
    = inl (before ++ issue :: after) ->
  (forall batch, WriteIssuePipelines env batch = None) ->
  Forall (tracked env repo) before ->
  GetIssueData env (Repo.RepoNumber repo) (Issue.IssueNumber issue)
    = inr ErrNotFound ->
  exists dropped,
    let full := written_pipelines (fst (handleZenHub env repo)) in
    Forall (fun batch => length batch = 100%nat) full
    /\ (length dropped < 100)%nat
    /\ concat full ++ dropped = map (pipeline_of env repo) before.
Proof.
  intros Hq Hw Hall Hnf. unfold handleZenHub. rewrite Hq.
  exact (zenhub_loop_drops env repo before issue after Hw Hall Hnf []
           ltac:(simpl; lia)).
Qed.

(** Witness of X3: issue 150 of 250 is untracked; the pipelines of the
    issues 1 to 100 are written, those of the issues 101 to 149 are not. *)
Lemma handleZenHub_not_found_drops_witness :
  exists dropped : list IssuePipeline.t,
    length dropped = 49%nat
    /\ map (@length _)
           (written_pipelines (fst (handleZenHub demo_zenhub_gap demo_repo)))
       = [100%nat].
Proof.
  set (mk := fun n => Issue.mk "istio" "istio" (Z.of_nat n)).
  assert (Hall : Forall (tracked demo_zenhub_gap demo_repo)
                   (map mk (seq 1 149))).
  { apply Forall_forall. intros i Hi.
    apply list_elem_of_In, in_map_iff in Hi as (n & <- & Hn).
    apply in_seq in Hn. exists "Backlog". simpl.
    destruct (Z.eqb_spec (Z.of_nat n) 150); [lia | reflexivity]. }
  destruct (handleZenHub_not_found_drops demo_zenhub_gap demo_repo
              (map mk (seq 1 149)) (mk 150%nat) (map mk (seq 151 100))
              eq_refl (fun _ => eq_refl) Hall eq_refl)
    as (dropped & _ & _ & Hc).
  exists dropped. split; [| vm_compute; reflexivity].
  apply (f_equal (@length _)) in Hc.
  rewrite length_app, length_map, length_map, length_seq in Hc.
  assert (Hfull : length (concat (written_pipelines
                    (fst (handleZenHub demo_zenhub_gap demo_repo)))) = 100%nat)
    by (vm_compute; reflexivity).
  rewrite Hfull in Hc. lia.
Defined.

(** ** What a page of pull requests writes *)



(** The calls collected by the loop over a page are cache reads and fetches
    only. *)
Lemma pull_request_step_no_write (env : PullRequestEnv) (repo : Repo.t)
    (acc : PullRequestAcc env) (pr : GhPullRequest env) :
  Forall (fun e => is_pull_request_write e = false) (acc_trace acc) ->
  match pull_request_step env repo acc pr with
  | inl acc' => Forall (fun e => is_pull_request_write e = false) (acc_trace acc')
  | inr (acc', _) =>
      Forall (fun e => is_pull_request_write e = false) (acc_trace acc')
  end.
Proof.
  intros H. unfold pull_request_step.
  destruct (match fst (cache_ReadPullRequest env _ _ _) with
            | Some _ => _ | None => _ end).
  - simpl. apply Forall_app. split; [exact H |].
    apply Forall_cons_2; [reflexivity | apply Forall_nil_2].
  - destruct (fetchReviews env repo _) as [rpages rerr].
    destruct (foldl _ _ rpages) as [reviews users1].
    assert (H1 : Forall (fun e : PullRequestEvent env =>
                           is_pull_request_write e = false)
                   ((acc_trace acc ++ [EvReadPullRequest (GetNumber env pr)])
                      ++ [EvFetchReviews (GetNumber env pr)])).
    { apply Forall_app. split; [apply Forall_app; split; [exact H |] |];
        (apply Forall_cons_2; [reflexivity | apply Forall_nil_2]). }
    destruct rerr; [exact H1 |].
    destruct (fetchFiles env repo _) as [fpages ferr].
    assert (H2 : Forall (fun e : PullRequestEvent env =>
                           is_pull_request_write e = false)
                   (((acc_trace acc ++ [EvReadPullRequest (GetNumber env pr)])
                       ++ [EvFetchReviews (GetNumber env pr)])
                      ++ [EvFetchFiles (GetNumber env pr)])).
    { apply Forall_app. split; [exact H1 |].
      apply Forall_cons_2; [reflexivity | apply Forall_nil_2]. }
    destruct ferr; [exact H2 |].
    destruct (ConvertPullRequest env _ _ pr _). exact H2.
Qed.

Lemma pull_request_loop_no_write (env : PullRequestEnv) (repo : Repo.t)
    (prs : list (GhPullRequest env)) :
  forall acc,
    Forall (fun e => is_pull_request_write e = false) (acc_trace acc) ->
    match pull_request_loop env repo acc prs with
    | inl acc' =>
        Forall (fun e => is_pull_request_write e = false) (acc_trace acc')
    | inr (acc', _) =>
        Forall (fun e => is_pull_request_write e = false) (acc_trace acc')
    end.
Proof.
  induction prs as [| pr prs IH]; intros acc H; simpl; [exact H |].
  pose proof (pull_request_step_no_write env repo acc pr H) as Hstep.
  destruct (pull_request_step env repo acc pr) as [acc' | [acc' err]].
  - apply IH, Hstep.
  - exact Hstep.
Qed.







Lemma pull_request_step_unfetchable (env : PullRequestEnv) (repo : Repo.t)
    (acc : PullRequestAcc env) (pr : GhPullRequest env) :
  up_to_date env repo pr = false -> ~ fetchable env repo pr ->
  exists acc' err, pull_request_step env repo acc pr = inr (acc', err).
Proof.
  intros Hup Hnf. unfold pull_request_step. fold (up_to_date env repo pr).
  rewrite Hup. unfold fetchable in Hnf.
  destruct (fetchReviews env repo _) as [rpages rerr].
  destruct (foldl _ _ rpages) as [reviews users1].
  destruct rerr as [err |]; [eexists _, _; reflexivity |].
  destruct (fetchFiles env repo _) as [fpages ferr].
  destruct ferr as [err |]; [eexists _, _; reflexivity |].
  exfalso. apply Hnf. split; reflexivity.
Qed.

Lemma pull_request_loop_unfetchable (env : PullRequestEnv) (repo : Repo.t)
    (prs : list (GhPullRequest env)) :
  Exists (fun pr => up_to_date env repo pr = false /\ ~ fetchable env repo pr)
         prs ->
  forall acc,
  exists acc' err, pull_request_loop env repo acc prs = inr (acc', err).
Proof.
  induction 1 as [pr prs [Hup Hnf] | pr prs _ IH]; intros acc; simpl.
  - destruct (pull_request_step_unfetchable env repo acc pr Hup Hnf)
      as (acc' & err & ->). eexists _, _; reflexivity.
  - destruct (pull_request_step env repo acc pr) as [acc1 | [acc1 err]].
    + apply IH.
    + eexists _, _; reflexivity.
Qed.

(** X5. When the fetch of the reviews or of the files of some stale pull
    request of a page fails, the callback of [handlePullRequests] returns an
    error and writes nothing: neither the pull requests nor the reviews it
    has converted before the failure reach the store. *)
Theorem pull_requests_page_fetch_failure (env : PullRequestEnv) (repo : Repo.t)
    (users : gmap string User.t) (prs : list (GhPullRequest env)) :
  Exists (fun pr => up_to_date env repo pr = false /\ ~ fetchable env repo pr)
         prs ->
  (exists err, snd (pull_requests_page env repo users prs) = Some err)
  /\ Forall (fun e => is_pull_request_write e = false)
            (snd (fst (pull_requests_page env repo users prs))).
Proof.
  intros Hbad. unfold pull_requests_page.
  pose proof (pull_request_loop_no_write env repo prs (mkAcc [] [] users [])
                (Forall_nil_2 _)) as Hnw.
  destruct (pull_request_loop_unfetchable env repo prs Hbad
              (mkAcc [] [] users [])) as (acc' & err & Hloop).
  rewrite Hloop in Hnw |- *. simpl. split; [exists err; reflexivity | exact Hnw].
Qed.

(** Witness of X5: the file listing is down; the stale pull request 2 stops
    the page after three calls, none of them a write. *)
Lemma pull_requests_page_fetch_failure_witness :
  snd (pull_requests_page demo_pr_env_no_files demo_repo ∅
         [(1, mkTime 50 0 0); (2, mkTime 60 0 0)])
  = Some (Upstream "502 Bad Gateway")
  /\ Forall (fun e => is_pull_request_write e = false)
            (snd (fst (pull_requests_page demo_pr_env_no_files demo_repo ∅
                         [(1, mkTime 50 0 0); (2, mkTime 60 0 0)]))).
Proof.
  assert (Hbad : Exists (fun pr =>
                   up_to_date demo_pr_env_no_files demo_repo pr = false
                   /\ ~ fetchable demo_pr_env_no_files demo_repo pr)
                   [(1, mkTime 50 0 0); (2, mkTime 60 0 0)]).
  { apply Exists_cons_tl, Exists_cons_hd. split; [reflexivity |].
    intros [_ H]. discriminate H. }
  destruct (pull_requests_page_fetch_failure demo_pr_env_no_files demo_repo ∅
              _ Hbad) as [_ Hnw].
  split; [reflexivity | exact Hnw].
Defined.

(** ** What a windowed pass leaves alone, and how passes chain *)

Lemma getField_setField_other (fld fld' : ActivityField) (v : Time)
    (act : BotActivity.t) :
  fld' <> fld -> getField fld' (setField fld v act) = getField fld' act.
Proof. intros H. destruct fld, fld'; try reflexivity; congruence. Qed.

Lemma advance_other (fld fld' : ActivityField) (prior start : Time)
    (act : BotActivity.t) :
  fld' <> fld ->
  getField fld' (fst (advance fld prior start act)) = getField fld' act.
Proof.
  intros H. unfold advance. destruct (decide _); simpl; [| reflexivity].
  apply getField_setField_other, H.
Qed.

Lemma advance_succeeds (fld : ActivityField) (prior start : Time)
    (act : BotActivity.t) :
  snd (advance fld prior start act) = None.
Proof. unfold advance. destruct (decide _); reflexivity. Qed.

Lemma bookmark_default (fld : ActivityField) (tbl : ActivityTable)
    (repo : Repo.t) :
  getField fld
    (default (BotActivity.mk (Repo.OrgLogin repo) (Repo.RepoName repo)
                zeroTime zeroTime zeroTime)
             (tbl !! (Repo.OrgLogin repo, Repo.RepoName repo)))
  = bookmark fld tbl repo.
Proof.
  unfold bookmark. destruct (tbl !! _); [reflexivity |].
  destruct fld; reflexivity.
Qed.

(** X6. A pass of [handleActivity] touches one field of one record: against
    the table its callback left, the record of every other repository is
    unchanged and, in the record of the repository, so are the two bookmarks
    of the other entity kinds; this holds whatever the store and the callback
    answer. *)
Theorem handleActivity_frame
    (pass : ActivityPass) (repo : Repo.t)
    (cb : Repo.t -> Time -> ActivityTable -> ActivityTable * option error)
    (fld : ActivityField) (tbl : ActivityTable) :
  let tbl1 := fst (cb repo (prior_read pass fld tbl repo) tbl) in
  let tbl2 := fst (fst (handleActivity pass repo cb fld tbl)) in
  (forall key, key <> (Repo.OrgLogin repo, Repo.RepoName repo) ->
               tbl2 !! key = tbl1 !! key)
  /\ (forall fld', fld' <> fld ->
                   bookmark fld' tbl2 repo = bookmark fld' tbl1 repo).
Proof.
  intros tbl1 tbl2. subst tbl1 tbl2.
  destruct (handleActivity_unfold pass repo cb fld tbl) as (since & Hs & ->).
  rewrite prior_read_since in Hs. subst since. cbv zeta.
  destruct (cb repo _ tbl) as [tbl1 [err |]]; simpl; [split; reflexivity |].
  unfold UpdateBotActivity.
  destruct (updateFault pass); simpl; [split; reflexivity |].
  set (cur := default _ (tbl1 !! _)).
  pose proof (advance_succeeds fld (prior_read pass fld tbl repo) (now pass) cur)
    as Hok.
  pose proof (fun fld' =>
                advance_other fld fld' (prior_read pass fld tbl repo)
                  (now pass) cur) as Hother.
  destruct (advance fld _ (now pass) cur) as [act' oerr]. simpl in Hok, Hother.
  subst oerr. simpl. split.
  - intros key Hkey. apply lookup_insert_ne. congruence.
  - intros fld' Hfld. unfold bookmark at 1. rewrite lookup_insert_eq. simpl.
    rewrite (Hother fld' Hfld). apply bookmark_default.
Qed.

(** X7. Passes chain: after a pass that read its bookmark, whose callback
    succeeded without the field being moved meanwhile and whose update went
    through, the next pass over the same field hands its callback the start
    time of the first pass as the lower bound. *)
Theorem handleActivity_consecutive
    (pass1 pass2 : ActivityPass) (repo : Repo.t)
    (cb1 cb2 : Repo.t -> Time -> ActivityTable -> ActivityTable * option error)
    (fld : ActivityField) (tbl tbl1 : ActivityTable)
    (Hread1 : readFault pass1 = None)
    (Hupdate1 : updateFault pass1 = None)
    (Hcb1 : cb1 repo (bookmark fld tbl repo) tbl = (tbl1, None))
    (Hquiet : bookmark fld tbl1 repo = bookmark fld tbl repo)
    (Hread2 : readFault pass2 = None) :
  let tbl2 := fst (fst (handleActivity pass1 repo cb1 fld tbl)) in
  bookmark fld tbl2 repo = now pass1
  /\ exists rest,
       snd (fst (handleActivity pass2 repo cb2 fld tbl2))
       = EvReadBotActivity (Repo.OrgLogin repo) (Repo.RepoName repo)
         :: EvCallback (now pass1) :: rest.
Proof.
  intros tbl2.
  assert (Hmark : bookmark fld tbl2 repo = now pass1).
  { subst tbl2.
    destruct (handleActivity_unfold pass1 repo cb1 fld tbl) as (since & Hs & ->).
    rewrite prior_read_since in Hs. unfold prior_read in Hs.
    rewrite Hread1 in Hs. subst since. cbv zeta.
    rewrite Hcb1, Hupdate1. unfold UpdateBotActivity.
    set (cur := default _ (tbl1 !! _)).
    assert (Hcur : getField fld cur = bookmark fld tbl repo)
      by (subst cur; rewrite bookmark_default; exact Hquiet).
    rewrite (proj1 (advance_guard fld _ (now pass1) cur) Hcur). simpl.
    unfold bookmark. rewrite lookup_insert_eq. simpl.
    apply getField_setField. }
  split; [exact Hmark |].
  destruct (handleActivity_unfold pass2 repo cb2 fld tbl2) as (since & Hs & ->).
  rewrite prior_read_since in Hs. unfold prior_read in Hs.
  rewrite Hread2, Hmark in Hs. subst since. cbv zeta.
  destruct (cb2 repo (now pass1) tbl2) as [tbl3 [err |]];
    [eexists; reflexivity |].
  destruct (UpdateBotActivity _ tbl3 _ _ _) as [tbl4 [err |]];
    eexists; reflexivity.
Qed.

(** Witness of X7: a pass at time 100 over a bookmark recorded at 50, then
    another pass: its callback is asked for what changed since 100. *)
Lemma handleActivity_consecutive_witness :
  exists rest,
    snd (fst (handleActivity demo_pass demo_repo demo_cb FLastIssueSyncStart
                (fst (fst (handleActivity demo_pass demo_repo demo_cb
                             FLastIssueSyncStart demo_table)))))
    = EvReadBotActivity "istio" "istio" :: EvCallback (mkTime 100 0 0) :: rest.
Proof.
  destruct (handleActivity_consecutive demo_pass demo_pass demo_repo
              demo_cb demo_cb FLastIssueSyncStart demo_table demo_table
              eq_refl eq_refl eq_refl eq_refl eq_refl)
    as (_ & rest & Hrest).
  exists rest. exact Hrest.
Defined.

(** Witness of X6: a pass over the issue bookmark leaves the issue-comment
    bookmark of the repository at the zero time it had. *)
Lemma handleActivity_frame_witness :
  bookmark FLastIssueCommentSyncStart
    (fst (fst (handleActivity demo_pass demo_repo demo_cb FLastIssueSyncStart
                 demo_table)))
    demo_repo
  = zeroTime.
Proof.
  destruct (handleActivity_frame demo_pass demo_repo demo_cb
              FLastIssueSyncStart demo_table) as [_ Hfields].
  rewrite (Hfields FLastIssueCommentSyncStart) by discriminate.
  reflexivity.
Defined.

(** ** The flush of the registry does not depend on the map order *)

Lemma pushUsers_written (entries : list (string * User.t)) (batch : list User.t) :
  written_users (flat_map (fun kv => backfill_calls (snd kv)) entries
                   ++ [EvWriteUsers batch]) = [batch].
Proof.
  induction entries as [| kv entries IH]; simpl; [reflexivity |].
  unfold backfill_calls at 1. destruct (String.eqb _ _); simpl; exact IH.
Qed.

Lemma pushUsers_looked_up (entries : list (string * User.t))
    (batch : list User.t) :
  looked_up (flat_map (fun kv => backfill_calls (snd kv)) entries
               ++ [EvWriteUsers batch])
  = flat_map (fun kv => if String.eqb (User.Name (snd kv)) ""
                        then [User.UserLogin (snd kv)] else [])
             entries.
Proof.
  induction entries as [| kv entries IH]; simpl; [reflexivity |].
  unfold backfill_calls at 1. destruct (String.eqb _ _); simpl; rewrite IH;
    reflexivity.
Qed.

(** X8. [pushUsers] ranges over the registry in an order the Go runtime
    chooses; whatever the order, it makes exactly one [WriteUsers] call, the
    batch holds the same records (up to their order), the same logins are
    looked up at GitHub, namely the logins of the records without a name, and
    a record with a name is written as it is. *)
Theorem pushUsers_any_order
    (api : UsersAPI) (WriteUsers : list User.t -> option error)
    (order1 order2 : range_order User.t) (users : gmap string User.t) :
  valid_range order1 -> valid_range order2 ->
  exists batch1 batch2,
    written_users (fst (pushUsers api WriteUsers order1 users)) = [batch1]
    /\ written_users (fst (pushUsers api WriteUsers order2 users)) = [batch2]
    /\ batch1 ≡ₚ batch2
    /\ looked_up (fst (pushUsers api WriteUsers order1 users))
       ≡ₚ looked_up (fst (pushUsers api WriteUsers order2 users))
    /\ (forall login,
          In login (looked_up (fst (pushUsers api WriteUsers order1 users)))
          <-> exists k u, users !! k = Some u /\ User.UserLogin u = login
                          /\ User.Name u = "")
    /\ (forall k u, users !! k = Some u -> User.Name u <> "" -> In u batch1).
Proof.
  intros H1 H2. unfold pushUsers. simpl.
  exists (map (fun kv => backfill api (snd kv)) (order1 users)),
         (map (fun kv => backfill api (snd kv)) (order2 users)).
  rewrite !pushUsers_written, !pushUsers_looked_up.
  assert (H12 : order1 users ≡ₚ order2 users) by (rewrite (H1 _), (H2 _); reflexivity).
  split; [reflexivity |]. split; [reflexivity |].
  split; [apply Permutation_map, H12 |].
  split; [apply Permutation_flat_map, H12 |].
  split.
  - intros login. rewrite in_flat_map. split.
    + intros ([k u] & Hin & Hlogin). simpl in Hlogin.
      destruct (String.eqb_spec (User.Name u) "") as [Hname | _];
        [| destruct Hlogin].
      destruct Hlogin as [<- | []]. exists k, u. split; [| auto].
      apply elem_of_map_to_list. rewrite <- (H1 users).
      apply list_elem_of_In, Hin.
    + intros (k & u & Hk & <- & Hname). exists (k, u). split.
      * apply list_elem_of_In. rewrite (H1 users).
        apply elem_of_map_to_list, Hk.
      * simpl. rewrite Hname. simpl. auto.
  - intros k u Hk Hname. apply in_map_iff. exists (k, u). split.
    + simpl. unfold backfill.
      destruct (String.eqb_spec (User.Name u) ""); [contradiction | reflexivity].
    + apply list_elem_of_In. rewrite (H1 users).
      apply elem_of_map_to_list, Hk.
Qed.

(** Witness of X8: a registry of a stub and a full record, flushed in the
    order of the map and in the opposite order. *)
Lemma pushUsers_any_order_witness :
  let users : gmap string User.t :=
    {[ "alice" := User.mk "alice" "" ""; "bob" := User.mk "bob" "Bob" "" ]} in
  exists batch1 batch2,
    written_users (fst (pushUsers demo_users_api (fun _ => None)
                          map_to_list users)) = [batch1]
    /\ written_users (fst (pushUsers demo_users_api (fun _ => None)
                             (fun m => reverse (map_to_list m)) users))
       = [batch2]
    /\ batch1 ≡ₚ batch2
    /\ In (User.mk "bob" "Bob" "") batch1.
Proof.
  intros users.
  assert (Hrev : valid_range (fun m : gmap string User.t =>
                                reverse (map_to_list m))).
  { intros m. apply reverse_Permutation. }
  destruct (pushUsers_any_order demo_users_api (fun _ => None)
              map_to_list (fun m => reverse (map_to_list m)) users
              (fun m => reflexivity (map_to_list m)) Hrev)
    as (batch1 & batch2 & Hw1 & Hw2 & Hperm & _ & _ & Hnamed).
  exists batch1, batch2. repeat split; try assumption.
  apply (Hnamed "bob"); [reflexivity | discriminate].
Defined.

(** ** The sources of a maintainer and the invariants of the pass *)

Lemma getMaintainer_run (env : MaintEnv) (org : Org.t) (login : string)
    (st : MaintState) :
  getMaintainer env org login st =
    match ms_users st !! login with
    | Some user =>
        Returns (inl (User.UserLogin user),
                 mkMaint (ms_users st)
                   (ensure_record org (User.UserLogin user) (ms_maintainers st)),
                 [])
    | None =>
        match cache_ReadUser env login with
        | (_, Some err) =>
            Returns (inr (Errorf
                       "unable to read information from storage for user %s: %v"
                       [AStr login; AErr err]),
                     st, [EvCacheReadUser login])
        | (Some user, None) =>
            Returns (inl (User.UserLogin user),
                     mkMaint (ms_users st)
                       (ensure_record org (User.UserLogin user)
                          (ms_maintainers st)),
                     [EvCacheReadUser login])
        | (None, None) =>
            match Users_Get (users_api env) login with
            | inr err =>
                Returns (inr (Errorf
                           "unable to read information from GitHub on user %s: %v"
                           [AStr login; AErr err]),
                         st, [EvCacheReadUser login; EvGithubUsersGet login])
            | inl u =>
                let user := ConvertUser (users_api env) u in
                Returns (inl (User.UserLogin user),
                         mkMaint (<[User.UserLogin user := user]> (ms_users st))
                           (ensure_record org (User.UserLogin user)
                              (ms_maintainers st)),
                         [EvCacheReadUser login; EvGithubUsersGet login])
            end
        end
    end.
Proof.
  unfold getMaintainer.
  change (get_state ≫= ?f) with (resolver_bind f get_state).
  unfold resolver_bind at 1, get_state at 1.
  destruct (ms_users st !! login) as [u |] eqn:Hu.
  - rewrite maintainer_record_run. reflexivity.
  - run_unfold. destruct st as [users maintainers].
    destruct (cache_ReadUser env login) as [[u |] [err |]]; try reflexivity.
    + rewrite maintainer_record_run. reflexivity.
    + unfold maintainer_from_github. run_unfold.
      destruct (Users_Get (users_api env) login) as [g | err]; [| reflexivity].
      rewrite maintainer_record_run. reflexivity.
Qed.

(** X9. [getMaintainer] asks its sources in turn and stops at the first that
    knows the login: a login of the registry costs no call, the cache is read
    only for a login the registry lacks, GitHub is asked only when the cache
    has answered with neither a user nor an error. It never panics. Only a
    user fetched from GitHub is added to the registry (a user found in the
    cache is not); a failed resolution leaves the registry and the maintainer
    map as they were; a successful one returns a key that has a record in the
    maintainer map and changes no path list. *)
Theorem getMaintainer_sources (env : MaintEnv) (org : Org.t) (login : string)
    (st : MaintState) :
  exists r st' evs,
    getMaintainer env org login st = Returns (r, st', evs)
    /\ (evs = [] <-> is_Some (ms_users st !! login))
    /\ (evs = [] \/ evs = [EvCacheReadUser login]
        \/ evs = [EvCacheReadUser login; EvGithubUsersGet login])
    /\ (In (EvGithubUsersGet login) evs ->
        cache_ReadUser env login = (None, None))
    /\ (~ In (EvGithubUsersGet login) evs -> ms_users st' = ms_users st)
    /\ (forall err, r = inr err -> st' = st)
    /\ (forall key, r = inl key ->
          is_Some (ms_maintainers st' !! key)
          /\ forall k, paths_of (ms_maintainers st') k
                       = paths_of (ms_maintainers st) k).
Proof.
  rewrite getMaintainer_run.
  destruct (ms_users st !! login) as [u |] eqn:Hu.
  - eexists _, _, _. split; [reflexivity |].
    split; [split; eauto |]. split; [auto |].
    split; [intros [] |]. split; [reflexivity |].
    split; [discriminate |]. intros key [= <-]. cbn [ms_maintainers].
    split; [apply ensure_record_is_Some | apply paths_of_ensure_record].
  - assert (Hnone : forall evs : list MaintEvent,
               evs <> [] -> (evs = [] <-> is_Some (@None User.t))).
    { intros evs Hne. split; [contradiction | intros [? ?]; discriminate]. }
    destruct (cache_ReadUser env login) as [[u |] [err |]] eqn:Hc.
    + eexists _, _, _. split; [reflexivity |].
      split; [apply Hnone; discriminate |]. split; [auto |].
      split; [simpl; intuition discriminate |].
      split; [reflexivity |]. split; [reflexivity |]. discriminate.
    + eexists _, _, _. split; [reflexivity |].
      split; [apply Hnone; discriminate |]. split; [auto |].
      split; [simpl; intuition discriminate |].
      split; [reflexivity |]. split; [discriminate |].
      intros key [= <-]. cbn [ms_maintainers].
      split; [apply ensure_record_is_Some | apply paths_of_ensure_record].
    + eexists _, _, _. split; [reflexivity |].
      split; [apply Hnone; discriminate |]. split; [auto |].
      split; [simpl; intuition discriminate |].
      split; [reflexivity |]. split; [reflexivity |]. discriminate.
    + destruct (Users_Get (users_api env) login) as [g | err].
      * eexists _, _, _. split; [reflexivity |].
        split; [apply Hnone; discriminate |]. split; [auto |].
        split; [reflexivity |].
        split; [intros H; exfalso; apply H; simpl; auto |].
        split; [discriminate |].
        intros key [= <-]. cbn [ms_maintainers].
        split; [apply ensure_record_is_Some | apply paths_of_ensure_record].
      * eexists _, _, _. split; [reflexivity |].
        split; [apply Hnone; discriminate |]. split; [auto |].
        split; [reflexivity |].
        split; [reflexivity |]. split; [reflexivity |]. discriminate.
Qed.

(** Witness of X9: ["bob"] is known to the cache: one cache read, no GitHub
    call, and the registry stays empty. *)
Lemma getMaintainer_sources_witness :
  exists r st' evs,
    getMaintainer demo_maint_env demo_org "bob" (mkMaint ∅ ∅)
      = Returns (r, st', evs)
    /\ evs = [EvCacheReadUser "bob"]
    /\ ms_users st' = ∅.
Proof.
  destruct (getMaintainer_sources demo_maint_env demo_org "bob" (mkMaint ∅ ∅))
    as (r & st' & evs & Hrun & _ & _ & _ & Hreg & _).
  exists r, st', evs. split; [exact Hrun |].
  assert (Hevs : evs = [EvCacheReadUser "bob"]).
  { vm_compute in Hrun. injection Hrun as _ _ <-. reflexivity. }
  split; [exact Hevs |]. apply Hreg. rewrite Hevs.
  intros [H | []]. discriminate H.
Defined.

Lemma preserves_ret (I : MaintState -> Prop) {A : Type} (a : A) :
  preserves I (mret a : Resolver A).
Proof. intros st b st' evs H [= <- <- <-]. exact H. Qed.

Lemma preserves_bind (I : MaintState -> Prop) {A B : Type}
    (m : Resolver A) (f : A -> Resolver B) :
  preserves I m -> (forall a, preserves I (f a)) -> preserves I (m ≫= f).
Proof.
  intros Hm Hf st b st' evs HI.
  change (m ≫= f) with (resolver_bind f m). unfold resolver_bind.
  destruct (m st) as [[[a st1] evs1] |] eqn:E1; [| discriminate].
  destruct (f a st1) as [[[b' st2] evs2] |] eqn:E2; [| discriminate].
  intros [= <- <- <-].
  exact (Hf _ _ _ _ _ (Hm _ _ _ _ HI E1) E2).
Qed.

Lemma preserves_emit (I : MaintState -> Prop) (evs : list MaintEvent) :
  preserves I (emit evs).
Proof. intros st a st' evs' H [= <- <- <-]. exact H. Qed.

Lemma preserves_panic (I : MaintState -> Prop) {A : Type} (why : string) :
  preserves I (panic why : Resolver A).
Proof. intros st a st' evs _; discriminate. Qed.

Lemma preserves_for_range (I : MaintState -> Prop) {X : Type} (xs : list X)
    (body : X -> Resolver unit) :
  (forall x, In x xs -> preserves I (body x)) ->
  preserves I (for_range xs body).
Proof.
  induction xs as [| x xs IH]; intros Hbody; simpl.
  - apply preserves_ret.
  - apply preserves_bind; [apply Hbody; left; reflexivity |].
    intros _. apply IH. intros y Hy. apply Hbody. right. exact Hy.
Qed.

Ltac preserves_step :=
  lazymatch goal with
  | |- preserves _ (mret _) => apply preserves_ret
  | |- preserves _ (panic _) => apply preserves_panic
  | |- preserves _ (emit _) => apply preserves_emit
  | |- preserves _ (_ ≫= _) => apply preserves_bind; [| intros ?]
  | |- preserves _ (for_range _ _) => apply preserves_for_range; intros ? ?
  end.

Lemma append_assoc (s t u : string) : (s +:+ t) +:+ u = s +:+ (t +:+ u).
Proof.
  induction s as [| c s IH]; [reflexivity |].
  rewrite !append_cons, IH. reflexivity.
Qed.

Lemma under_repo_path (names : list string) (repo : Repo.t) (path : string) :
  In (Repo.RepoName repo) names ->
  under_repo names (Repo.RepoName repo +:+ "/" +:+ path).
Proof.
  intros Hin. exists (Repo.RepoName repo). split; [exact Hin |].
  rewrite <- append_assoc. apply HasPrefix_append.
Qed.

(** The maintainer map after [getMaintainer] has made sure of a record for
    [key] and [p] has been appended to its paths. *)
Lemma maintainer_ok_step (org : Org.t) (names : list string) (key p : string)
    (maintainers : gmap string Maintainer.t) :
  under_repo names p ->
  (forall k m, maintainers !! k = Some m -> maintainer_ok org names k m) ->
  forall k m,
    alter (fun m => Maintainer.mk (Maintainer.OrgLogin m)
                      (Maintainer.UserLogin m) (Maintainer.Paths m ++ [p]))
          key (ensure_record org key maintainers) !! k = Some m ->
    maintainer_ok org names k m.
Proof.
  intros Hp Hall k m.
  assert (Hrec : forall k m, ensure_record org key maintainers !! k = Some m ->
                             maintainer_ok org names k m).
  { intros k' m'. unfold ensure_record.
    destruct (maintainers !! key) eqn:E; [apply Hall |].
    destruct (decide (key = k')) as [<- | Hne].
    - rewrite lookup_insert_eq. intros [= <-].
      repeat split. constructor.
    - rewrite lookup_insert_ne by exact Hne. apply Hall. }
  destruct (decide (key = k)) as [<- | Hne].
  - rewrite lookup_alter_eq.
    destruct (ensure_record org key maintainers !! key) as [m0 |] eqn:E;
      [| discriminate].
    simpl. intros [= <-]. destruct (Hrec _ _ E) as (H1 & H2 & H3).
    repeat split; simpl; [exact H1 | exact H2 |].
    apply Forall_app. split; [exact H3 |].
    apply Forall_cons_2; [exact Hp | apply Forall_nil_2].
  - rewrite lookup_alter_ne by exact Hne. apply Hrec.
Qed.

Lemma grant_path_preserves (env : MaintEnv) (org : Org.t)
    (names : list string) (users0 : gmap string User.t) (login p : string) :
  under_repo names p ->
  preserves (resolver_inv env org names users0) (grant_path env org login p).
Proof.
  intros Hp st [] st' evs (Hm & Hk & Hdom & Hsub). unfold grant_path.
  change (getMaintainer env org login ≫= ?f)
    with (resolver_bind f (getMaintainer env org login)).
  unfold resolver_bind. rewrite getMaintainer_run.
  assert (Hsame : forall key,
             resolver_inv env org names users0
               (mkMaint (ms_users st)
                  (alter (fun m => Maintainer.mk (Maintainer.OrgLogin m)
                                     (Maintainer.UserLogin m)
                                     (Maintainer.Paths m ++ [p]))
                         key (ensure_record org key (ms_maintainers st))))).
  { intros key. split; [| split; [| split]]; cbn [ms_users ms_maintainers];
      [| exact Hk | exact Hdom | exact Hsub].
    apply maintainer_ok_step; assumption. }
  destruct (ms_users st !! login) as [u |] eqn:Hu.
  - unfold append_path. run_unfold. intros [= <- <-].
    cbn [ms_users ms_maintainers]. apply Hsame.
  - destruct (cache_ReadUser env login) as [[u |] [err |]].
    + run_unfold. intros [= <- <-]. exact (conj Hm (conj Hk (conj Hdom Hsub))).
    + unfold append_path. run_unfold. intros [= <- <-].
      cbn [ms_users ms_maintainers]. apply Hsame.
    + run_unfold. intros [= <- <-]. exact (conj Hm (conj Hk (conj Hdom Hsub))).
    + destruct (Users_Get (users_api env) login) as [g | err] eqn:Hg.
      * unfold append_path. run_unfold. cbv zeta. intros [= <- <-].
        cbn [ms_users ms_maintainers].
        split; [| split; [| split]]; cbn [ms_users ms_maintainers].
        -- apply maintainer_ok_step; assumption.
        -- intros H0. apply keyed_by_login_insert, Hk, H0.
        -- intros k Hk0.
           destruct (decide (User.UserLogin (ConvertUser (users_api env) g) = k))
             as [<- | Hne].
           ++ rewrite lookup_insert_eq. eauto.
           ++ rewrite lookup_insert_ne by exact Hne. apply Hdom, Hk0.
        -- intros Hf. rewrite (Hf _ _ Hg).
           apply insert_subseteq_r; [| apply Hsub, Hf].
           eapply lookup_weaken_None; [exact Hu | apply Hsub, Hf].
      * run_unfold. intros [= <- <-]. exact (conj Hm (conj Hk (conj Hdom Hsub))).
Qed.

Lemma maintainers_repo_preserves (env : MaintEnv) (org : Org.t)
    (names : list string) (users0 : gmap string User.t) (repo : Repo.t) :
  In (Repo.RepoName repo) names ->
  preserves (resolver_inv env org names users0) (maintainers_repo env org repo).
Proof.
  intros Hin. unfold maintainers_repo. preserves_step.
  - unfold establish_maintainers. preserves_step; [preserves_step |].
    destruct (GetContents env repo) as [fc | err].
    + unfold handleCODEOWNERS. destruct (GetContent env fc); [| preserves_step].
      preserves_step; [| preserves_step]. preserves_step.
      unfold codeowners_line. destruct (_ || _); [preserves_step |].
      destruct (Fields _); [preserves_step |].
      preserves_step. unfold codeowners_login.
      apply grant_path_preserves, under_repo_path, Hin.
    + unfold handleOWNERS. preserves_step; [preserves_step |].
      destruct (ListCommits env repo) as [[| sha rc] | err1];
        try preserves_step.
      { preserves_step. }
      destruct (GetTree env repo sha) as [entries | err2]; [| preserves_step].
      destruct (owners_fetch env repo entries ∅) as [[files evs] res].
      preserves_step; [preserves_step |].
      destruct res; [preserves_step |].
      preserves_step; [| preserves_step]. preserves_step.
      unfold owners_file. preserves_step.
      apply grant_path_preserves, under_repo_path, Hin.
  - destruct a; preserves_step.
Qed.

(** The state in which the loop of [handleMaintainers] ends. *)
Lemma handleMaintainers_inv (env : MaintEnv) (org : Org.t)
    (repos : list Repo.t) (users : gmap string User.t) (st : MaintState)
    (evs : list MaintEvent) :
  for_range repos (maintainers_repo env org) (mkMaint users ∅)
    = Returns (tt, st, evs) ->
  resolver_inv env org (map Repo.RepoName repos) users st.
Proof.
  apply (preserves_for_range
           (resolver_inv env org (map Repo.RepoName repos) users)).
  - intros repo Hin. apply maintainers_repo_preserves.
    apply in_map. exact Hin.
  - split; [| split; [| split]]; cbn [ms_users ms_maintainers]; auto.
    intros k m H. rewrite lookup_empty in H. discriminate H.
Qed.

Lemma batch_of_order (env : MaintEnv) (maintainers : gmap string Maintainer.t)
    (m : Maintainer.t) :
  valid_range (maintainers_order env) ->
  In m (map snd (maintainers_order env maintainers)) ->
  exists k, maintainers !! k = Some m.
Proof.
  intros Hv Hin. apply in_map_iff in Hin as ([k m'] & <- & Hin).
  exists k. apply elem_of_map_to_list. rewrite <- (Hv maintainers).
  apply list_elem_of_In, Hin.
Qed.

(** X10. The batch [handleMaintainers] hands to [WriteAllMaintainers] holds
    no two records of the same login, and every record carries the login of
    the organization of the pass. *)
Theorem handleMaintainers_batch_keys (env : MaintEnv) (org : Org.t)
    (repos : list Repo.t) (users users' : gmap string User.t)
    (evs : list MaintEvent) (res : option error) :
  valid_range (maintainers_order env) ->
  handleMaintainers env org repos users = Returns (users', evs, res) ->
  exists batch,
    written_batches evs = [batch]
    /\ NoDup (map Maintainer.UserLogin batch)
    /\ Forall (fun m => Maintainer.OrgLogin m = Org.OrgLogin org) batch.
Proof.
  intros Hv Hrun.
  destruct (handleMaintainers_returns env org _ _ _ _ _ Hrun)
    as (st & evs0 & Hloop & -> & -> & Hnw & ->).
  destruct (handleMaintainers_inv env org repos users st evs0 Hloop)
    as (Hm & _).
  eexists. split; [| split].
  - rewrite written_batches_app, (written_batches_no_write _ Hnw). reflexivity.
  - rewrite map_map.
    rewrite (map_ext_in _ fst).
    + change (map fst ?l) with (fst <$> l). rewrite (Hv _).
      apply NoDup_fst_map_to_list.
    + intros [k m] Hin. simpl. apply (Hm k m).
      apply elem_of_map_to_list. rewrite <- (Hv _).
      apply list_elem_of_In, Hin.
  - apply Forall_forall. intros m Hin. apply list_elem_of_In in Hin.
    destruct (batch_of_order env _ m Hv Hin) as (k & Hk).
    apply (Hm k m Hk).
Qed.

(** Witness of X10: the pass over the demo organization. *)
Lemma handleMaintainers_batch_keys_witness :
  exists batch,
    written_batches
      match handleMaintainers demo_maint_env demo_org
              [demo_repo; demo_api_repo] ∅ with
      | Returns (_, evs, _) => evs
      | Panics _ => []
      end = [batch]
    /\ NoDup (map Maintainer.UserLogin batch).
Proof.
  destruct (handleMaintainers demo_maint_env demo_org
              [demo_repo; demo_api_repo] ∅) as [[[users' evs] res] |] eqn:Hrun;
    [| vm_compute in Hrun; discriminate Hrun].
  destruct (handleMaintainers_batch_keys demo_maint_env demo_org _ _ _ _ _
              (fun m => reflexivity (map_to_list m)) Hrun)
    as (batch & Hb & Hnodup & _).
  exists batch. split; assumption.
Defined.

(** X11. Every path [handleMaintainers] writes for a maintainer starts with
    the name of one of the repositories of the pass, followed by [/]. *)
Theorem handleMaintainers_paths_under_repos (env : MaintEnv) (org : Org.t)
    (repos : list Repo.t) (users users' : gmap string User.t)
    (evs : list MaintEvent) (res : option error) :
  valid_range (maintainers_order env) ->
  handleMaintainers env org repos users = Returns (users', evs, res) ->
  forall batch m p,
    In batch (written_batches evs) -> In m batch ->
    In p (Maintainer.Paths m) ->
    exists repo, In repo repos
                 /\ HasPrefix p (Repo.RepoName repo +:+ "/") = true.
Proof.
  intros Hv Hrun batch m p Hb Hm Hp.
  destruct (handleMaintainers_returns env org _ _ _ _ _ Hrun)
    as (st & evs0 & Hloop & -> & -> & Hnw & ->).
  destruct (handleMaintainers_inv env org repos users st evs0 Hloop)
    as (Hinv & _).
  rewrite written_batches_app, (written_batches_no_write _ Hnw) in Hb.
  destruct Hb as [<- | []].
  destruct (batch_of_order env _ m Hv Hm) as (k & Hk).
  destruct (Hinv k m Hk) as (_ & _ & Hpaths).
  rewrite Forall_forall in Hpaths.
  destruct (Hpaths p) as (name & Hname & Hpre);
    [apply list_elem_of_In, Hp |].
  apply in_map_iff in Hname as (repo & <- & Hrepo).
  exists repo. split; assumption.
Qed.

(** Witness of X11: ["dave"] approves [a/b/OWNERS] of [istio/api]; his path
    starts with ["api/"]. *)
Lemma handleMaintainers_paths_under_repos_witness :
  exists repo, In repo [demo_repo; demo_api_repo]
               /\ HasPrefix "api/a/b/" (Repo.RepoName repo +:+ "/") = true.
Proof.
  destruct (handleMaintainers demo_maint_env demo_org
              [demo_repo; demo_api_repo] ∅) as [[[users' evs] res] |] eqn:Hrun;
    [| vm_compute in Hrun; discriminate Hrun].
  apply (handleMaintainers_paths_under_repos demo_maint_env demo_org _ _ _ _ _
           (fun m => reflexivity (map_to_list m)) Hrun
           (map snd (map_to_list (ms_maintainers
              match for_range [demo_repo; demo_api_repo]
                      (maintainers_repo demo_maint_env demo_org)
                      (mkMaint ∅ ∅) with
              | Returns (_, st, _) => st
              | Panics _ => mkMaint ∅ ∅
              end)))
           (Maintainer.mk "istio" "dave" ["api/a/b/"])).
  - vm_compute in Hrun. injection Hrun as _ <- _. vm_compute. tauto.
  - vm_compute. tauto.
  - simpl. tauto.
Defined.

(** X12. [handleMaintainers] only adds to the registry: a login registered
    before the pass is registered after it, a registry keyed by login stays
    keyed by login and, the GitHub lookup being faithful, every record of
    the registry is kept as it was. *)
Theorem handleMaintainers_registry (env : MaintEnv) (org : Org.t)
    (repos : list Repo.t) (users users' : gmap string User.t)
    (evs : list MaintEvent) (res : option error) :
  handleMaintainers env org repos users = Returns (users', evs, res) ->
  (forall k, is_Some (users !! k) -> is_Some (users' !! k))
  /\ (keyed_by_login users -> keyed_by_login users')
  /\ (faithful_lookup (users_api env) -> users ⊆ users').
Proof.
  intros Hrun.
  destruct (handleMaintainers_returns env org _ _ _ _ _ Hrun)
    as (st & evs0 & Hloop & -> & -> & Hnw & ->).
  destruct (handleMaintainers_inv env org repos users st evs0 Hloop)
    as (_ & Hk & Hdom & Hsub).
  auto.
Qed.

(** Witness of X12: a stub of ["zoe"] registered before the pass over the
    demo organization is still registered after it. *)
Lemma handleMaintainers_registry_witness :
  match handleMaintainers demo_maint_env demo_org [demo_repo; demo_api_repo]
          {[ "zoe" := User.mk "zoe" "" "" ]} with
  | Returns (users', _, _) => is_Some (users' !! "zoe")
  | Panics _ => False
  end.
Proof.
  destruct (handleMaintainers demo_maint_env demo_org
              [demo_repo; demo_api_repo] _) as [[[users' evs] res] |] eqn:Hrun;
    [| vm_compute in Hrun; discriminate Hrun].
  destruct (handleMaintainers_registry demo_maint_env demo_org _ _ _ _ _ Hrun)
    as (Hdom & _ & _).
  apply Hdom. eexists. reflexivity.
Defined.

(** ** The organization-level pass and what its batch holds *)








(** ** The drivers *)

Section DispatchFacts.
Context {W : Type}.
Variable exec : Call -> W -> outcome (W * option error).

Lemma same_step_equiv : Equivalence (@same_step W).
Proof.
  split.
  - intros s w. reflexivity.
  - intros s1 s2 H w. symmetry. apply H.
  - intros s1 s2 s3 H12 H23 w. rewrite H12. apply H23.
Qed.

#[local] Existing Instance same_step_equiv.

Lemma and_then_proper :
  Proper (same_step ==> same_step ==> same_step) (@and_then W).
Proof.
  intros a a' Ha b b' Hb w. unfold and_then. rewrite Ha.
  destruct (a' w) as [[[w1 tr1] [err |]] |]; try reflexivity.
  rewrite Hb. reflexivity.
Qed.

#[local] Existing Instance and_then_proper.

Lemma when_proper (b : bool) :
  Proper (same_step ==> same_step) (@when W b).
Proof. intros s s' Hs. destruct b; [exact Hs | reflexivity]. Qed.

#[local] Existing Instance when_proper.

Lemma and_then_proceed_l (s : Step W) : same_step (and_then proceed s) s.
Proof.
  intros w. unfold and_then, proceed.
  destruct (s w) as [[[w2 tr2] res] |]; reflexivity.
Qed.

Lemma and_then_proceed_r (s : Step W) : same_step (and_then s proceed) s.
Proof.
  intros w. unfold and_then, proceed.
  destruct (s w) as [[[w1 tr1] [err |]] |]; try reflexivity.
  rewrite app_nil_r. reflexivity.
Qed.

Lemma and_then_assoc (a b c : Step W) :
  same_step (and_then (and_then a b) c) (and_then a (and_then b c)).
Proof.
  intros w. unfold and_then.
  destruct (a w) as [[[w1 tr1] [err |]] |]; try reflexivity.
  destruct (b w1) as [[[w2 tr2] [err |]] |]; try reflexivity.
  destruct (c w2) as [[[w3 tr3] res] |]; try reflexivity.
  rewrite app_assoc. reflexivity.
Qed.

Lemma run_calls_app (a b : list Call) :
  same_step (and_then (run_calls exec a) (run_calls exec b))
            (run_calls exec (a ++ b)).
Proof.
  induction a as [| c a IH]; simpl.
  - apply and_then_proceed_l.
  - unfold run_calls in *. simpl. rewrite and_then_assoc, IH. reflexivity.
Qed.

Lemma call_run (c : Call) : same_step (call exec c) (run_calls exec [c]).
Proof. unfold run_calls. simpl. symmetry. apply and_then_proceed_r. Qed.

Lemma when_run (b : bool) (calls : list Call) :
  same_step (when b (run_calls exec calls))
            (run_calls exec (if b then calls else [])).
Proof. destruct b; reflexivity. Qed.

Lemma handleRepo_run (flags : FilterFlags) (repo : Repo.t) :
  same_step (handleRepo exec flags repo)
            (run_calls exec (repo_calls flags repo)).
Proof.
  unfold handleRepo, repo_calls.
  rewrite !call_run, and_then_proceed_r.
  rewrite !(run_calls_app [_] [_]). rewrite !when_run.
  rewrite !run_calls_app. reflexivity.
Qed.

Lemma for_each_run {X : Type} (xs : list X) (body : X -> Step W)
    (calls : X -> list Call) :
  (forall x, same_step (body x) (run_calls exec (calls x))) ->
  same_step (for_each xs body) (run_calls exec (flat_map calls xs)).
Proof.
  intros Hbody. induction xs as [| x xs IH]; simpl; [reflexivity |].
  rewrite (Hbody x), IH. apply run_calls_app.
Qed.

Lemma handleOrg_run (flags : FilterFlags) (org : Org.t) (repos : list Repo.t) :
  same_step (handleOrg exec flags org repos)
            (run_calls exec (org_calls flags org repos)).
Proof.
  unfold handleOrg, org_calls.
  rewrite (for_each_run repos _ _ (handleRepo_run flags)).
  rewrite call_run, and_then_proceed_r, when_run. apply run_calls_app.
Qed.

Lemma sync_org_run (flags : FilterFlags) (repos : list Repo.t) (org : Org.t) :
  same_step (sync_org exec flags repos org)
            (run_calls exec (sync_org_calls flags repos org)).
Proof.
  unfold sync_org, sync_org_calls. cbv zeta.
  rewrite handleOrg_run, call_run, and_then_proceed_r, !when_run.
  apply run_calls_app.
Qed.

Lemma Sync_run (got : list (Org.t * list Repo.t)) (flags : FilterFlags) :
  same_step (Sync exec (got, None) flags)
            (run_calls exec (sync_calls flags got)).
Proof.
  unfold Sync, sync_calls. cbv zeta.
  rewrite (for_each_run _ _ _ (sync_org_run flags _)).
  rewrite !call_run, and_then_proceed_r.
  rewrite !run_calls_app. reflexivity.
Qed.

(** What making the calls of a list does. *)
Lemma run_calls_ran (calls : list Call) :
  forall w w' tr res,
    run_calls exec calls w = Returns (w', tr, res) ->
    ran exec w tr w' res
    /\ tr `prefix_of` calls
    /\ (res = None -> tr = calls).
Proof.
  unfold run_calls. induction calls as [| c calls IH]; intros w w' tr res; simpl.
  - unfold proceed. intros [= <- <- <-].
    split; [constructor |]. split; [reflexivity | reflexivity].
  - unfold and_then at 1, call at 1.
    destruct (exec c w) as [[w1 [err |]] |] eqn:Hc; [| | discriminate].
    + intros [= <- <- <-]. split; [apply ran_last, Hc |].
      split; [exists calls; reflexivity | discriminate].
    + destruct (for_each calls (call exec) w1) as [[[w2 tr2] res2] |] eqn:Hrest;
        [| discriminate].
      intros [= <- <- <-].
      destruct (IH _ _ _ _ Hrest) as (Hran & Hpre & Hfull).
      split; [eapply ran_cons; eassumption |].
      split; [apply prefix_cons, Hpre |].
      intros Hres. simpl. f_equal. apply Hfull, Hres.
Qed.

Lemma ran_app_last (w w' : W) (tr : list Call) (c : Call) (res : option error) :
  ran exec w (tr ++ [c]) w' res ->
  exists w0, ran exec w tr w0 None /\ exec c w0 = Returns (w', res).
Proof.
  revert w. induction tr as [| d tr IH]; intros w H; simpl in H.
  - inversion H; subst.
    + exists w. split; [constructor | assumption].
    + match goal with H1 : ran _ _ [] _ _ |- _ => inversion H1; subst end.
      exists w. split; [constructor | assumption].
  - inversion H; subst.
    + destruct tr; discriminate.
    + match goal with H1 : ran _ _ (tr ++ [c]) _ _ |- _ =>
        destruct (IH _ H1) as (w0 & Hran & Hc) end.
      exists w0. split; [eapply ran_cons; eassumption | exact Hc].
Qed.

(** X13. [handleRepo] makes the calls its flags enable in the fixed order
    labels, issues, issue comments, ZenHub, pull requests, pull-request
    review comments, repository comments, events (each windowed pass with the
    bookmark field of its own entity kind), and nothing else; it stops at the
    first call that returns an error and returns that error; when it returns
    nil every enabled call has been made. *)
Theorem handleRepo_dispatch (flags : FilterFlags) (repo : Repo.t)
    (w w' : W) (tr : list Call) (res : option error) :
  handleRepo exec flags repo w = Returns (w', tr, res) ->
  ran exec w tr w' res
  /\ tr `prefix_of` repo_calls flags repo
  /\ (res = None -> tr = repo_calls flags repo).
Proof. rewrite handleRepo_run. apply run_calls_ran. Qed.

Lemma prefix_upto_last {X : Type} (tr pre : list X) (c : X) :
  tr `prefix_of` pre ++ [c] -> In c tr -> ~ In c pre -> tr = pre ++ [c].
Proof.
  revert tr. induction pre as [| x pre IH]; intros tr [k Hk] Hin Hnot.
  - destruct tr as [| y tr]; [destruct Hin |].
    simpl in Hk. injection Hk as <- Hk.
    symmetry in Hk. apply app_eq_nil in Hk as [-> _]. reflexivity.
  - destruct tr as [| y tr]; [destruct Hin |].
    simpl in Hk. injection Hk as <- Hk. simpl. f_equal.
    apply IH.
    + exists k. exact Hk.
    + destruct Hin as [-> | Hin]; [| exact Hin].
      exfalso. apply Hnot. left. reflexivity.
    + intros H. apply Hnot. right. exact H.
Qed.

(** Every call of [handleRepo] is about its repository and stands for an
    entity kind whose flag is set. *)
Lemma repo_calls_facts (flags : FilterFlags) (repo : Repo.t) (c : Call) :
  In c (repo_calls flags repo) ->
  call_repo c = Some repo
  /\ exists t, call_token c = Some t
               /\ is_filter_token t = true
               /\ has_flag flags (token_flag t) = true.
Proof.
  unfold repo_calls.
  destruct (has_flag flags Labels) eqn:HL, (has_flag flags Issues) eqn:HI,
    (has_flag flags ZenHub) eqn:HZ, (has_flag flags Prs) eqn:HP,
    (has_flag flags RepoComments) eqn:HR, (has_flag flags Events) eqn:HE;
    simpl; intros H;
    repeat (destruct H as [<- | H];
            [split; [reflexivity |];
             eexists; split; [reflexivity |]; split; [reflexivity | assumption]
            |]);
    destruct H.
Qed.

(** X14. [handleOrg] runs [handleRepo] over the repositories in order and
    then, under the Members flag, the member pass: the calls made are a
    prefix of the calls of all repositories followed by the member call, cut
    after the first call that fails; the members are not synchronized when
    a repository fails. *)
Theorem handleOrg_dispatch (flags : FilterFlags) (org : Org.t)
    (repos : list Repo.t) (w w' : W) (tr : list Call) (res : option error) :
  handleOrg exec flags org repos w = Returns (w', tr, res) ->
  ran exec w tr w' res
  /\ tr `prefix_of` org_calls flags org repos
  /\ (res = None -> tr = org_calls flags org repos)
  /\ (In (CallHandleMembers org) tr ->
      exists w0,
        ran exec w (flat_map (repo_calls flags) repos) w0 None
        /\ exec (CallHandleMembers org) w0 = Returns (w', res)).
Proof.
  rewrite handleOrg_run. intros Hrun.
  destruct (run_calls_ran _ _ _ _ _ Hrun) as (Hran & Hpre & Hfull).
  repeat split; try assumption.
  intros Hin. unfold org_calls in Hpre.
  assert (Hnot : ~ In (CallHandleMembers org) (flat_map (repo_calls flags) repos)).
  { intros H. apply in_flat_map in H as (repo & _ & H).
    apply repo_calls_facts in H as [H _]. discriminate H. }
  destruct (has_flag flags Members).
  - rewrite (prefix_upto_last _ _ _ Hpre Hin Hnot) in Hran.
    apply ran_app_last. exact Hran.
  - exfalso. rewrite app_nil_r in Hpre. destruct Hpre as [k Hk].
    apply Hnot. rewrite Hk. apply in_or_app. left. exact Hin.
Qed.

(** Every call [Sync] makes for an organization stands for an entity kind
    whose flag is set; it is about the organization or one of the fetched
    repositories of its login. *)
Lemma sync_org_calls_facts (flags : FilterFlags) (repos : list Repo.t)
    (org : Org.t) (c : Call) :
  In c (sync_org_calls flags repos org) ->
  (exists t, call_token c = Some t
             /\ is_filter_token t = true
             /\ has_flag flags (token_flag t) = true)
  /\ (forall repo, call_repo c = Some repo ->
                   In repo repos /\ Repo.OrgLogin repo = Org.OrgLogin org)
  /\ (forall o rs, c = CallHandleMaintainers o rs ->
                   o = org /\ rs = org_repos repos org)
  /\ (forall o, c = CallHandleMembers o -> o = org).
Proof.
  unfold sync_org_calls. intros H. apply in_app_or in H as [H | H].
  - destruct (has_flag flags org_mask); [| destruct H].
    unfold org_calls in H. apply in_app_or in H as [H | H].
    + apply in_flat_map in H as (repo & Hrepo & H).
      apply repo_calls_facts in H as (Hc & Ht).
      unfold org_repos in Hrepo. apply filter_In in Hrepo as [Hin Heq].
      apply String.eqb_eq in Heq.
      split; [exact Ht |]. split; [| split].
      * intros repo' Hc'. rewrite Hc in Hc'. injection Hc' as <-. auto.
      * intros o rs ->. discriminate Hc.
      * intros o ->. discriminate Hc.
    + destruct (has_flag flags Members) eqn:HM; [| destruct H].
      destruct H as [<- | []].
      split; [exists "members"; auto |]. split; [| split].
      * intros repo Hc. discriminate Hc.
      * intros o rs Hc. discriminate Hc.
      * intros o [= <-]. reflexivity.
  - destruct (has_flag flags Maintainers) eqn:HM; [| destruct H].
    destruct H as [<- | []].
    split; [exists "maintainers"; auto |]. split; [| split].
    + intros repo Hc. discriminate Hc.
    + intros o rs [= <- <-]. auto.
    + intros o Hc. discriminate Hc.
Qed.

Lemma Sync_returns (fetched : list (Org.t * list Repo.t) * option error)
    (flags : FilterFlags) (w w' : W) (tr : list Call) (res : option error) :
  Sync exec fetched flags w = Returns (w', tr, res) ->
  (exists err, snd fetched = Some err /\ tr = [] /\ res = Some err /\ w' = w)
  \/ (snd fetched = None
      /\ run_calls exec (sync_calls flags (fst fetched)) w
         = Returns (w', tr, res)).
Proof.
  destruct fetched as [got [err |]].
  - simpl. intros [= <- <- <-]. left. exists err. auto.
  - rewrite Sync_run. intros H. right. auto.
Qed.

(** X15. [Sync] returns the error of the enumeration of organizations and
    repositories without a call. Otherwise it first writes all organizations,
    then all repositories, then makes the calls of every organization in
    turn, then flushes the registry: the calls made are a prefix of that
    list, cut after the first call that returns an error, which is the error
    [Sync] returns; when it returns nil every call has been made. *)
Theorem Sync_dispatch (got : list (Org.t * list Repo.t)) (flags : FilterFlags)
    (w : W) :
  (forall err, Sync exec (got, Some err) flags w = Returns (w, [], Some err))
  /\ (forall w' tr res,
        Sync exec (got, None) flags w = Returns (w', tr, res) ->
        ran exec w tr w' res
        /\ tr `prefix_of` sync_calls flags got
        /\ (res = None -> tr = sync_calls flags got)
        /\ exists tr', tr = CallWriteOrgs (map fst got) :: tr').
Proof.
  split; [reflexivity |]. intros w' tr res. rewrite Sync_run. intros Hrun.
  destruct (run_calls_ran _ _ _ _ _ Hrun) as (Hran & Hpre & Hfull).
  repeat split; try assumption.
  destruct tr as [| c tr].
  - inversion Hran; subst. specialize (Hfull eq_refl). discriminate Hfull.
  - destruct Hpre as [k Hk]. unfold sync_calls in Hk. simpl in Hk.
    injection Hk as <- _. eexists; reflexivity.
Qed.

Lemma sync_calls_split (flags : FilterFlags) (got : list (Org.t * list Repo.t)) :
  exists pre,
    sync_calls flags got = pre ++ [CallPushUsers]
    /\ ~ In CallPushUsers pre.
Proof.
  unfold sync_calls. eexists. split.
  - rewrite app_assoc. reflexivity.
  - intros H. apply in_app_or in H as [H | H].
    + simpl in H. intuition discriminate.
    + apply in_flat_map in H as (org & _ & H).
      apply sync_org_calls_facts in H as ((t & Ht & _) & _). discriminate Ht.
Qed.

(** X16. [Sync] flushes the registry once, as its last call, and only after
    every other call has returned nil: a run in which a store write or an
    organization pass fails never calls [pushUsers], so the users it has
    collected are not written; the result of a run that reaches the flush is
    the result of the flush. *)
Theorem Sync_flushes_last
    (fetched : list (Org.t * list Repo.t) * option error)
    (flags : FilterFlags) (w w' : W) (tr : list Call) (res : option error) :
  Sync exec fetched flags w = Returns (w', tr, res) ->
  (In CallPushUsers tr ->
   exists tr0 w0,
     tr = tr0 ++ [CallPushUsers]
     /\ ~ In CallPushUsers tr0
     /\ ran exec w tr0 w0 None
     /\ exec CallPushUsers w0 = Returns (w', res))
  /\ (res = None -> In CallPushUsers tr).
Proof.
  intros Hrun.
  destruct (Sync_returns _ _ _ _ _ _ Hrun)
    as [(err & _ & -> & -> & _) | (_ & Hcalls)].
  - split; [intros [] | discriminate].
  - destruct (run_calls_ran _ _ _ _ _ Hcalls) as (Hran & Hpre & Hfull).
    destruct (sync_calls_split flags (fst fetched)) as (pre & Hsplit & Hnot).
    rewrite Hsplit in Hpre, Hfull. split.
    + intros Hin. rewrite (prefix_upto_last _ _ _ Hpre Hin Hnot) in Hran |- *.
      destruct (ran_app_last _ _ _ _ _ Hran) as (w0 & Hran0 & Hc).
      exists pre, w0. auto.
    + intros Hres. rewrite (Hfull Hres). apply in_or_app. right. left.
      reflexivity.
Qed.

Lemma sync_calls_facts (flags : FilterFlags) (got : list (Org.t * list Repo.t))
    (c : Call) :
  In c (sync_calls flags got) ->
  (forall t, call_token c = Some t ->
             is_filter_token t = true /\ has_flag flags (token_flag t) = true)
  /\ (forall repo, call_repo c = Some repo ->
        In repo (concat (map snd got))
        /\ exists org, In org (map fst got)
                       /\ Repo.OrgLogin repo = Org.OrgLogin org)
  /\ (forall org rs, c = CallHandleMaintainers org rs ->
        In org (map fst got) /\ rs = org_repos (concat (map snd got)) org)
  /\ (forall org, c = CallHandleMembers org -> In org (map fst got)).
Proof.
  unfold sync_calls. intros H. apply in_app_or in H as [H | H];
    [| apply in_app_or in H as [H | H]].
  - simpl in H. destruct H as [<- | [<- | []]];
      (split; [| split; [| split]]); intros; discriminate.
  - apply in_flat_map in H as (org & Horg & H).
    apply sync_org_calls_facts in H as ((t & Ht & Htok & Hflag) & Hrepo & Hm & Hmem).
    split; [| split; [| split]].
    + intros t' Ht'. rewrite Ht in Ht'. injection Ht' as <-. auto.
    + intros repo Hc. destruct (Hrepo repo Hc) as [Hin Heq].
      split; [exact Hin |]. exists org. auto.
    + intros o rs Hc. destruct (Hm o rs Hc) as [-> ->]. auto.
    + intros o Hc. rewrite (Hmem o Hc). exact Horg.
  - destruct H as [<- | []];
      (split; [| split; [| split]]); intros; discriminate.
Qed.

(** X17. From the filter string to the calls: when [Sync] runs with the
    flags [ConvFilterFlags] gives for a list of valid tokens, every handler
    it calls belongs to an entity kind whose token is in the list (the two
    windowed issue passes to ["issues"], the pull-request pass and the
    review-comment pass to ["prs"]). *)
Theorem Sync_calls_in_filter (tokens : list string)
    (fetched : list (Org.t * list Repo.t) * option error)
    (w w' : W) (tr : list Call) (res : option error) :
  tokens <> [] -> forallb is_filter_token tokens = true ->
  Sync exec fetched (fst (ConvFilterFlags (Join tokens ","))) w
    = Returns (w', tr, res) ->
  forall c t, In c tr -> call_token c = Some t -> In t tokens.
Proof.
  intros Hne Hall Hrun c t Hin Ht.
  rewrite (ConvFilterFlags_tokens tokens Hne Hall) in Hrun. simpl in Hrun.
  destruct (Sync_returns _ _ _ _ _ _ Hrun)
    as [(err & _ & -> & _) | (_ & Hcalls)]; [destruct Hin |].
  destruct (run_calls_ran _ _ _ _ _ Hcalls) as (_ & [k Hk] & _).
  assert (Hc : In c (sync_calls (or_of_flags tokens) (fst fetched)))
    by (rewrite Hk; apply in_or_app; left; exact Hin).
  apply sync_calls_facts in Hc as (Htok & _).
  destruct (Htok t Ht) as [Hvalid Hflag].
  apply (has_flag_or_of_flags tokens t Hall Hvalid). exact Hflag.
Qed.

(** X18. [Sync] groups the fetched repositories by the login of their
    organization: a repository pass is made only for a fetched repository
    whose organization login is that of a fetched organization, and the
    maintainer pass of an organization gets exactly the fetched repositories
    that carry its login, in the order of the fetch. *)
Theorem Sync_groups_by_login (got : list (Org.t * list Repo.t))
    (flags : FilterFlags) (w w' : W) (tr : list Call) (res : option error) :
  Sync exec (got, None) flags w = Returns (w', tr, res) ->
  (forall c repo, In c tr -> call_repo c = Some repo ->
     In repo (concat (map snd got))
     /\ exists org, In org (map fst got)
                    /\ Repo.OrgLogin repo = Org.OrgLogin org)
  /\ (forall org rs, In (CallHandleMaintainers org rs) tr ->
        In org (map fst got)
        /\ rs = List.filter
                  (fun repo => String.eqb (Repo.OrgLogin repo) (Org.OrgLogin org))
                  (concat (map snd got)))
  /\ (forall org, In (CallHandleMembers org) tr -> In org (map fst got)).
Proof.
  rewrite Sync_run. intros Hrun.
  destruct (run_calls_ran _ _ _ _ _ Hrun) as (_ & [k Hk] & _).
  assert (Hsub : forall c, In c tr -> In c (sync_calls flags got))
    by (intros c Hc; rewrite Hk; apply in_or_app; left; exact Hc).
  split; [| split].
  - intros c repo Hc Hrepo.
    apply Hsub, sync_calls_facts in Hc as (_ & H & _). apply H, Hrepo.
  - intros org rs Hc.
    apply Hsub, sync_calls_facts in Hc as (_ & _ & H & _).
    apply (H org rs eq_refl).
  - intros org Hc.
    apply Hsub, sync_calls_facts in Hc as (_ & _ & _ & H).
    apply (H org eq_refl).
Qed.

End DispatchFacts.

(** Witness of X13: under the flags of ["zenhub,issues"] the repository
    [istio/api] gets its two issue passes, then the ZenHub pass, whose error
    ends [handleRepo]. *)
Lemma handleRepo_dispatch_witness :
  exists w',
    ran demo_exec 0%nat
      [CallHandleActivity demo_api_repo CbHandleIssues FLastIssueSyncStart;
       CallHandleActivity demo_api_repo CbHandleIssueComments
         FLastIssueCommentSyncStart;
       CallHandleZenHub demo_api_repo]
      w' (Some (Upstream "zenhub: 503")).
Proof.
  eexists.
  refine (proj1 (handleRepo_dispatch demo_exec
                   (fst (ConvFilterFlags "zenhub,issues")) demo_api_repo
                   0%nat _ _ _ _)).
  vm_compute. reflexivity.
Defined.

(** Witness of X14: the same failure while the organization is walked: the
    repository [istio/istio] is done, [istio/api] fails, the members are not
    reached. *)
Lemma handleOrg_dispatch_witness :
  exists w' tr,
    handleOrg demo_exec (fst (ConvFilterFlags "zenhub,members")) demo_org
      [demo_repo; demo_api_repo] 0%nat
    = Returns (w', tr, Some (Upstream "zenhub: 503"))
    /\ tr `prefix_of`
         org_calls (fst (ConvFilterFlags "zenhub,members")) demo_org
           [demo_repo; demo_api_repo]
    /\ ~ In (CallHandleMembers demo_org) tr.
Proof.
  eexists _, _. split; [vm_compute; reflexivity |]. split.
  - refine (proj1 (proj2 (handleOrg_dispatch demo_exec
                            (fst (ConvFilterFlags "zenhub,members")) demo_org
                            [demo_repo; demo_api_repo] 0%nat _ _ _ _))).
    vm_compute. reflexivity.
  - simpl. intuition discriminate.
Defined.

(** Witness of X15: a full run in which every call succeeds. *)
Lemma Sync_dispatch_witness :
  exists w' tr,
    Sync demo_exec_ok demo_fetched (fst (ConvFilterFlags "labels,maintainers"))
      0%nat = Returns (w', tr, None)
    /\ tr = [CallWriteOrgs [demo_org];
             CallWriteRepos [demo_repo; demo_api_repo];
             CallHandleLabels demo_repo; CallHandleLabels demo_api_repo;
             CallHandleMaintainers demo_org [demo_repo; demo_api_repo];
             CallPushUsers].
Proof.
  eexists _, _. split; [vm_compute; reflexivity |].
  destruct (Sync_dispatch demo_exec_ok (fst demo_fetched)
              (fst (ConvFilterFlags "labels,maintainers")) 0%nat)
    as [_ H].
  destruct (H _ _ None ltac:(vm_compute; reflexivity)) as (_ & _ & Hfull & _).
  rewrite (Hfull eq_refl). vm_compute. reflexivity.
Defined.

(** Witness of X16: the ZenHub pass of [istio/api] fails; the registry is
    not flushed. *)
Lemma Sync_flushes_last_witness :
  exists w' tr,
    Sync demo_exec demo_fetched (fst (ConvFilterFlags "")) 0%nat
    = Returns (w', tr, Some (Upstream "zenhub: 503"))
    /\ ~ In CallPushUsers tr.
Proof.
  eexists _, _. split; [vm_compute; reflexivity |].
  intros Hin.
  destruct (Sync_flushes_last demo_exec demo_fetched (fst (ConvFilterFlags ""))
              0%nat _ _ _ ltac:(vm_compute; reflexivity))
    as [Hlast _].
  destruct (Hlast Hin) as (tr0 & w0 & _ & _ & _ & Hc).
  vm_compute in Hc. discriminate Hc.
Defined.

(** Witness of X17: under the filter ["maintainers"] the ZenHub pass of
    [istio/istio] is not made. *)
Lemma Sync_calls_in_filter_witness :
  exists w' tr res,
    Sync demo_exec demo_fetched (fst (ConvFilterFlags "maintainers")) 0%nat
    = Returns (w', tr, res)
    /\ ~ In (CallHandleZenHub demo_repo) tr.
Proof.
  eexists _, _, _. split; [vm_compute; reflexivity |].
  intros Hin.
  assert (Hne : ["maintainers"] <> []) by discriminate.
  pose proof (Sync_calls_in_filter demo_exec ["maintainers"] demo_fetched
                0%nat _ _ _ Hne eq_refl ltac:(vm_compute; reflexivity)
                (CallHandleZenHub demo_repo) "zenhub" Hin eq_refl) as H.
  destruct H as [H | []]. discriminate H.
Defined.

(** Witness of X18: the maintainer pass of [istio] gets the two fetched
    repositories, both of that login. *)
Lemma Sync_groups_by_login_witness :
  exists w' tr res,
    Sync demo_exec_ok demo_fetched (fst (ConvFilterFlags "maintainers")) 0%nat
    = Returns (w', tr, res)
    /\ In (CallHandleMaintainers demo_org [demo_repo; demo_api_repo]) tr
    /\ [demo_repo; demo_api_repo]
       = List.filter
           (fun repo => String.eqb (Repo.OrgLogin repo) (Org.OrgLogin demo_org))
           (concat (map snd (fst demo_fetched))).
Proof.
  eexists _, _, _. split; [vm_compute; reflexivity |].
  assert (Hin : In (CallHandleMaintainers demo_org [demo_repo; demo_api_repo])
                   [CallWriteOrgs [demo_org];
                    CallWriteRepos [demo_repo; demo_api_repo];
                    CallHandleMaintainers demo_org [demo_repo; demo_api_repo];
                    CallPushUsers])
    by (simpl; tauto).
  split; [exact Hin |].
  destruct (Sync_groups_by_login demo_exec_ok (fst demo_fetched)
              (fst (ConvFilterFlags "maintainers")) 0%nat _ _ _
              ltac:(vm_compute; reflexivity))
    as (_ & Hm & _).
  exact (proj2 (Hm demo_org [demo_repo; demo_api_repo] Hin)).
Defined.

(** ** Organization members *)

Lemma members_page_run (env : MembersEnv) (org : Org.t)
    (members : list (GhUser (members_api env))) :
  forall users ms,
    members_page env org (users, ms) members
    = (addUsers users (map (ConvertUser (members_api env)) members),
       ms ++ map (fun m => Member.mk (Org.OrgLogin org) (GetLogin env m))
                 members).
Proof.
  unfold members_page.
  induction members as [| m members IH]; intros users ms; simpl.
  - rewrite app_nil_r. reflexivity.
  - rewrite IH, <- app_assoc. reflexivity.
Qed.

Lemma members_pages_run (env : MembersEnv) (org : Org.t)
    (pages : list (list (GhUser (members_api env)))) :
  forall users ms,
    foldl (members_page env org) (users, ms) pages
    = (addUsers users (map (ConvertUser (members_api env)) (concat pages)),
       ms ++ map (fun m => Member.mk (Org.OrgLogin org) (GetLogin env m))
                 (concat pages)).
Proof.
  induction pages as [| p pages IH]; intros users ms; simpl.
  - rewrite app_nil_r. reflexivity.
  - rewrite members_page_run, IH, !map_app, addUsers_app, <- app_assoc.
    reflexivity.
Qed.

Lemma last_registered_is_Some (u : User.t) (us : list User.t) :
  In u us -> is_Some (last_registered (User.UserLogin u) us).
Proof.
  induction us as [| v us IH]; intros Hin; [destruct Hin |]. simpl.
  destruct (last_registered (User.UserLogin u) us) eqn:E; [eauto |].
  destruct Hin as [-> | Hin].
  - rewrite String.eqb_refl. eauto.
  - destruct (IH Hin) as [x Hx]. discriminate Hx.
Qed.

Lemma addUsers_registers (users : gmap string User.t) (us : list User.t)
    (u : User.t) :
  In u us -> is_Some (addUsers users us !! User.UserLogin u).
Proof.
  intros Hin. rewrite addUsers_lookup.
  destruct (last_registered_is_Some u us Hin) as [x ->]. eauto.
Qed.

(** X19. [handleMembers] registers every member the listing delivers, one
    after the other, and writes the members in one wholesale write, one
    record per delivered member in the order of the listing, all with the
    login of the organization. When the listing ends with an error that
    error is returned and nothing is written, though the members delivered
    before it stay registered. When the conversion of a user keeps the login,
    every member written has an entry in the registry. *)
Theorem handleMembers_batch (env : MembersEnv) (org : Org.t)
    (users : gmap string User.t) :
  let members := concat (fst (fetchMembers env org)) in
  let users' := addUsers users (map (ConvertUser (members_api env)) members) in
  let batch :=
    map (fun m => Member.mk (Org.OrgLogin org) (GetLogin env m)) members in
  handleMembers env org users =
    match snd (fetchMembers env org) with
    | Some err => (users', [], Some err)
    | None => (users', [EvWriteAllMembers batch], WriteAllMembers env batch)
    end
  /\ Forall (fun mem => Member.OrgLogin mem = Org.OrgLogin org) batch
  /\ ((forall m, User.UserLogin (ConvertUser (members_api env) m)
                 = GetLogin env m) ->
      Forall (fun mem => is_Some (users' !! Member.UserLogin mem)) batch).
Proof.
  intros members users' batch. subst members users' batch.
  unfold handleMembers.
  destruct (fetchMembers env org) as [pages fetch_err]. simpl.
  rewrite members_pages_run. simpl. split; [| split].
  - destruct fetch_err; reflexivity.
  - apply Forall_forall. intros mem Hin.
    apply list_elem_of_In, in_map_iff in Hin as (m & <- & _). reflexivity.
  - intros Hlogin. apply Forall_forall. intros mem Hin.
    apply list_elem_of_In, in_map_iff in Hin as (m & <- & Hm). simpl.
    rewrite <- Hlogin. apply addUsers_registers. apply in_map. exact Hm.
Qed.

(** Witness of X19: two members on two pages are written in one batch; when
    the listing is cut after the first page nothing is written and the
    member of that page stays registered. *)
Lemma handleMembers_batch_witness :
  snd (fst (handleMembers demo_members demo_org ∅))
  = [EvWriteAllMembers [Member.mk "istio" "alice"; Member.mk "istio" "bob"]]
  /\ snd (fst (handleMembers demo_members_cut demo_org ∅)) = []
  /\ is_Some (fst (fst (handleMembers demo_members_cut demo_org ∅)) !! "alice").
Proof.
  destruct (handleMembers_batch demo_members demo_org ∅) as (Hrun & _ & _).
  destruct (handleMembers_batch demo_members_cut demo_org ∅)
    as (Hcut & _ & Hreg).
  split; [rewrite Hrun; reflexivity |].
  split; [rewrite Hcut; reflexivity |].
  rewrite Hcut. simpl.
  specialize (Hreg (fun m => eq_refl)).
  rewrite Forall_forall in Hreg.
  apply (Hreg (Member.mk "istio" "alice")).
  apply list_elem_of_In. simpl. tauto.
Defined.

(** ** The number at the end of a URL *)

Lemma byte_val_range (c : ascii) : 0 <= byte_val c < 256.
Proof.
  unfold byte_val. pose proof (nat_ascii_bounded c). lia.
Qed.

Lemma byte_val_neq (c c' : ascii) :
  byte_val c <> byte_val c' -> Ascii.eqb c c' = false.
Proof.
  intros H. destruct (Ascii.eqb_spec c c') as [-> | ?]; congruence.
Qed.

(** The head of a decimal numeral written by [string_of_uint]. *)
Lemma string_of_uint_head (d : Decimal.uint) :
  d <> Decimal.Nil ->
  exists c rest k,
    DecimalString.NilEmpty.string_of_uint d = String c rest
    /\ byte_val c = 48 + k /\ 0 <= k <= 9.
Proof.
  intros Hd. destruct d; [congruence | ..]; simpl;
    [exists "0"%char, (DecimalString.NilEmpty.string_of_uint d), 0
    |exists "1"%char, (DecimalString.NilEmpty.string_of_uint d), 1
    |exists "2"%char, (DecimalString.NilEmpty.string_of_uint d), 2
    |exists "3"%char, (DecimalString.NilEmpty.string_of_uint d), 3
    |exists "4"%char, (DecimalString.NilEmpty.string_of_uint d), 4
    |exists "5"%char, (DecimalString.NilEmpty.string_of_uint d), 5
    |exists "6"%char, (DecimalString.NilEmpty.string_of_uint d), 6
    |exists "7"%char, (DecimalString.NilEmpty.string_of_uint d), 7
    |exists "8"%char, (DecimalString.NilEmpty.string_of_uint d), 8
    |exists "9"%char, (DecimalString.NilEmpty.string_of_uint d), 9];
    (split; [reflexivity | split; [reflexivity | lia]]).
Qed.

Lemma to_uint_nonnil (n : nat) : Nat.to_uint n <> Decimal.Nil.
Proof.
  rewrite <- (DecimalNat.Unsigned.of_to n) at 1.
  rewrite DecimalNat.Unsigned.to_of. apply DecimalFacts.unorm_nonnil.
Qed.

Lemma atoi_loop_digit (c : ascii) (rest : string) (n k : Z) :
  byte_val c = 48 + k -> 0 <= k <= 9 ->
  atoi_loop (String c rest) n = atoi_loop rest (n * 10 + k).
Proof.
  intros Hc Hk. cbn [atoi_loop]. rewrite Hc.
  replace ((48 + k - 48) mod 256) with k by (rewrite Z.mod_small; lia).
  destruct (Z.ltb_spec 9 k); [lia | reflexivity].
Qed.

Lemma parse_uint_loop_digit (c : ascii) (rest : string) (n k : Z) :
  byte_val c = 48 + k -> 0 <= k <= 9 -> 0 <= n -> n * 10 + k < 2 ^ 64 ->
  parse_uint_loop (String c rest) n = parse_uint_loop rest (n * 10 + k).
Proof.
  intros Hc Hk Hn Hlt. cbn [parse_uint_loop]. rewrite Hc. cbv zeta.
  change (maxUint64 / 10 + 1) with 1844674407370955162.
  change maxUint64 with 18446744073709551615.
  change (2 ^ 64) with 18446744073709551616 in *.
  replace (48 + k - 48) with k by lia.
  destruct (Z.leb_spec 48 (48 + k)); [| lia].
  destruct (Z.leb_spec (48 + k) 57); [| lia]. simpl.
  destruct (Z.leb_spec 1844674407370955162 n); [lia |].
  rewrite (Z.mod_small (n * 10)) by lia.
  rewrite (Z.mod_small (n * 10 + k)) by lia.
  destruct (Z.ltb_spec (n * 10 + k) (n * 10)); [lia |].
  destruct (Z.ltb_spec 18446744073709551615 (n * 10 + k)); [lia |].
  reflexivity.
Qed.

(** The ten cases of a digit of a numeral: the digit character and its
    value. *)
Ltac uint_cases d IH :=
  induction d as [| d IH | d IH | d IH | d IH | d IH | d IH | d IH | d IH
                  | d IH | d IH].

Lemma of_uint_acc_ge (d : Decimal.uint) :
  forall acc, (acc <= Nat.of_uint_acc d acc)%nat.
Proof.
  uint_cases d IH; intros acc; simpl; [lia | ..];
    (etransitivity; [| apply IH]); rewrite Nat.tail_mul_spec;
    lia.
Qed.

Lemma atoi_loop_decimal (d : Decimal.uint) :
  forall acc,
    atoi_loop (DecimalString.NilEmpty.string_of_uint d) (Z.of_nat acc)
    = Some (Z.of_nat (Nat.of_uint_acc d acc)).
Proof.
  uint_cases d IH; intros acc; simpl DecimalString.NilEmpty.string_of_uint;
    simpl Nat.of_uint_acc; [reflexivity | ..];
    rewrite <- IH, Nat.tail_mul_spec;
    [rewrite (atoi_loop_digit _ _ _ 0) by (reflexivity || lia)
    |rewrite (atoi_loop_digit _ _ _ 1) by (reflexivity || lia)
    |rewrite (atoi_loop_digit _ _ _ 2) by (reflexivity || lia)
    |rewrite (atoi_loop_digit _ _ _ 3) by (reflexivity || lia)
    |rewrite (atoi_loop_digit _ _ _ 4) by (reflexivity || lia)
    |rewrite (atoi_loop_digit _ _ _ 5) by (reflexivity || lia)
    |rewrite (atoi_loop_digit _ _ _ 6) by (reflexivity || lia)
    |rewrite (atoi_loop_digit _ _ _ 7) by (reflexivity || lia)
    |rewrite (atoi_loop_digit _ _ _ 8) by (reflexivity || lia)
    |rewrite (atoi_loop_digit _ _ _ 9) by (reflexivity || lia)];
    f_equal; lia.
Qed.

Lemma parse_uint_loop_decimal (d : Decimal.uint) :
  forall acc,
    Z.of_nat (Nat.of_uint_acc d acc) < 2 ^ 64 ->
    parse_uint_loop (DecimalString.NilEmpty.string_of_uint d) (Z.of_nat acc)
    = (Z.of_nat (Nat.of_uint_acc d acc), None).
Proof.
  uint_cases d IH; intros acc; simpl DecimalString.NilEmpty.string_of_uint;
    simpl Nat.of_uint_acc; [reflexivity | ..];
    intros Hlt; rewrite <- (IH _ Hlt);
    match goal with
    | H : Z.of_nat (Nat.of_uint_acc _ ?a) < _ |- _ =>
        pose proof (of_uint_acc_ge d a) as Hge
    end;
    rewrite Nat.tail_mul_spec in *;
    [rewrite (parse_uint_loop_digit _ _ _ 0) by (reflexivity || lia)
    |rewrite (parse_uint_loop_digit _ _ _ 1) by (reflexivity || lia)
    |rewrite (parse_uint_loop_digit _ _ _ 2) by (reflexivity || lia)
    |rewrite (parse_uint_loop_digit _ _ _ 3) by (reflexivity || lia)
    |rewrite (parse_uint_loop_digit _ _ _ 4) by (reflexivity || lia)
    |rewrite (parse_uint_loop_digit _ _ _ 5) by (reflexivity || lia)
    |rewrite (parse_uint_loop_digit _ _ _ 6) by (reflexivity || lia)
    |rewrite (parse_uint_loop_digit _ _ _ 7) by (reflexivity || lia)
    |rewrite (parse_uint_loop_digit _ _ _ 8) by (reflexivity || lia)
    |rewrite (parse_uint_loop_digit _ _ _ 9) by (reflexivity || lia)];
    f_equal; lia.
Qed.

(** [Atoi] reads back the numeral of a number that fits [int64], on its fast
    path as on its slow one. *)
Lemma Atoi_decimal (n : nat) :
  Z.of_nat n < 2 ^ 63 -> Atoi (decimal n) = (Z.of_nat n, None).
Proof.
  intros Hn. unfold decimal.
  pose proof (atoi_loop_decimal (Nat.to_uint n) 0) as Hfast.
  pose proof (parse_uint_loop_decimal (Nat.to_uint n) 0) as Hslow.
  change (Nat.of_uint_acc (Nat.to_uint n) 0) with (Nat.of_uint (Nat.to_uint n))
    in Hfast, Hslow.
  rewrite DecimalNat.Unsigned.of_to in Hfast, Hslow.
  change (2 ^ 63) with 9223372036854775808 in Hn.
  specialize (Hslow ltac:(change (2 ^ 64) with 18446744073709551616; lia)).
  destruct (string_of_uint_head _ (to_uint_nonnil n))
    as (c & rest & k & Hs & Hc & Hk).
  rewrite Hs in *. change (Z.of_nat 0) with 0 in Hfast, Hslow.
  assert (Hminus : Ascii.eqb c "-" = false)
    by (apply byte_val_neq; rewrite Hc; change (byte_val "-") with 45; lia).
  assert (Hplus : Ascii.eqb c "+" = false)
    by (apply byte_val_neq; rewrite Hc; change (byte_val "+") with 43; lia).
  unfold Atoi. destruct (_ && _).
  - rewrite Hminus, Hplus. cbn [orb andb]. rewrite Hfast. reflexivity.
  - unfold ParseInt. rewrite Hminus, Hplus. cbn [orb negb andb].
    unfold ParseUint. rewrite Hslow.
    change (2 ^ 63) with 9223372036854775808.
    destruct (Z.leb_spec 9223372036854775808 (Z.of_nat n)); [lia |].
    unfold wrap64.
    change (2 ^ 63) with 9223372036854775808.
    change (2 ^ 64) with 18446744073709551616.
    rewrite Z.mod_small by lia. f_equal. lia.
Qed.

Lemma contains_byte_decimal (d : Decimal.uint) :
  contains_byte (DecimalString.NilEmpty.string_of_uint d) slash = false.
Proof. uint_cases d IH; simpl; [reflexivity | ..]; exact IH. Qed.

Lemma LastIndex_from_absent (s : string) (sep : ascii) :
  contains_byte s sep = false ->
  forall i found, LastIndex_from s sep i found = found.
Proof.
  induction s as [| c s IH]; intros H i found; [reflexivity |].
  simpl in H |- *. apply orb_false_elim in H as [Hc Hs].
  rewrite Hc. apply IH, Hs.
Qed.

Lemma LastIndex_from_last (base tail : string) (sep : ascii) :
  contains_byte tail sep = false ->
  forall i found,
    LastIndex_from (base +:+ String sep tail) sep i found
    = i + Z.of_nat (String.length base).
Proof.
  intros Htail. induction base as [| c base IH]; intros i found.
  - rewrite append_nil_l. simpl. rewrite Ascii.eqb_refl.
    rewrite (LastIndex_from_absent tail sep Htail). lia.
  - rewrite append_cons. cbn [LastIndex_from String.length].
    rewrite IH. lia.
Qed.

(** The text after the last [/] of a URL is what is handed to [Atoi]. *)
Lemma number_of_url_tail (base tail : string) :
  contains_byte tail slash = false ->
  number_of_url (base +:+ "/" +:+ tail) = fst (Atoi tail)
  /\ number_of_url tail = fst (Atoi tail).
Proof.
  intros Htail. unfold number_of_url, LastIndex. split.
  - change ("/" +:+ tail) with (String slash tail).
    rewrite (LastIndex_from_last base tail slash Htail).
    replace (Z.to_nat (0 + Z.of_nat (String.length base) + 1))
      with (String.length (base +:+ "/"))
      by (rewrite length_append; simpl; lia).
    change (String slash tail) with ("/" +:+ tail).
    rewrite <- append_assoc, drop_bytes_append. reflexivity.
  - rewrite (LastIndex_from_absent tail slash Htail). reflexivity.
Qed.

(** The number read from a URL that ends in a numeral. *)
Lemma number_of_url_numeral (base : string) (n : nat) :
  Z.of_nat n < 2 ^ 63 ->
  number_of_url (base +:+ "/" +:+ decimal n) = Z.of_nat n.
Proof.
  intros Hn.
  rewrite (proj1 (number_of_url_tail base (decimal n)
                    (contains_byte_decimal (Nat.to_uint n)))).
  rewrite (Atoi_decimal n Hn). reflexivity.
Qed.

(** X20. The number [handleIssueComments] and
    [handlePullRequestReviewComments] attribute a comment to is the one
    written at the end of its URL: for a URL that ends in [/] and the decimal
    numeral of a number that fits [int64], [strconv.Atoi] applied to the text
    after the last [/] gives that number, without an error; so it does for a
    bare numeral. *)
Theorem number_of_url_decimal (base : string) (n : nat) :
  Z.of_nat n < 2 ^ 63 ->
  number_of_url (base +:+ "/" +:+ decimal n) = Z.of_nat n
  /\ number_of_url (decimal n) = Z.of_nat n
  /\ Atoi (decimal n) = (Z.of_nat n, None).
Proof.
  intros Hn. split; [apply number_of_url_numeral, Hn |].
  rewrite (proj2 (number_of_url_tail base (decimal n)
                    (contains_byte_decimal (Nat.to_uint n)))).
  rewrite (Atoi_decimal n Hn). split; reflexivity.
Qed.

(** Witness of X20: the issue URL of a comment on issue 1234. *)
Lemma number_of_url_decimal_witness :
  number_of_url "https://api.github.com/repos/istio/istio/issues/1234" = 1234.
Proof.
  assert (H : Z.of_nat 1234 < 2 ^ 63) by (vm_compute; reflexivity).
  exact (proj1 (number_of_url_decimal
                  "https://api.github.com/repos/istio/istio/issues" 1234 H)).
Defined.

Lemma atoi_loop_not_digits (s : string) :
  all_digits s = false -> forall n, atoi_loop s n = None.
Proof.
  induction s as [| c s IH]; intros H n; [discriminate H |].
  cbn [all_digits atoi_loop] in *.
  pose proof (byte_val_range c) as Hb.
  destruct (Z.leb_spec 48 (byte_val c)) as [Hlo | Hlo];
    destruct (Z.leb_spec (byte_val c) 57) as [Hhi | Hhi]; simpl in H.
  - rewrite Z.mod_small by lia.
    destruct (Z.ltb_spec 9 (byte_val c - 48)); [reflexivity |].
    apply IH, H.
  - rewrite Z.mod_small by lia.
    destruct (Z.ltb_spec 9 (byte_val c - 48)); [reflexivity | lia].
  - replace ((byte_val c - 48) mod 256) with (byte_val c + 208)
      by (apply (Z.mod_unique_pos _ _ (-1)); lia).
    destruct (Z.ltb_spec 9 (byte_val c + 208)); [reflexivity | lia].
  - lia.
Qed.

(** On a text of fewer than 19 bytes that is no numeral, [Atoi] gives zero
    and a syntax error. *)
Lemma Atoi_short_not_numeral (s : string) :
  (String.length s < 19)%nat -> is_numeral s = false ->
  Atoi s = (0, Some ErrSyntax).
Proof.
  intros Hlen Hnum. destruct s as [| c rest]; [reflexivity |].
  unfold Atoi, is_numeral in *.
  destruct (Z.ltb_spec 0 (Z.of_nat (String.length (String c rest))));
    [| simpl in *; lia].
  destruct (Z.ltb_spec (Z.of_nat (String.length (String c rest))) 19);
    [| lia].
  cbn [andb]. cbv zeta in Hnum |- *.
  destruct (Ascii.eqb c "-" || Ascii.eqb c "+") eqn:Hsigned; cbn [andb].
  - destruct (Z.ltb_spec (Z.of_nat (String.length rest)) 1); [reflexivity |].
    destruct rest as [| c' rest']; [simpl in *; lia |].
    simpl in Hnum. rewrite atoi_loop_not_digits; [reflexivity |].
    exact Hnum.
  - simpl in Hnum. rewrite atoi_loop_not_digits; [reflexivity |].
    exact Hnum.
Qed.

Lemma of_uint_acc_bound (d : Decimal.uint) :
  forall acc,
    Z.of_nat (Nat.of_uint_acc d acc)
    < (Z.of_nat acc + 1)
      * 10 ^ Z.of_nat
               (String.length (DecimalString.NilEmpty.string_of_uint d)).
Proof.
  uint_cases d IH; intros acc; simpl DecimalString.NilEmpty.string_of_uint;
    simpl Nat.of_uint_acc; [simpl; lia | ..];
    cbn [String.length];
    rewrite Nat2Z.inj_succ, Z.pow_succ_r by lia;
    (eapply Z.lt_le_trans; [apply IH |]);
    rewrite Nat.tail_mul_spec;
    match goal with
    | |- _ <= _ * (10 * ?p) =>
        assert (0 < p) by (apply Z.pow_pos_nonneg; lia); nia
    end.
Qed.

(** A digit that takes the value read so far beyond 64 bits. *)
Lemma parse_uint_loop_digit_overflow (c : ascii) (rest : string) (n k : Z) :
  byte_val c = 48 + k -> 0 <= k <= 9 -> 0 <= n < 2 ^ 64 ->
  2 ^ 64 <= n * 10 + k ->
  parse_uint_loop (String c rest) n = (maxUint64, Some ErrRange).
Proof.
  intros Hc Hk Hn Hge. cbn [parse_uint_loop]. rewrite Hc. cbv zeta.
  change (maxUint64 / 10 + 1) with 1844674407370955162.
  change maxUint64 with 18446744073709551615.
  change (2 ^ 64) with 18446744073709551616 in *.
  replace (48 + k - 48) with k by lia.
  destruct (Z.leb_spec 48 (48 + k)); [| lia].
  destruct (Z.leb_spec (48 + k) 57); [| lia]. simpl.
  destruct (Z.leb_spec 1844674407370955162 n); [reflexivity |].
  rewrite (Z.mod_small (n * 10)) by lia.
  replace ((n * 10 + k) mod 18446744073709551616)
    with (n * 10 + k - 18446744073709551616)
    by (apply (Z.mod_unique_pos _ _ 1); lia).
  destruct (Z.ltb_spec (n * 10 + k - 18446744073709551616) (n * 10));
    [reflexivity | lia].
Qed.

(** One round of the overflow argument, for the digit of value [k]: either
    the digit overflows, or the loop goes on from [k + 10 * acc]. *)
Ltac overflow_digit IH acc Hacc Hge k :=
  destruct (Z.lt_ge_cases (Z.of_nat acc * 10 + Z.of_nat k) (2 ^ 64))
    as [Hsmall | Hbig];
  [ rewrite (parse_uint_loop_digit _ _ _ (Z.of_nat k))
      by (reflexivity || lia);
    replace (Z.of_nat acc * 10 + Z.of_nat k)
      with (Z.of_nat (k + 10 * acc)) by lia;
    apply IH; [lia | exact Hge]
  | apply (parse_uint_loop_digit_overflow _ _ _ (Z.of_nat k));
    (reflexivity || lia) ].

Lemma parse_uint_loop_overflow (d : Decimal.uint) :
  forall acc,
    Z.of_nat acc < 2 ^ 64 ->
    2 ^ 64 <= Z.of_nat (Nat.of_uint_acc d acc) ->
    parse_uint_loop (DecimalString.NilEmpty.string_of_uint d) (Z.of_nat acc)
    = (maxUint64, Some ErrRange).
Proof.
  uint_cases d IH; intros acc Hacc Hge;
    simpl DecimalString.NilEmpty.string_of_uint;
    simpl Nat.of_uint_acc in Hge; [lia | ..];
    rewrite Nat.tail_mul_spec in Hge;
    [ overflow_digit IH acc Hacc Hge 0%nat
    | overflow_digit IH acc Hacc Hge 1%nat
    | overflow_digit IH acc Hacc Hge 2%nat
    | overflow_digit IH acc Hacc Hge 3%nat
    | overflow_digit IH acc Hacc Hge 4%nat
    | overflow_digit IH acc Hacc Hge 5%nat
    | overflow_digit IH acc Hacc Hge 6%nat
    | overflow_digit IH acc Hacc Hge 7%nat
    | overflow_digit IH acc Hacc Hge 8%nat
    | overflow_digit IH acc Hacc Hge 9%nat ].
Qed.

(** On the numeral of a number beyond [int64], [Atoi] gives the largest
    [int64] and a range error. *)
Lemma Atoi_decimal_overflow (n : nat) :
  2 ^ 63 <= Z.of_nat n ->
  Atoi (decimal n) = (2 ^ 63 - 1, Some ErrRange).
Proof.
  intros Hn. unfold decimal.
  pose proof (of_uint_acc_bound (Nat.to_uint n) 0) as Hbound.
  pose proof (parse_uint_loop_decimal (Nat.to_uint n) 0) as Hfits.
  pose proof (parse_uint_loop_overflow (Nat.to_uint n) 0) as Hover.
  change (Nat.of_uint_acc (Nat.to_uint n) 0) with (Nat.of_uint (Nat.to_uint n))
    in Hbound, Hfits, Hover.
  rewrite DecimalNat.Unsigned.of_to in Hbound, Hfits, Hover.
  change (Z.of_nat 0) with 0 in Hbound, Hfits, Hover.
  change (2 ^ 63) with 9223372036854775808 in *.
  change (2 ^ 64) with 18446744073709551616 in *.
  destruct (string_of_uint_head _ (to_uint_nonnil n))
    as (c & rest & k & Hs & Hc & Hk).
  rewrite Hs in *.
  assert (Hminus : Ascii.eqb c "-" = false)
    by (apply byte_val_neq; rewrite Hc; change (byte_val "-") with 45; lia).
  assert (Hplus : Ascii.eqb c "+" = false)
    by (apply byte_val_neq; rewrite Hc; change (byte_val "+") with 43; lia).
  unfold Atoi.
  destruct (Z.ltb_spec (Z.of_nat (String.length (String c rest))) 19)
    as [Hshort | Hlong].
  - exfalso.
    assert (10 ^ Z.of_nat (String.length (String c rest)) <= 10 ^ 18)
      by (apply Z.pow_le_mono_r; lia).
    change (10 ^ 18) with 1000000000000000000 in *. lia.
  - rewrite andb_false_r.
    unfold ParseInt. rewrite Hminus, Hplus. cbn [orb negb andb].
    unfold ParseUint.
    destruct (Z.lt_ge_cases (Z.of_nat n) 18446744073709551616) as [Hlt | Hge].
    + rewrite (Hfits Hlt). change (2 ^ 63) with 9223372036854775808.
      destruct (Z.leb_spec 9223372036854775808 (Z.of_nat n)); [| lia].
      reflexivity.
    + rewrite (Hover ltac:(lia) Hge). reflexivity.
Qed.

(** X21. What the number of a comment is when its URL does not end in a
    proper number: when the text after the last [/] has fewer than 19 bytes
    and is no numeral (it is empty, as for a URL that ends in [/], or holds a
    byte that is no digit), the comment is attributed to number 0; when it is
    the numeral of a number beyond [int64], to the largest [int64]. In both
    cases the error of [Atoi] is dropped. *)
Theorem number_of_url_not_a_number (base : string) :
  (forall tail,
      contains_byte tail slash = false ->
      (String.length tail < 19)%nat -> is_numeral tail = false ->
      number_of_url (base +:+ "/" +:+ tail) = 0)
  /\ (forall n : nat,
        2 ^ 63 <= Z.of_nat n ->
        number_of_url (base +:+ "/" +:+ decimal n) = 2 ^ 63 - 1).
Proof.
  split.
  - intros tail Hslash Hlen Hnum.
    rewrite (proj1 (number_of_url_tail base tail Hslash)).
    rewrite (Atoi_short_not_numeral tail Hlen Hnum). reflexivity.
  - intros n Hn.
    rewrite (proj1 (number_of_url_tail base (decimal n)
                      (contains_byte_decimal (Nat.to_uint n)))).
    rewrite (Atoi_decimal_overflow n Hn). reflexivity.
Qed.

(** Witness of X21: an issue URL that ends in [/], and one that ends in a
    name. *)
Lemma number_of_url_not_a_number_witness :
  number_of_url "https://api.github.com/repos/istio/istio/issues/" = 0
  /\ number_of_url "https://api.github.com/repos/istio/istio/issues/12a" = 0.
Proof.
  destruct (number_of_url_not_a_number
              "https://api.github.com/repos/istio/istio/issues") as [H _].
  split.
  - apply (H "" eq_refl); [simpl; lia | reflexivity].
  - apply (H "12a" eq_refl); [simpl; lia | reflexivity].
Defined.

(** ** Issue comments and pull-request review comments *)

Lemma flat_map_ext_on {X Y : Type} (f g : X -> list Y) (xs : list X) :
  (forall x, In x xs -> f x = g x) -> flat_map f xs = flat_map g xs.
Proof.
  induction xs as [| x xs IH]; intros H; simpl; [reflexivity |].
  rewrite (H x) by (left; reflexivity).
  rewrite IH by (intros y Hy; apply H; right; exact Hy). reflexivity.
Qed.

Lemma issue_comments_fold (env : IssueCommentsEnv) (repo : Repo.t)
    (comments : list (GhIssueComment env)) :
  forall ts users,
    foldl (issue_comment_step env repo) (ts, users) comments
    = (ts ++ map (fun c =>
                    fst (ConvertIssueComment env (Repo.OrgLogin repo)
                           (Repo.RepoName repo)
                           (number_of_url (GetIssueURL env c)) c))
                 comments,
       addUsers users
         (flat_map (fun c =>
                      snd (ConvertIssueComment env (Repo.OrgLogin repo)
                             (Repo.RepoName repo)
                             (number_of_url (GetIssueURL env c)) c))
                   comments)).
Proof.
  induction comments as [| c comments IH]; intros ts users; simpl.
  - rewrite app_nil_r. reflexivity.
  - unfold issue_comment_step at 2. cbv zeta.
    destruct (ConvertIssueComment env _ _ _ c) as [t us]. simpl.
    rewrite IH, addUsers_app, <- app_assoc. reflexivity.
Qed.

(** X22. The callback of [handleIssueComments] on a page of comments whose
    issue URLs end in [/] and the decimal numeral of an issue number that
    fits [int64]: every comment is converted with that issue number, the
    records are written in one [WriteIssueComments] call in page order (an
    empty page is written too), and the users of all conversions are
    registered, whether or not the write succeeds. *)
Theorem issue_comments_page_numbers (env : IssueCommentsEnv) (repo : Repo.t)
    (users : gmap string User.t) (comments : list (GhIssueComment env))
    (number : GhIssueComment env -> nat) :
  Forall (fun c => Z.of_nat (number c) < 2 ^ 63
                   /\ exists base,
                        GetIssueURL env c = base +:+ "/" +:+ decimal (number c))
         comments ->
  let convert c :=
    ConvertIssueComment env (Repo.OrgLogin repo) (Repo.RepoName repo)
      (Z.of_nat (number c)) c in
  issue_comments_page env repo users comments
  = (addUsers users (flat_map (fun c => snd (convert c)) comments),
     [EvWriteIssueComments (map (fun c => fst (convert c)) comments)],
     WriteIssueComments env (map (fun c => fst (convert c)) comments)).
Proof.
  intros Hall convert. unfold issue_comments_page.
  rewrite issue_comments_fold. simpl.
  assert (Hnum : forall c, In c comments ->
                   number_of_url (GetIssueURL env c) = Z.of_nat (number c)).
  { intros c Hc. rewrite Forall_forall in Hall.
    destruct (Hall c (proj2 (list_elem_of_In _ _) Hc)) as (Hn & base & ->).
    apply number_of_url_numeral, Hn. }
  rewrite (map_ext_in _ (fun c => fst (convert c)))
    by (intros c Hc; rewrite (Hnum c Hc); reflexivity).
  rewrite (flat_map_ext_on _ (fun c => snd (convert c)))
    by (intros c Hc; rewrite (Hnum c Hc); reflexivity).
  reflexivity.
Qed.

(** Witness of X22: a comment on issue 1234. *)
Lemma issue_comments_page_numbers_witness :
  snd (fst (issue_comments_page demo_issue_comments demo_repo ∅
              [("https://api.github.com/repos/istio/istio/issues/1234",
                "LGTM")]))
  = [@EvWriteIssueComments demo_issue_comments [(1234, "LGTM")]].
Proof.
  assert (Hall : Forall (fun c : string * string =>
                   Z.of_nat 1234 < 2 ^ 63
                   /\ exists base,
                        GetIssueURL demo_issue_comments c
                        = base +:+ "/" +:+ decimal 1234)
                   [("https://api.github.com/repos/istio/istio/issues/1234",
                     "LGTM")]).
  { apply Forall_cons_2; [| apply Forall_nil_2].
    split; [vm_compute; reflexivity |].
    exists "https://api.github.com/repos/istio/istio/issues". reflexivity. }
  rewrite (issue_comments_page_numbers demo_issue_comments demo_repo ∅ _
             (fun _ => 1234%nat) Hall).
  reflexivity.
Defined.

Lemma review_comments_fold (env : ReviewCommentsEnv) (repo : Repo.t)
    (comments : list (GhPullRequestComment env)) :
  forall ts users,
    foldl (review_comment_step env repo) (ts, users) comments
    = (ts ++ map (fun c =>
                    fst (ConvertPullRequestReviewComment env
                           (Repo.OrgLogin repo) (Repo.RepoName repo)
                           (number_of_url (GetPullRequestURL env c)) c))
                 comments,
       addUsers users
         (flat_map (fun c =>
                      snd (ConvertPullRequestReviewComment env
                             (Repo.OrgLogin repo) (Repo.RepoName repo)
                             (number_of_url (GetPullRequestURL env c)) c))
                   comments)).
Proof.
  induction comments as [| c comments IH]; intros ts users; simpl.
  - rewrite app_nil_r. reflexivity.
  - unfold review_comment_step at 2. cbv zeta.
    destruct (ConvertPullRequestReviewComment env _ _ _ c) as [t us]. simpl.
    rewrite IH, addUsers_app, <- app_assoc. reflexivity.
Qed.

(** X23. The callback of [handlePullRequestReviewComments] on a page of
    comments whose pull-request URLs end in [/] and the decimal numeral of a
    number that fits [int64]: every comment is converted with that
    pull-request number, the records are written in one call in page order,
    and the users of all conversions are registered, whether or not the
    write succeeds. *)
Theorem review_comments_page_numbers (env : ReviewCommentsEnv) (repo : Repo.t)
    (users : gmap string User.t) (comments : list (GhPullRequestComment env))
    (number : GhPullRequestComment env -> nat) :
  Forall (fun c => Z.of_nat (number c) < 2 ^ 63
                   /\ exists base,
                        GetPullRequestURL env c
                        = base +:+ "/" +:+ decimal (number c))
         comments ->
  let convert c :=
    ConvertPullRequestReviewComment env (Repo.OrgLogin repo)
      (Repo.RepoName repo) (Z.of_nat (number c)) c in
  review_comments_page env repo users comments
  = (addUsers users (flat_map (fun c => snd (convert c)) comments),
     [EvWritePullRequestReviewComments (map (fun c => fst (convert c)) comments)],
     WritePullRequestReviewComments env
       (map (fun c => fst (convert c)) comments)).
Proof.
  intros Hall convert. unfold review_comments_page.
  rewrite review_comments_fold. simpl.
  assert (Hnum : forall c, In c comments ->
                   number_of_url (GetPullRequestURL env c)
                   = Z.of_nat (number c)).
  { intros c Hc. rewrite Forall_forall in Hall.
    destruct (Hall c (proj2 (list_elem_of_In _ _) Hc)) as (Hn & base & ->).
    apply number_of_url_numeral, Hn. }
  rewrite (map_ext_in _ (fun c => fst (convert c)))
    by (intros c Hc; rewrite (Hnum c Hc); reflexivity).
  rewrite (flat_map_ext_on _ (fun c => snd (convert c)))
    by (intros c Hc; rewrite (Hnum c Hc); reflexivity).
  reflexivity.
Qed.

(** Witness of X23: a review comment on pull request 77. *)
Lemma review_comments_page_numbers_witness :
  snd (fst (review_comments_page demo_review_comments demo_repo ∅
              [("https://api.github.com/repos/istio/istio/pulls/77", "nit")]))
  = [@EvWritePullRequestReviewComments demo_review_comments [(77, "nit")]].
Proof.
  assert (Hall : Forall (fun c : string * string =>
                   Z.of_nat 77 < 2 ^ 63
                   /\ exists base,
                        GetPullRequestURL demo_review_comments c
                        = base +:+ "/" +:+ decimal 77)
                   [("https://api.github.com/repos/istio/istio/pulls/77",
                     "nit")]).
  { apply Forall_cons_2; [| apply Forall_nil_2].
    split; [vm_compute; reflexivity |].
    exists "https://api.github.com/repos/istio/istio/pulls". reflexivity. }
  rewrite (review_comments_page_numbers demo_review_comments demo_repo ∅ _
             (fun _ => 77%nat) Hall).
  reflexivity.
Defined.

(** ** Repository events *)

Lemma event_step_effect (env : EventsEnv) (repo : Repo.t) (acc : EventsAcc)
    (event : GhEvent env) :
  event_step env repo acc event
  = apply_effect (event_effect env repo event) acc.
Proof.
  unfold event_effect, event_step. destruct acc as [a b c d e l].
  destruct (event_Type env event) as [ty |]; [| reflexivity].
  destruct (String.eqb ty "IssueEvent");
    [destruct (ParsePayload env event) as [[] |]; reflexivity |].
  destruct (String.eqb ty "IssueCommentEvent");
    [destruct (ParsePayload env event) as [[] |]; reflexivity |].
  destruct (String.eqb ty "PullRequestEvent");
    [destruct (ParsePayload env event) as [[] |]; reflexivity |].
  destruct (String.eqb ty "PullRequestCommentEvent");
    [destruct (ParsePayload env event) as [[] |]; reflexivity |].
  destruct (String.eqb ty "PullRequestReviewEvent");
    [destruct (ParsePayload env event) as [[] |]; reflexivity |].
  destruct a, b, c, d, e, l; reflexivity.
Qed.

Lemma event_effect_unrecognized (env : EventsEnv) (repo : Repo.t)
    (event : GhEvent env) :
  unrecognized env event = true -> event_effect env repo event = EffNone.
Proof.
  unfold unrecognized, event_effect, event_step, recognized.
  destruct (event_Type env event) as [ty |]; [| discriminate].
  simpl. intros H. apply negb_true_iff in H.
  repeat (apply orb_false_elim in H as [-> H]). reflexivity.
Qed.

Lemma event_effect_unparsable (env : EventsEnv) (repo : Repo.t)
    (event : GhEvent env) :
  unparsable env event = true ->
  exists format err, event_effect env repo event = EffSkip format err.
Proof.
  unfold unparsable, event_effect, event_step, recognized.
  destruct (event_Type env event) as [ty |]; [| discriminate].
  destruct (ParsePayload env event) as [p | err]; [discriminate |].
  simpl. intros H.
  repeat (destruct (String.eqb ty _); [eexists _, _; reflexivity |]).
  discriminate H.
Qed.

(** An event that is neither of an unrecognized type nor unparsable appends
    a record or panics: it logs nothing. *)
Lemma event_effect_kept (env : EventsEnv) (repo : Repo.t)
    (event : GhEvent env) :
  unrecognized env event || unparsable env event = false ->
  match event_effect env repo event with
  | EffNone | EffSkip _ _ => False
  | _ => True
  end.
Proof.
  unfold unrecognized, unparsable, event_effect, event_step, recognized.
  destruct (event_Type env event) as [ty |]; [| intros _; exact I].
  simpl.
  destruct (String.eqb ty "IssueEvent");
    [destruct (ParsePayload env event) as [[] |]; simpl;
     first [intros _; exact I | discriminate] |].
  destruct (String.eqb ty "IssueCommentEvent");
    [destruct (ParsePayload env event) as [[] |]; simpl;
     first [intros _; exact I | discriminate] |].
  destruct (String.eqb ty "PullRequestEvent");
    [destruct (ParsePayload env event) as [[] |]; simpl;
     first [intros _; exact I | discriminate] |].
  destruct (String.eqb ty "PullRequestCommentEvent");
    [destruct (ParsePayload env event) as [[] |]; simpl;
     first [intros _; exact I | discriminate] |].
  destruct (String.eqb ty "PullRequestReviewEvent");
    [destruct (ParsePayload env event) as [[] |]; simpl;
     first [intros _; exact I | discriminate] |].
  destruct (ParsePayload env event); discriminate.
Qed.

(** The five slices of the callback. *)
Lemma events_writes_slices (env : EventsEnv) (acc acc' : EventsAcc) :
  issueEvents acc = issueEvents acc' ->
  issueCommentEvents acc = issueCommentEvents acc' ->
  prEvents acc = prEvents acc' ->
  prCommentEvents acc = prCommentEvents acc' ->
  prReviewEvents acc = prReviewEvents acc' ->
  events_writes env acc = events_writes env acc'.
Proof. unfold events_writes. intros -> -> -> -> ->. reflexivity. Qed.

(** Running the loop over all events and over the kept ones only: both
    panic, or both return the same slices; the kept run adds no error line,
    the full run one per unparsable event. *)
Lemma events_loop_skips (env : EventsEnv) (repo : Repo.t)
    (events : list (GhEvent env)) :
  forall acc acc',
    issueEvents acc = issueEvents acc' ->
    issueCommentEvents acc = issueCommentEvents acc' ->
    prEvents acc = prEvents acc' ->
    prCommentEvents acc = prCommentEvents acc' ->
    prReviewEvents acc = prReviewEvents acc' ->
    match events_loop env repo acc events,
          events_loop env repo acc'
            (List.filter (fun e => negb (unrecognized env e || unparsable env e))
                         events) with
    | Returns a, Returns a' =>
        issueEvents a = issueEvents a'
        /\ issueCommentEvents a = issueCommentEvents a'
        /\ prEvents a = prEvents a'
        /\ prCommentEvents a = prCommentEvents a'
        /\ prReviewEvents a = prReviewEvents a'
        /\ events_log a' = events_log acc'
        /\ (exists lines,
              events_log a = events_log acc ++ lines
              /\ Forall (fun e => write_rank e = None) lines
              /\ length lines
                 = length (List.filter (unparsable env) events))
    | Panics _, Panics _ => True
    | _, _ => False
    end.
Proof.
  induction events as [| e events IH]; intros acc acc' H1 H2 H3 H4 H5.
  - simpl. repeat split; try assumption.
    exists []. rewrite app_nil_r. repeat split. constructor.
  - cbn [events_loop List.filter].
    rewrite (event_step_effect env repo acc e).
    destruct (unrecognized env e) eqn:Hunrec; cbn [orb negb].
    + rewrite (event_effect_unrecognized env repo e Hunrec). cbn [apply_effect].
      assert (Hnot : unparsable env e = false).
      { unfold unrecognized, unparsable in *.
        destruct (event_Type env e); [| discriminate].
        apply negb_true_iff in Hunrec. rewrite Hunrec.
        destruct (ParsePayload env e); reflexivity. }
      rewrite Hnot. apply IH; assumption.
    + destruct (unparsable env e) eqn:Hunp; cbn [negb].
      * destruct (event_effect_unparsable env repo e Hunp) as (f & err & ->).
        cbn [apply_effect].
        specialize (IH (skip_event acc f err) acc' H1 H2 H3 H4 H5).
        destruct (events_loop env repo (skip_event acc f err) events)
          as [a | why];
          destruct (events_loop env repo acc' _) as [a' | why']; try exact IH.
        destruct IH as (? & ? & ? & ? & ? & ? & lines & Hlog & Hlines & Hlen).
        repeat split; try assumption.
        exists (EvErrorf f [AErr err] :: lines). simpl in Hlog.
        rewrite Hlog, <- app_assoc. repeat split.
        -- apply Forall_cons_2; [reflexivity | exact Hlines].
        -- simpl. rewrite Hlen. reflexivity.
      * cbn [events_loop]. rewrite (event_step_effect env repo acc' e).
        pose proof (event_effect_kept env repo e) as Hkept.
        rewrite Hunrec, Hunp in Hkept. specialize (Hkept eq_refl).
        destruct (event_effect env repo e); try contradiction;
          cbn [apply_effect]; try exact I;
          (match goal with
           | |- match events_loop _ _ ?a _ with _ => _ end =>
               match goal with
               | |- context [events_loop _ _ ?b (List.filter _ _)] =>
                   specialize (IH a b)
               end
           end;
           cbn [issueEvents issueCommentEvents prEvents prCommentEvents
                  prReviewEvents events_log] in IH;
           rewrite ?H1, ?H2, ?H3, ?H4, ?H5 in IH |- *;
           specialize (IH eq_refl eq_refl eq_refl eq_refl eq_refl);
           exact IH).
Qed.

Lemma writes_of_app (tr1 tr2 : list EventsEvent) :
  writes_of (tr1 ++ tr2) = writes_of tr1 ++ writes_of tr2.
Proof. unfold writes_of. apply List.filter_app. Qed.

Lemma writes_of_lines (lines : list EventsEvent) :
  Forall (fun e => write_rank e = None) lines -> writes_of lines = [].
Proof.
  induction 1 as [| e lines He _ IH]; [reflexivity |].
  unfold writes_of in *. simpl. rewrite He. exact IH.
Qed.

(** What the five writes leave in the trace: writes only, of slices that are
    not empty, in the order of the five stores, at most one per store; the
    error, if any, is the wrapped error of the last write, the only one the
    store refused. *)
Lemma write_batch_shape {X : Type} (answer : EventsEvent -> option error)
    (batch : list X) (ev : list X -> EventsEvent)
    (write : list X -> option error) (format : string)
    (rest : list EventsEvent * option error) (k : nat) (ranks : list nat) :
  (forall b, write_rank (ev b) = Some k) ->
  (forall b, write_size (ev b) = Some (length b)) ->
  (forall b, answer (ev b) = write b) ->
  (forall b, write_format (ev b) = format) ->
  writes_shaped answer ranks rest ->
  writes_shaped answer (k :: ranks) (write_batch batch ev write format rest).
Proof.
  intros Hrank Hsize Hans Hfmt (Hsub & Hall & Hres).
  unfold write_batch, writes_shaped.
  destruct batch as [| x batch].
  - split; [apply sublist_cons, Hsub |]. split; assumption.
  - destruct (write (x :: batch)) as [err |] eqn:Hw; cbn [fst snd].
    + cbn [omap list_omap]. rewrite Hrank.
      split; [apply sublist_skip, sublist_nil_l |]. split.
      * apply Forall_cons_2; [| apply Forall_nil_2].
        rewrite Hsize. simpl. split; discriminate.
      * unfold result_of_writes. cbn [fst snd].
        exists [], (ev (x :: batch)), err.
        split; [reflexivity |]. split; [apply Forall_nil_2 |].
        split; [rewrite Hans; exact Hw | rewrite Hfmt; reflexivity].
    + cbn [omap list_omap]. rewrite Hrank.
      split; [apply sublist_skip, Hsub |]. split.
      * apply Forall_cons_2; [| exact Hall].
        rewrite Hsize. simpl. split; discriminate.
      * unfold result_of_writes in *. destruct rest as [tr [err |]];
          cbn [fst snd] in *.
        -- destruct Hres as (tr0 & e & cause & -> & H0 & He & ->).
           exists (ev (x :: batch) :: tr0), e, cause.
           split; [reflexivity |]. split; [| split; [exact He | reflexivity]].
           apply Forall_cons_2; [rewrite Hans; exact Hw | exact H0].
        -- apply Forall_cons_2; [rewrite Hans; exact Hw | exact Hres].
Qed.

Lemma events_writes_shape (env : EventsEnv) (acc : EventsAcc) :
  writes_shaped (write_answer env) [1; 2; 3; 4; 5]%nat (events_writes env acc).
Proof.
  unfold events_writes.
  repeat (apply write_batch_shape;
          [reflexivity | reflexivity | reflexivity | reflexivity |]).
  split; [apply sublist_nil_l |]. split; [apply Forall_nil_2 |].
  apply Forall_nil_2.
Qed.

Lemma events_loop_log (env : EventsEnv) (repo : Repo.t)
    (events : list (GhEvent env)) :
  forall acc a,
    events_loop env repo acc events = Returns a ->
    Forall (fun e => write_rank e = None) (events_log acc) ->
    Forall (fun e => write_rank e = None) (events_log a).
Proof.
  induction events as [| e events IH]; intros acc a; simpl.
  - intros [= <-]. auto.
  - rewrite event_step_effect.
    destruct (event_effect env repo e); cbn [apply_effect];
      try discriminate; intros Hloop Hlog;
      apply (IH _ _ Hloop); cbn [events_log skip_event]; try exact Hlog.
    apply Forall_app. split; [exact Hlog |].
    apply Forall_cons_2; [reflexivity | apply Forall_nil_2].
Qed.

(** X24. Events the page callback of [handleEvents] has no use for do not
    disturb it: run over a page, and over the same page without the events
    of a type the [switch] has no case for and without the events whose
    payload does not parse, it makes the same store writes and returns the
    same result (or panics in both runs); processing goes on after such an
    event, and the only trace of them is one logged error line per
    unparsable event. *)
Theorem events_page_skips (env : EventsEnv) (repo : Repo.t)
    (events : list (GhEvent env)) :
  match events_page env repo events,
        events_page env repo
          (List.filter (fun e => negb (unrecognized env e || unparsable env e))
                       events) with
  | Returns (tr, res), Returns (tr', res') =>
      res = res'
      /\ writes_of tr = tr'
      /\ length tr
         = (length (List.filter (unparsable env) events) + length tr')%nat
  | Panics _, Panics _ => True
  | _, _ => False
  end.
Proof.
  unfold events_page.
  pose proof (events_loop_skips env repo events (mkEvents [] [] [] [] [] [])
                (mkEvents [] [] [] [] [] [])
                eq_refl eq_refl eq_refl eq_refl eq_refl) as H.
  destruct (events_loop env repo _ events) as [a | why];
    destruct (events_loop env repo _ (List.filter _ events)) as [a' | why'];
    try exact H; try (exfalso; exact H).
  destruct H as (H1 & H2 & H3 & H4 & H5 & Hlog' & lines & Hlog & Hlines & Hlen).
  rewrite (events_writes_slices env a a' H1 H2 H3 H4 H5).
  destruct (events_writes_shape env a') as (_ & Hsizes & _).
  destruct (events_writes env a') as [tr res]. simpl in Hlog, Hlog', Hsizes.
  rewrite Hlog, Hlog'. simpl.
  split; [reflexivity |]. split.
  - rewrite writes_of_app, (writes_of_lines _ Hlines). simpl.
    unfold writes_of. clear -Hsizes.
    induction Hsizes as [| e tr [_ He] _ IH]; [reflexivity |].
    simpl. destruct e; simpl in *; try congruence; rewrite IH; reflexivity.
  - rewrite length_app, Hlen. reflexivity.
Qed.

(** Witness of X24: the example page holds a star, which the [switch] has
    no case for, and a pull request event whose document is cut short: the
    three slices of the other events are written, the result is nil, and the
    one line more in the trace is the error line of the cut document. *)
Lemma events_page_skips_witness :
  match events_page demo_events demo_repo demo_event_page with
  | Returns (tr, res) =>
      res = None
      /\ writes_of tr
         = [EvWriteIssueCommentEvents
              [IssueCommentEvent.mk "istio" "istio" 12 501 (mkTime 7 0 0)
                 "alice" "created"];
            EvWritePullRequestEvents
              [PullRequestEventRecord.mk "istio" "istio" 7 (mkTime 7 0 0)
                 "alice" "opened"];
            EvWritePullRequestReviewEvents
              [PullRequestReviewEvent.mk "istio" "istio" 7 901 (mkTime 7 0 0)
                 "alice" "submitted"]]
      /\ length tr = 4%nat
  | Panics _ => False
  end.
Proof.
  pose proof (events_page_skips demo_events demo_repo demo_event_page) as H.
  change (events_page demo_events demo_repo
            (List.filter
               (fun e => negb (unrecognized demo_events e
                               || unparsable demo_events e))
               demo_event_page))
    with (Returns
            ([EvWriteIssueCommentEvents
                [IssueCommentEvent.mk "istio" "istio" 12 501 (mkTime 7 0 0)
                   "alice" "created"];
              EvWritePullRequestEvents
                [PullRequestEventRecord.mk "istio" "istio" 7 (mkTime 7 0 0)
                   "alice" "opened"];
              EvWritePullRequestReviewEvents
                [PullRequestReviewEvent.mk "istio" "istio" 7 901
                   (mkTime 7 0 0) "alice" "submitted"]],
             @None error)) in H.
  destruct (events_page demo_events demo_repo demo_event_page)
    as [[tr res] | why].
  - destruct H as (Hres & Hw & Hlen). split; [exact Hres |].
    split; [exact Hw | exact Hlen].
  - exact H.
Defined.

(** X25. The store writes of the page callback of [handleEvents]: at most
    one write per store on a page, in the fixed order issue events, issue
    comment events, pull-request events, pull-request review comment events,
    pull-request review events; a slice that is empty is not written. When
    the callback returns nil the store accepted every write it made. When it
    returns an error, the last call of the trace is a write the store
    refused, the error is the error of that write wrapped in the message of
    its store, every write before it was accepted, and no further slice is
    written. *)
Theorem events_page_writes (env : EventsEnv) (repo : Repo.t)
    (events : list (GhEvent env)) (tr : list EventsEvent)
    (res : option error) :
  events_page env repo events = Returns (tr, res) ->
  omap write_rank tr `sublist_of` [1; 2; 3; 4; 5]%nat
  /\ Forall (fun e => write_size e <> Some 0%nat) tr
  /\ match res with
     | None => Forall (fun e => write_answer env e = None) tr
     | Some err =>
         exists tr0 e cause,
           tr = tr0 ++ [e]
           /\ write_rank e <> None
           /\ Forall (fun e' => write_answer env e' = None) tr0
           /\ write_answer env e = Some cause
           /\ err = Errorf (write_format e) [AErr cause]
     end.
Proof.
  unfold events_page.
  destruct (events_loop env repo _ events) as [acc | why] eqn:Hloop;
    [| discriminate].
  pose proof (events_loop_log env repo events _ _ Hloop (Forall_nil_2 _))
    as Hlog.
  destruct (events_writes_shape env acc) as (Hsub & Hsizes & Hres).
  destruct (events_writes env acc) as [ws r].
  unfold result_of_writes in Hres. cbn [fst snd] in Hsub, Hsizes, Hres.
  intros [= <- <-].
  assert (Hranks : omap write_rank (events_log acc ++ ws) = omap write_rank ws).
  { clear -Hlog. induction Hlog as [| e l He _ IH]; [reflexivity |].
    simpl. rewrite He. exact IH. }
  assert (Hlines : Forall (fun e => write_answer env e = None) (events_log acc)).
  { eapply Forall_impl; [exact Hlog |].
    intros e He. destruct e; simpl in *; congruence. }
  split; [rewrite Hranks; exact Hsub |]. split.
  - apply Forall_app. split.
    + eapply Forall_impl; [exact Hlog |].
      intros e He. destruct e; simpl in *; congruence.
    + eapply Forall_impl; [exact Hsizes |]. intros e [He _]. exact He.
  - destruct r as [err |].
    + destruct Hres as (tr0 & e & cause & -> & H0 & He & ->).
      exists (events_log acc ++ tr0), e, cause.
      split; [apply app_assoc |]. split; [| split; [| split]].
      * destruct e; simpl in *; congruence.
      * apply Forall_app. split; assumption.
      * exact He.
      * reflexivity.
    + apply Forall_app. split; assumption.
Qed.

(** Witness of X25: the example page over a store that refuses pull request
    events. The issue comment is written, the write of the pull request
    event fails and ends the callback with the wrapped error of the store;
    the review is not written. *)
Lemma events_page_writes_witness :
  events_page demo_events_refused demo_repo demo_event_page
  = Returns
      ([EvErrorf "unable to parse payload for pull request event: %v"
          [AErr (Upstream "unexpected end of JSON input")];
        EvWriteIssueCommentEvents
          [IssueCommentEvent.mk "istio" "istio" 12 501 (mkTime 7 0 0)
             "alice" "created"];
        EvWritePullRequestEvents
          [PullRequestEventRecord.mk "istio" "istio" 7 (mkTime 7 0 0)
             "alice" "opened"]],
       Some (Errorf "unable to write pull request events to storage: %v"
               [AErr (Upstream "spanner: unavailable")]))
  /\ exists tr0 e cause,
       [EvErrorf "unable to parse payload for pull request event: %v"
          [AErr (Upstream "unexpected end of JSON input")];
        EvWriteIssueCommentEvents
          [IssueCommentEvent.mk "istio" "istio" 12 501 (mkTime 7 0 0)
             "alice" "created"];
        EvWritePullRequestEvents
          [PullRequestEventRecord.mk "istio" "istio" 7 (mkTime 7 0 0)
             "alice" "opened"]] = tr0 ++ [e]
       /\ write_rank e <> None
       /\ Forall (fun e' => write_answer demo_events_refused e' = None) tr0
       /\ write_answer demo_events_refused e = Some cause
       /\ Errorf "unable to write pull request events to storage: %v"
            [AErr (Upstream "spanner: unavailable")]
          = Errorf (write_format e) [AErr cause].
Proof.
  split; [reflexivity |].
  exact (proj2 (proj2
           (events_page_writes demo_events_refused demo_repo demo_event_page
              [EvErrorf "unable to parse payload for pull request event: %v"
                 [AErr (Upstream "unexpected end of JSON input")];
               EvWriteIssueCommentEvents
                 [IssueCommentEvent.mk "istio" "istio" 12 501 (mkTime 7 0 0)
                    "alice" "created"];
               EvWritePullRequestEvents
                 [PullRequestEventRecord.mk "istio" "istio" 7 (mkTime 7 0 0)
                    "alice" "opened"]]
              (Some (Errorf "unable to write pull request events to storage: %v"
                       [AErr (Upstream "spanner: unavailable")]))
              eq_refl))).
Defined.
(** With a store that accepts the issue events, the pages of the timeline
    leave one write for each page that is not empty, in order. *)
Lemma issue_event_pages_run (env : EventsEnv) (repo : Repo.t)
    (pages : list (list (GhIssueEvent env))) (fetch_err : option error) :
  (forall batch, WriteIssueEvents env batch = None) ->
  fetch_pages (issue_events_page env repo) tt pages fetch_err
  = (tt, map EvWriteIssueEvents (timeline_batches env repo pages), fetch_err).
Proof.
  intros Hw. induction pages as [| events pages IH]; [reflexivity |].
  cbn [fetch_pages]. unfold issue_events_page at 1, write_batch.
  unfold timeline_batches in *. cbn [map List.filter].
  destruct (map (issue_event_record env repo) events) as [| r rs] eqn:Hmap.
  - rewrite IH. reflexivity.
  - rewrite Hw. cbn [fst snd]. rewrite IH. reflexivity.
Qed.

Lemma timeline_batches_concat (env : EventsEnv) (repo : Repo.t)
    (pages : list (list (GhIssueEvent env))) :
  concat (timeline_batches env repo pages)
  = map (issue_event_record env repo) (concat pages).
Proof.
  unfold timeline_batches.
  induction pages as [| events pages IH]; [reflexivity |].
  cbn [map List.filter concat]. rewrite map_app, <- IH.
  destruct (map (issue_event_record env repo) events); reflexivity.
Qed.

Lemma timeline_batches_not_empty (env : EventsEnv) (repo : Repo.t)
    (pages : list (list (GhIssueEvent env))) :
  Forall (fun batch => batch <> []) (timeline_batches env repo pages).
Proof.
  unfold timeline_batches. apply Forall_forall. intros batch Hin.
  apply list_elem_of_In, filter_In in Hin as [_ Hne].
  destruct batch; [discriminate Hne | discriminate].
Qed.

Lemma timeline_batches_length (env : EventsEnv) (repo : Repo.t)
    (pages : list (list (GhIssueEvent env))) :
  length (timeline_batches env repo pages)
  = length (List.filter (fun page => match page with
                                     | [] => false
                                     | _ :: _ => true
                                     end) pages).
Proof.
  unfold timeline_batches.
  induction pages as [| events pages IH]; [reflexivity |].
  cbn [map List.filter]. destruct events; simpl; rewrite IH; reflexivity.
Qed.

(** X26. The two phases of [handleEvents]. When the pass over the
    repository events returns an error, [handleEvents] returns it and the
    issue timeline is not written. When it returns nil and the store accepts
    the issue events, the trace goes on with the writes of the timeline and
    nothing else: one write for each page of the listing that is not empty,
    in the order of the listing, of the records of the events of that page,
    and no write for an empty page; so every event of the timeline is
    written exactly once, in order. The result is then the error that ended
    the listing of the timeline, if any. *)
Theorem handleEvents_timeline (env : EventsEnv) (repo : Repo.t)
    (tr1 : list EventsEvent) :
  (forall err,
      repo_event_pages env repo (fst (fetchRepoEvents env repo))
        (snd (fetchRepoEvents env repo)) = Returns (tr1, Some err) ->
      handleEvents env repo = Returns (tr1, Some err))
  /\ (repo_event_pages env repo (fst (fetchRepoEvents env repo))
        (snd (fetchRepoEvents env repo)) = Returns (tr1, None) ->
      (forall batch, WriteIssueEvents env batch = None) ->
      let pages := fst (fetchIssueEvents env repo) in
      handleEvents env repo
        = Returns (tr1 ++ map EvWriteIssueEvents
                            (timeline_batches env repo pages),
                   snd (fetchIssueEvents env repo))
      /\ length (timeline_batches env repo pages)
         = length (List.filter (fun page => match page with
                                            | [] => false
                                            | _ :: _ => true
                                            end) pages)
      /\ Forall (fun batch => batch <> []) (timeline_batches env repo pages)
      /\ concat (timeline_batches env repo pages)
         = map (issue_event_record env repo) (concat pages)).
Proof.
  unfold handleEvents.
  destruct (fetchRepoEvents env repo) as [pages fetch_err]. cbn [fst snd].
  split.
  - intros err ->. reflexivity.
  - intros -> Hw.
    destruct (fetchIssueEvents env repo) as [issue_pages issue_err].
    cbv zeta. cbn [fst snd].
    rewrite (issue_event_pages_run env repo issue_pages issue_err Hw).
    split; [reflexivity |].
    split; [apply timeline_batches_length |].
    split; [apply timeline_batches_not_empty | apply timeline_batches_concat].
Qed.

(** Witness of X26: after the event page of the example repository, the
    three pages of the timeline, the second of them empty, leave two
    writes. *)
Lemma handleEvents_timeline_witness :
  handleEvents demo_events demo_repo
  = Returns
      ([EvErrorf "unable to parse payload for pull request event: %v"
          [AErr (Upstream "unexpected end of JSON input")];
        EvWriteIssueCommentEvents
          [IssueCommentEvent.mk "istio" "istio" 12 501 (mkTime 7 0 0)
             "alice" "created"];
        EvWritePullRequestEvents
          [PullRequestEventRecord.mk "istio" "istio" 7 (mkTime 7 0 0)
             "alice" "opened"];
        EvWritePullRequestReviewEvents
          [PullRequestReviewEvent.mk "istio" "istio" 7 901 (mkTime 7 0 0)
             "alice" "submitted"]]
       ++ [EvWriteIssueEvents
             [IssueEvent.mk "istio" "istio" 12 (mkTime 8 0 0) "bob" "labeled";
              IssueEvent.mk "istio" "istio" 13 (mkTime 8 0 0) "bob" "closed"];
           EvWriteIssueEvents
             [IssueEvent.mk "istio" "istio" 14 (mkTime 8 0 0) "bob"
                "reopened"]],
       None).
Proof.
  exact (proj1 (proj2 (handleEvents_timeline demo_events demo_repo
                         [EvErrorf
                            "unable to parse payload for pull request event: %v"
                            [AErr (Upstream "unexpected end of JSON input")];
                          EvWriteIssueCommentEvents
                            [IssueCommentEvent.mk "istio" "istio" 12 501
                               (mkTime 7 0 0) "alice" "created"];
                          EvWritePullRequestEvents
                            [PullRequestEventRecord.mk "istio" "istio" 7
                               (mkTime 7 0 0) "alice" "opened"];
                          EvWritePullRequestReviewEvents
                            [PullRequestReviewEvent.mk "istio" "istio" 7 901
                               (mkTime 7 0 0) "alice" "submitted"]])
                  eq_refl (fun _ => eq_refl))).
Defined.
